(** * good-math: the column arithmetic engine and its narrated solve sequencer

    A shallow embedding of
    - [src/utils/mathGenerator.ts]: the problem generator, [getDigits] and
      [padDigits];
    - [src/utils/speech.ts]: [SpeechManager.speak] and the narration texts;
    - [src/components/animations/Celebration.tsx]: [VerticalCalculation],
      that is the column decomposition, [speakAndWait] and the
      [runAnimation] sequencer;
    - [src/types]: [ANIMATION_SPEEDS] and [LEVEL_CONFIGS].

    Conventions.
    - JavaScript numbers that hold integers (operands, digits, indices) are
      [Z]; durations in milliseconds and the draws of [Math.random()] are
      exact rationals [Q]. Timers fire after exactly their delay.
    - [runAnimation] is an async function: it is written as a value of
      [Async], a tree of actions, reads of the closure's [cancelled] flag
      and awaits. [run] executes it against a [World], which says, for
      each await, whether React runs the effect's cleanup while the
      function is suspended, what state the speech manager is in and what
      the browser does with the utterance. The result is a trace of
      events, from which the component state is replayed.
    - [Math.random()] is a [RandomSource], a sequence of draws threaded
      through the generator by the [Rand] state monad.

    The definitions come first; the theorems start at "Theorems". *)

From Stdlib Require Import ZArith List String Ascii Bool Lia Arith.
From Stdlib Require Import QArith Qminmax Qround Lqa.
From Stdlib Require Import DecimalString.
Import ListNotations.

Local Open Scope string_scope.
Local Open Scope list_scope.
Local Open Scope Z_scope.

(* ================================================================== *)
(** ** JavaScript helpers *)
(* ================================================================== *)

Module JS.

(** Template-literal interpolation [`${n}`] of an integer-valued number. *)
Definition show (n : Z) : string := NilZero.string_of_int (Z.to_int n).

(** [arr[i] ?? dflt] on an array whose cells may hold [null]: both
    [undefined] (index out of range) and [null] select the default. *)
Definition nullish (cell : option (option Z)) (dflt : Z) : Z :=
  match cell with
  | Some (Some v) => v
  | Some None => dflt
  | None => dflt
  end.

(** [a || b] on strings: the empty string (and [undefined]) is falsy. *)
Definition orElse (a : option string) (b : string) : string :=
  match a with
  | Some s => if String.eqb s "" then b else s
  | None => b
  end.

(** Truthiness of a string. *)
Definition truthy (s : string) : bool := negb (String.eqb s "").

End JS.

(* ================================================================== *)
(** ** Types ([src/types]) *)
(* ================================================================== *)

Inductive Operation := addition | subtraction.

Definition Operation_eqb (a b : Operation) : bool :=
  match a, b with
  | addition, addition => true
  | subtraction, subtraction => true
  | _, _ => false
  end.

Inductive AnimationSpeed := slow | normal | fast.

(** [ANIMATION_SPEEDS]: slow 1.5, normal 1, fast 0.5. *)
Definition ANIMATION_SPEEDS (speed : AnimationSpeed) : Q :=
  match speed with
  | slow => 15 # 10
  | normal => 1
  | fast => 5 # 10
  end.

(** The problem id is an opaque token; [generateId] builds it from the
    clock and one [Math.random()] draw, which is what is kept here. *)
Record MathProblem := mkProblem {
  id : Q;
  operand1 : Z;
  operand2 : Z;
  operation : Operation;
  answer : Z;
  requiresCarry : bool
}.

(* ================================================================== *)
(** ** Digits ([mathGenerator.ts], [getDigits] and [padDigits]) *)
(* ================================================================== *)

(** The [while (n > 0)] loop of [getDigits]; every turn divides [n] by
    ten, so [Z.to_nat n] turns are always enough (see
    [getDigits_loop_fuel]). *)
Fixpoint getDigits_loop (fuel : nat) (n : Z) (digits : list Z) : list Z :=
  match fuel with
  | O => digits
  | S fuel' =>
      if 0 <? n
      then getDigits_loop fuel' (n / 10) (digits ++ [n mod 10])
      else digits
  end.

Definition getDigits (num : Z) : list Z :=
  if num =? 0 then [0]
  else let n := Z.abs num in getDigits_loop (Z.to_nat n) n [].

(** The [while (padded.length < length)] loop of [padDigits]. *)
Fixpoint padDigits_loop (fuel : nat) (padded : list (option Z)) (len : nat)
  : list (option Z) :=
  match fuel with
  | O => padded
  | S fuel' =>
      if (List.length padded <? len)%nat
      then padDigits_loop fuel' (padded ++ [None]) len
      else padded
  end.

Definition padDigits (digits : list Z) (len : nat) : list (option Z) :=
  padDigits_loop (len - List.length digits) (map Some digits) len.

(* ================================================================== *)
(** ** Column decomposition ([VerticalCalculation], the [useMemo]) *)
(* ================================================================== *)

Definition PLACE_NAMES : list string :=
  ["ones"; "tens"; "hundreds"; "thousands"].

(** [PLACE_NAMES[i] || `place ${i}`] *)
Definition placeNameOf (i : nat) : string :=
  JS.orElse (nth_error PLACE_NAMES i) ("place " ++ JS.show (Z.of_nat i))%string.

Record ColumnCalc := mkColumnCalc {
  placeIndex : Z;
  placeName : string;
  op1Digit : Z;
  op2Digit : Z;
  carryIn : Z;
  sum : Z;
  resultDigit : Z;
  carryOut : Z
}.

Record SubtractionColumnCalc := mkSubtractionColumnCalc {
  sPlaceIndex : Z;
  sPlaceName : string;
  sOp1Digit : Z;
  sOp2Digit : Z;
  borrowIn : Z;
  needsBorrow : bool;
  borrowedValue : Z;
  sResultDigit : Z
}.

(** The addition [for] loop: [todo] turns remain, [i] is the loop index
    and [carry] the loop-carried [carryIn]. *)
Fixpoint additionPass (paddedOp1 paddedOp2 : list (option Z))
    (todo i : nat) (carry : Z) : list ColumnCalc :=
  match todo with
  | O => []
  | S todo' =>
      let d1 := JS.nullish (nth_error paddedOp1 i) 0 in
      let d2 := JS.nullish (nth_error paddedOp2 i) 0 in
      let sum := d1 + d2 + carry in
      let resultDigit := sum mod 10 in
      let carryOut := sum / 10 in
      mkColumnCalc (Z.of_nat i) (placeNameOf i) d1 d2 carry sum
                   resultDigit carryOut
        :: additionPass paddedOp1 paddedOp2 todo' (S i) carryOut
  end.

(** The subtraction [for] loop, with the loop-carried [borrowIn]. *)
Fixpoint subtractionPass (paddedOp1 paddedOp2 : list (option Z))
    (todo i : nat) (borrow : Z) : list SubtractionColumnCalc :=
  match todo with
  | O => []
  | S todo' =>
      let d1 := JS.nullish (nth_error paddedOp1 i) 0 - borrow in
      let d2 := JS.nullish (nth_error paddedOp2 i) 0 in
      let needsBorrow := d1 <? d2 in
      let borrowedValue := if needsBorrow then d1 + 10 else d1 in
      let resultDigit := borrowedValue - d2 in
      mkSubtractionColumnCalc (Z.of_nat i) (placeNameOf i)
                   (JS.nullish (nth_error paddedOp1 i) 0) d2 borrow
                   needsBorrow borrowedValue resultDigit
        :: subtractionPass paddedOp1 paddedOp2 todo' (S i)
             (if needsBorrow then 1 else 0)
  end.

(** [columns] is an array of one record type or the other. *)
Inductive Columns :=
| AdditionColumns (cols : list ColumnCalc)
| SubtractionColumns (cols : list SubtractionColumnCalc).

Record Decomposition := mkDecomposition {
  columns : Columns;
  maxDigits : nat;
  op1Digits : list (option Z);
  op2Digits : list (option Z);
  resultDigits : list (option Z)
}.

Definition decompose (problem : MathProblem) : Decomposition :=
  let op1 := getDigits (operand1 problem) in
  let op2 := getDigits (operand2 problem) in
  let result := getDigits (answer problem) in
  let max := Nat.max (Nat.max (List.length op1) (List.length op2))
                     (List.length result) in
  let paddedOp1 := padDigits op1 max in
  let paddedOp2 := padDigits op2 max in
  let paddedResult := padDigits result max in
  match operation problem with
  | addition =>
      mkDecomposition
        (AdditionColumns (additionPass paddedOp1 paddedOp2 max 0 0))
        max paddedOp1 paddedOp2 paddedResult
  | subtraction =>
      mkDecomposition
        (SubtractionColumns (subtractionPass paddedOp1 paddedOp2 max 0 0))
        max paddedOp1 paddedOp2 paddedResult
  end.

(** The addition columns of a decomposition ([[]] for a subtraction). *)
Definition additionColumns (d : Decomposition) : list ColumnCalc :=
  match columns d with AdditionColumns cols => cols | _ => [] end.

Definition subtractionColumns (d : Decomposition)
  : list SubtractionColumnCalc :=
  match columns d with SubtractionColumns cols => cols | _ => [] end.

(** Reading a ones-first digit sequence back as a number. *)
Fixpoint reconstruct (digits : list Z) : Z :=
  match digits with
  | [] => 0
  | d :: rest => d + 10 * reconstruct rest
  end.

(** The borrow handed to the next column ([borrowIn = needsBorrow ? 1 : 0]). *)
Definition borrowOut (c : SubtractionColumnCalc) : Z :=
  if needsBorrow c then 1 else 0.


(** A chain of values handed from one column to the next: every record
    receives ([inOf]) what the one before it hands on ([outOf]), the
    first one [start]. *)
Fixpoint linked {A : Type} (inOf outOf : A -> Z) (start : Z) (l : list A)
  : Prop :=
  match l with
  | [] => True
  | x :: rest => inOf x = start /\ linked inOf outOf (outOf x) rest
  end.

(** The addition invariant of a column, with the ranges of its digits. *)
Definition additionColumnOk (c : ColumnCalc) : Prop :=
  op1Digit c + op2Digit c + carryIn c = 10 * carryOut c + resultDigit c
  /\ 0 <= resultDigit c <= 9 /\ 0 <= carryOut c <= 1.

(** The subtraction invariant of a column. *)
Definition subtractionColumnOk (c : SubtractionColumnCalc) : Prop :=
  (needsBorrow c = true <-> sOp1Digit c - borrowIn c < sOp2Digit c)
  /\ sResultDigit c
     = (if needsBorrow c then sOp1Digit c - borrowIn c + 10
        else sOp1Digit c - borrowIn c) - sOp2Digit c
  /\ 0 <= sResultDigit c <= 9.

(* ================================================================== *)
(** ** Narration texts ([speech.ts]) *)
(* ================================================================== *)

Inductive Phase := highlight | calc | carry | write.

Section SpeechTexts.
Local Open Scope string_scope.
Import JS.

(** [getAdditionSpeechText]: a [switch] on the phase string. *)
Definition getAdditionSpeechText (phase placeName : string)
    (op1Digit op2Digit carryIn sum resultDigit carryOut : Z) : string :=
  if String.eqb phase "highlight" then
    if (0 <? carryIn)%Z then
      "Look at the " ++ placeName ++ " place. " ++ show op1Digit ++ " and "
        ++ show op2Digit ++ ", plus " ++ show carryIn ++ " carried over."
    else
      "Look at the " ++ placeName ++ " place. " ++ show op1Digit ++ " and "
        ++ show op2Digit ++ "."
  else if String.eqb phase "calc" then
    if (0 <? carryIn)%Z then
      let text := show op1Digit ++ " plus " ++ show op2Digit ++ " plus "
                    ++ show carryIn ++ " equals " ++ show sum ++ "." in
      if (0 <? carryOut)%Z
      then text ++ " " ++ show sum ++ " is more than 9, so we carry!"
      else text
    else
      let text := show op1Digit ++ " plus " ++ show op2Digit ++ " equals "
                    ++ show sum ++ "." in
      if (0 <? carryOut)%Z
      then text ++ " " ++ show sum ++ " is more than 9, so we carry!"
      else text
  else if String.eqb phase "carry" then
    "Write " ++ show resultDigit ++ " in the " ++ placeName
      ++ " place, and carry " ++ show carryOut ++ " to the next place."
  else if String.eqb phase "write" then
    if (carryOut =? 0)%Z
    then "Write " ++ show resultDigit ++ " in the " ++ placeName ++ " place."
    else ""
  else "".

(** [getSubtractionSpeechText] *)
Definition getSubtractionSpeechText (phase placeName : string)
    (op1Digit op2Digit borrowIn : Z) (needsBorrow : bool)
    (borrowedValue resultDigit : Z) : string :=
  let effectiveOp1 := (op1Digit - borrowIn)%Z in
  if String.eqb phase "highlight" then
    if (0 <? borrowIn)%Z then
      "Look at the " ++ placeName ++ " place. " ++ show op1Digit ++ " minus "
        ++ show borrowIn ++ " gives us " ++ show effectiveOp1
        ++ ", and we subtract " ++ show op2Digit ++ "."
    else
      "Look at the " ++ placeName ++ " place. " ++ show op1Digit ++ " minus "
        ++ show op2Digit ++ "."
  else if String.eqb phase "calc" then
    if needsBorrow then
      show effectiveOp1 ++ " is less than " ++ show op2Digit
        ++ ", so we need to borrow! Borrow 10 to get " ++ show borrowedValue
        ++ "."
    else
      show effectiveOp1 ++ " minus " ++ show op2Digit ++ " equals "
        ++ show resultDigit ++ "."
  else if String.eqb phase "carry" then
    show borrowedValue ++ " minus " ++ show op2Digit ++ " equals "
      ++ show resultDigit ++ "."
  else if String.eqb phase "write" then
    "Write " ++ show resultDigit ++ " in the " ++ placeName ++ " place."
  else "".

(** [getCompletionSpeech]; [draw] is the value of its [Math.random()].
    An index outside the array would give [undefined], which is as falsy
    as the empty string for the caller. *)
Definition getCompletionSpeech (draw : Q) (isCorrect : bool) (answer : Z)
  : string :=
  if isCorrect then
    let celebrations := [ "Correct! Great job!"; "Yes! You got it right!";
                          "Excellent work!"; "Perfect! Well done!" ] in
    match Qfloor (draw * inject_Z (Z.of_nat (List.length celebrations))) with
    | Z0 => nth 0 celebrations ""
    | Zpos p => nth (Pos.to_nat p) celebrations ""
    | Zneg _ => ""
    end
  else "The answer is " ++ show answer ++ ". Keep trying!".

End SpeechTexts.

(* ================================================================== *)
(** ** The speech manager ([speech.ts], [SpeechManager]) *)
(* ================================================================== *)

(** The two fields [speak] and [stop] read: whether [this.synth] is set
    (the browser has [window.speechSynthesis]) and [this.enabled]. *)
Record SpeechManager := mkSpeechManager {
  synth : bool;
  enabled : bool
}.

(** A promise is pending, fulfilled with a number, or rejected. *)
Inductive PromiseState :=
| Pending
| Resolved (value : Q)
| Rejected.

(** [resolve(v)]: settles a pending promise, does nothing otherwise. *)
Definition resolve (v : Q) (p : PromiseState) : PromiseState :=
  match p with
  | Pending => Resolved v
  | _ => p
  end.

(** The two events an utterance can fire. *)
Inductive UtteranceEvent := onend | onerror.

(** A call of [speak] in progress: its promise and, when an utterance was
    handed to the synthesizer, the [startTime] its handlers compare
    [Date.now()] with. *)
Record Spoken := mkSpoken {
  promise : PromiseState;
  startTime : option Q
}.

(** The estimate [(text.length / 15) * 1000 / rate]. The callers pass
    the rates 0.9, 1.0 and 1.3; for a zero rate JavaScript gives
    [Infinity] or [NaN], still a number, where [Q] gives 0. *)
Definition estimatedDuration (text : string) (rate : Q) : Q :=
  (inject_Z (Z.of_nat (String.length text)) / 15) * 1000 / rate.

(** The executor of the promise [speak] returns, run at clock [now]. The
    executor only ever receives [resolve]. *)
Definition speak (m : SpeechManager) (text : string) (rate : Q) (now : Q)
  : Spoken :=
  if negb (synth m) || negb (enabled m) then
    mkSpoken (resolve (estimatedDuration text rate) Pending) None
  else
    mkSpoken Pending (Some now).

(** The handlers [utterance.onend] and [utterance.onerror], called at
    clock [now]: both resolve with [Date.now() - startTime]. *)
Definition fire (ev : UtteranceEvent) (now : Q) (s : Spoken) : Spoken :=
  match startTime s with
  | Some t0 =>
      match ev with
      | onend => mkSpoken (resolve (now - t0) (promise s)) (startTime s)
      | onerror => mkSpoken (resolve (now - t0) (promise s)) (startTime s)
      end
  | None => s
  end.

(** The promise after the browser has fired a sequence of events, each
    with the clock it fires at. *)
Definition fireAll (evs : list (UtteranceEvent * Q)) (s : Spoken) : Spoken :=
  fold_left (fun acc e => fire (fst e) (snd e) acc) evs s.

(* ================================================================== *)
(** ** The solve sequencer ([VerticalCalculation], [runAnimation]) *)
(* ================================================================== *)

(** The four [useState] cells of the component. *)
Record SeqState := mkSeqState {
  currentColumn : Z;
  phase : Phase;
  isDone : bool;
  writtenDigits : list Z
}.

(** The [useState] initial values. *)
Definition initState : SeqState := mkSeqState (-1) highlight false [].

(** What the sequencer does to the outside between two awaits. *)
Inductive Action :=
| setCurrentColumn (col : Z)
| setPhase (p : Phase)
| setIsDone (b : bool)
| pushWrittenDigit (d : Z)      (* setWrittenDigits(prev => [...prev, d]) *)
| setWrittenDigits (ds : list Z)
| speechStop                    (* speechManager.stop() *)
| onComplete.                   (* onComplete?.() with a callback given *)

Definition applyAction (a : Action) (s : SeqState) : SeqState :=
  match a with
  | setCurrentColumn col =>
      mkSeqState col (phase s) (isDone s) (writtenDigits s)
  | setPhase p =>
      mkSeqState (currentColumn s) p (isDone s) (writtenDigits s)
  | setIsDone b =>
      mkSeqState (currentColumn s) (phase s) b (writtenDigits s)
  | pushWrittenDigit d =>
      mkSeqState (currentColumn s) (phase s) (isDone s)
                 (writtenDigits s ++ [d])
  | setWrittenDigits ds =>
      mkSeqState (currentColumn s) (phase s) (isDone s) ds
  | speechStop => s
  | onComplete => s
  end.

(** The reset effect keyed on [problem.id]. *)
Definition resetEffect : list Action :=
  [ setCurrentColumn (-1); setPhase highlight; setIsDone false;
    setWrittenDigits []; speechStop ].

(** The two kinds of promise [runAnimation] awaits. *)
Inductive Awaitable :=
| Timeout (ms : Q)                       (* new Promise(r => setTimeout(r, ms)) *)
| Speaking (text : string) (rate : Q).   (* speechManager.speak(text, rate) *)

(** An async function body: it acts, reads the [cancelled] flag of its
    closure, awaits (and goes on with the value the promise resolved
    with), returns early, throws, or falls off its end with a value. *)
Inductive Async (A : Type) : Type :=
| Pure (a : A)
| ReturnNow
| Throw
| Perform (act : Action) (k : Async A)
| ReadCancelled (k : bool -> Async A)
| Await (aw : Awaitable) (k : Q -> Async A).

Arguments Pure {A} a.
Arguments ReturnNow {A}.
Arguments Throw {A}.
Arguments Perform {A} act k.
Arguments ReadCancelled {A} k.
Arguments Await {A} aw k.

Fixpoint bind {A B : Type} (p : Async A) (f : A -> Async B) : Async B :=
  match p with
  | Pure a => f a
  | ReturnNow => ReturnNow
  | Throw => Throw
  | Perform act k => Perform act (bind k f)
  | ReadCancelled k => ReadCancelled (fun c => bind (k c) f)
  | Await aw k => Await aw (fun v => bind (k v) f)
  end.

Declare Scope async_scope.
Delimit Scope async_scope with async.
Notation "x <- p ;; q" := (bind p (fun x => q))
  (at level 61, p at next level, right associativity) : async_scope.
Notation "p ;; q" := (bind p (fun _ => q))
  (at level 61, right associativity) : async_scope.

Definition perform (act : Action) : Async unit := Perform act (Pure tt).
Definition await (aw : Awaitable) : Async Q := Await aw (fun v => Pure v).

(** [if (cancelled) return;] *)
Definition ifCancelledReturn : Async unit :=
  ReadCancelled (fun c => if c then ReturnNow else Pure tt).

(** [getDuration] *)
Definition getDuration (base : Q) (speed : AnimationSpeed) : Q :=
  base * ANIMATION_SPEEDS speed.

(** One cell of [columns]. *)
Inductive Column :=
| AddCol (c : ColumnCalc)
| SubCol (c : SubtractionColumnCalc).

(** The cells of [columns], in order. *)
Definition columnList (cs : Columns) : list Column :=
  match cs with
  | AdditionColumns cols => map AddCol cols
  | SubtractionColumns cols => map SubCol cols
  end.

(** [columns[col]] *)
Definition columnAt (cs : Columns) (col : nat) : option Column :=
  nth_error (columnList cs) col.

(** [column.resultDigit] *)
Definition resultDigitOf (c : Column) : Z :=
  match c with
  | AddCol c => resultDigit c
  | SubCol c => sResultDigit c
  end.

Section Sequencer.
Local Open Scope Q_scope.
Local Open Scope async_scope.

(** The props and the settings the effect closes over. *)
Variable problem : MathProblem.
Variable isCorrect : bool.
Variable animationSpeed : AnimationSpeed.
Variable onCompleteGiven : bool.
Variable speechEnabled : bool.
(** The value of the [Math.random()] in [getCompletionSpeech]. *)
Variable draw : Q.

(** [speakAndWait] *)
Definition speakAndWait (text : string) (minWait : Q) : Async unit :=
  if speechEnabled && JS.truthy text then
    let rate := match animationSpeed with
                | slow => 0.9
                | fast => 1.3
                | normal => 1.0
                end in
    speechDuration <- await (Speaking text rate) ;;
    let waitTime := Qmax minWait (speechDuration + 200) in
    _ <- await (Timeout (waitTime - speechDuration)) ;;
    Pure tt
  else
    _ <- await (Timeout minWait) ;;
    Pure tt.

(** The four texts of a column, as the two branches on
    [problem.operation] compute them. The casts [column as ColumnCalc]
    and [column as SubtractionColumnCalc] are sound because [columns]
    is built by the same test on [problem.operation]; the mismatch is
    [None]. *)
Definition speechTexts (column : Column)
  : option (string * string * string * string) :=
  let texts (f : string -> string) :=
    (f "highlight"%string, f "calc"%string, f "carry"%string,
     f "write"%string) in
  match operation problem, column with
  | addition, AddCol c =>
      Some (texts (fun ph =>
        getAdditionSpeechText ph (placeName c) (op1Digit c) (op2Digit c)
          (carryIn c) (sum c) (resultDigit c) (carryOut c)))
  | subtraction, SubCol c =>
      Some (texts (fun ph =>
        getSubtractionSpeechText ph (sPlaceName c) (sOp1Digit c)
          (sOp2Digit c) (borrowIn c) (needsBorrow c) (borrowedValue c)
          (sResultDigit c)))
  | _, _ => None
  end.

(** [hasCarryOrBorrow]; a field the record does not have reads
    [undefined], which is neither [> 0] nor truthy. *)
Definition hasCarryOrBorrow (column : Column) : bool :=
  match operation problem, column with
  | addition, AddCol c => (0 <? carryOut c)%Z
  | subtraction, SubCol c => needsBorrow c
  | _, _ => false
  end.

(** The body of the [for] loop for the column [col]. *)
Definition animateColumn (columns : Columns) (baseTiming : Q) (col : nat)
  : Async unit :=
  ifCancelledReturn ;;
  perform (setCurrentColumn (Z.of_nat col)) ;;
  match columnAt columns col with
  | None => Throw
  | Some column =>
      match speechTexts column with
      | None => Throw
      | Some (highlightText, calcText, carryText, writeText) =>
          (* Highlight phase *)
          perform (setPhase highlight) ;;
          speakAndWait highlightText baseTiming ;;
          ifCancelledReturn ;;
          (* Calculate phase *)
          perform (setPhase calc) ;;
          speakAndWait calcText (baseTiming * 1.5) ;;
          ifCancelledReturn ;;
          (* Carry/borrow phase (if needed) *)
          (if hasCarryOrBorrow column then
             perform (setPhase carry) ;;
             speakAndWait carryText (baseTiming * 1.2) ;;
             ifCancelledReturn
           else Pure tt) ;;
          (* Write phase *)
          perform (setPhase write) ;;
          perform (pushWrittenDigit (resultDigitOf column)) ;;
          (if JS.truthy writeText then
             speakAndWait writeText (baseTiming * 0.8)
           else
             _ <- await (Timeout (baseTiming * 0.8)) ;; Pure tt) ;;
          ifCancelledReturn
      end
  end.

(** [for (let col = 0; col < maxDigits; col++)]: [todo] turns remain. *)
Fixpoint animateColumns (columns : Columns) (baseTiming : Q)
    (todo col : nat) : Async unit :=
  match todo with
  | O => Pure tt
  | S todo' =>
      animateColumn columns baseTiming col ;;
      animateColumns columns baseTiming todo' (S col)
  end.

(** [runAnimation], with [columns] and [maxDigits] of the [useMemo]. *)
Definition runAnimation : Async unit :=
  let d := decompose problem in
  let baseTiming := getDuration 600 animationSpeed in
  perform speechStop ;;
  _ <- await (Timeout baseTiming) ;;
  ifCancelledReturn ;;
  animateColumns (columns d) baseTiming (maxDigits d) 0 ;;
  (* Done - speak completion *)
  perform (setIsDone true) ;;
  speakAndWait (getCompletionSpeech draw isCorrect (answer problem))
               baseTiming ;;
  ifCancelledReturn ;;
  (if onCompleteGiven then perform onComplete else Pure tt).

End Sequencer.

(** *** Running an async body against its environment *)

(** What happens while the run is suspended at its [n]-th await: whether
    React runs the effect's cleanup ([cancelled = true;
    speechManager.stop()]), the state of the speech manager if the await
    is a [speak], and the event the browser fires on the utterance with
    the milliseconds after which it fires ([None]: it never fires one). *)
Record Tick := mkTick {
  cleanup : bool;
  manager : SpeechManager;
  browser : option (UtteranceEvent * Q)
}.

Definition World := nat -> Tick.

(** How an awaited promise settles: after [elapsed] ms with [value], or
    never. *)
Inductive Settle :=
| Settles (elapsed value : Q)
| Never.

Definition settle (aw : Awaitable) (t : Tick) : Settle :=
  match aw with
  | Timeout ms => Settles ms 0
  | Speaking text rate =>
      let s := speak (manager t) text rate 0 in
      match promise s with
      | Resolved v => Settles 0 v
      | Rejected => Never
      | Pending =>
          match browser t with
          | None => Never
          | Some (ev, at_) =>
              match promise (fire ev at_ s) with
              | Resolved v => Settles at_ v
              | _ => Never
              end
          end
      end
  end.

Inductive Event :=
| EvAct (a : Action)            (* the run performs an action *)
| EvSuspend (aw : Awaitable)    (* the run suspends at an await *)
| EvCleanup                     (* the effect's cleanup runs *)
| EvResume (elapsed value : Q). (* the awaited promise has settled *)

Inductive Outcome (A : Type) :=
| Finished (a : A) (awaits : nat) (cancelled : bool)
| Returned
| Threw
| Suspended.

Arguments Finished {A} a awaits cancelled.
Arguments Returned {A}.
Arguments Threw {A}.
Arguments Suspended {A}.

(** [run p w n c]: the events of [p] from its [n]-th await on, with the
    flag [cancelled = c], and how it ends. *)
Fixpoint run {A : Type} (p : Async A) (w : World) (n : nat) (c : bool)
  : list Event * Outcome A :=
  match p with
  | Pure a => ([], Finished a n c)
  | ReturnNow => ([], Returned)
  | Throw => ([], Threw)
  | Perform act k =>
      let (tr, o) := run k w n c in (EvAct act :: tr, o)
  | ReadCancelled k => run (k c) w n c
  | Await aw k =>
      let t := w n in
      let now := cleanup t && negb c in
      let seen := if now then [EvSuspend aw; EvCleanup] else [EvSuspend aw] in
      match settle aw t with
      | Never => (seen, Suspended)
      | Settles elapsed v =>
          let (tr, o) := run (k v) w (S n) (c || cleanup t) in
          (seen ++ EvResume elapsed v :: tr, o)
      end
  end.

(** The trace of a whole run of the effect. *)
Definition trace (p : Async unit) (w : World) : list Event :=
  fst (run p w 0%nat false).

Definition outcome (p : Async unit) (w : World) : Outcome unit :=
  snd (run p w 0%nat false).

(** The component state after a prefix of the trace. *)
Definition applyEvent (s : SeqState) (e : Event) : SeqState :=
  match e with
  | EvAct a => applyAction a s
  | _ => s
  end.

Definition stateAfter (tr : list Event) (s : SeqState) : SeqState :=
  fold_left applyEvent tr s.

(** The phases a trace enters, each with the total time the run then
    waits before its next state change or its end. *)
Fixpoint waited (tr : list Event) : Q :=
  match tr with
  | EvResume elapsed _ :: rest => elapsed + waited rest
  | EvSuspend _ :: rest => waited rest
  | EvCleanup :: rest => waited rest
  | EvAct (pushWrittenDigit _) :: rest => waited rest
  | _ => 0
  end.

Fixpoint dwells (tr : list Event) : list (Phase * Q) :=
  match tr with
  | [] => []
  | EvAct (setPhase p) :: rest => (p, waited rest) :: dwells rest
  | _ :: rest => dwells rest
  end.

(** A world in which nothing is cancelled, the speech manager is as
    given and every utterance ends after [ms] milliseconds. *)
Definition calmWorld (m : SpeechManager) (ms : Q) : World :=
  fun _ => mkTick false m (Some (onend, ms)).

(* ================================================================== *)
(** ** The problem generator ([mathGenerator.ts]) *)
(* ================================================================== *)

Inductive QuizLevel :=
| add_sub_10 | add_sub_20 | add_sub_100 | add_sub_1000
| mixed_10 | mixed_20 | mixed_100 | mixed_1000.

(** The two fields of [LevelConfig] the generator reads. *)
Record LevelConfig := mkLevelConfig {
  maxNumber : Z;
  operations : list Operation
}.

Definition LEVEL_CONFIGS (level : QuizLevel) : LevelConfig :=
  match level with
  | add_sub_10 | mixed_10 => mkLevelConfig 10 [addition; subtraction]
  | add_sub_20 | mixed_20 => mkLevelConfig 20 [addition; subtraction]
  | add_sub_100 | mixed_100 => mkLevelConfig 100 [addition; subtraction]
  | add_sub_1000 | mixed_1000 => mkLevelConfig 1000 [addition; subtraction]
  end.

(** The random source: the successive values of [Math.random()], and a
    computation that consumes them from a cursor on. *)
Definition RandomSource := nat -> Q.

Definition Rand (A : Type) : Type := RandomSource -> nat -> A * nat.

Definition ret {A : Type} (a : A) : Rand A := fun _ cur => (a, cur).

Definition andThen {A B : Type} (m : Rand A) (f : A -> Rand B) : Rand B :=
  fun src cur => let (a, cur') := m src cur in f a src cur'.

(** [Math.random()] *)
Definition random : Rand Q := fun src cur => (src cur, S cur).

Declare Scope rand_scope.
Delimit Scope rand_scope with rand.
Notation "'let*' x := m 'in' k" := (andThen m (fun x => k))
  (at level 10, x name, m at level 100, k at level 200)
  : rand_scope.

Section Generator.
Local Open Scope rand_scope.

(** The table [LEVEL_CONFIGS] the generator looks levels up in. *)
Variable configs : QuizLevel -> LevelConfig.

(** [generateId]: one draw; the token itself is opaque. *)
Definition generateId : Rand Q := random.

(** [getRandomInt]: [Math.floor(Math.random() * (max - min + 1)) + min] *)
Definition getRandomInt (min max : Z) : Rand Z :=
  let* r := random in
  ret (Qfloor (r * inject_Z (max - min + 1)) + min).

(** [getRandomOperation]; an index outside the array is [undefined]. *)
Definition getRandomOperation (ops : list Operation)
  : Rand (option Operation) :=
  let* r := random in
  ret (match Qfloor (r * inject_Z (Z.of_nat (List.length ops))) with
       | Z0 => nth_error ops 0
       | Zpos p => nth_error ops (Pos.to_nat p)
       | Zneg _ => None
       end).

(** [checkRequiresCarry] *)
Definition checkRequiresCarry (a b : Z) (op : Operation) : bool :=
  match op with
  | addition =>
      let onesA := a mod 10 in
      let onesB := b mod 10 in
      10 <=? onesA + onesB
  | subtraction =>
      let onesA := a mod 10 in
      let onesB := b mod 10 in
      onesA <? onesB
  end.

Definition generateAdditionProblem (maxNumber : Z) : Rand MathProblem :=
  let* operand1 := getRandomInt 0 maxNumber in
  let maxOperand2 := maxNumber - operand1 in
  let* operand2 := getRandomInt 0 maxOperand2 in
  let answer := operand1 + operand2 in
  let requiresCarry := checkRequiresCarry operand1 operand2 addition in
  let* id := generateId in
  ret (mkProblem id operand1 operand2 addition answer requiresCarry).

Definition generateSubtractionProblem (maxNumber : Z) : Rand MathProblem :=
  let* operand1 := getRandomInt 0 maxNumber in
  let* operand2 := getRandomInt 0 operand1 in
  let answer := operand1 - operand2 in
  let requiresCarry := checkRequiresCarry operand1 operand2 subtraction in
  let* id := generateId in
  ret (mkProblem id operand1 operand2 subtraction answer requiresCarry).

(** [generateProblem]: anything but ['addition'] takes the [else]. *)
Definition generateProblem (level : QuizLevel) : Rand MathProblem :=
  let config := configs level in
  let* operation := getRandomOperation (operations config) in
  match operation with
  | Some addition => generateAdditionProblem (maxNumber config)
  | _ => generateSubtractionProblem (maxNumber config)
  end.

(** [isDuplicateProblem] *)
Definition isDuplicateProblem (a b : MathProblem) : bool :=
  (operand1 a =? operand1 b) && (operand2 a =? operand2 b)
  && Operation_eqb (operation a) (operation b).

(** [problems.slice(-3)] *)
Definition recent (problems : list MathProblem) : list MathProblem :=
  skipn (List.length problems - 3) problems.

(** The first [while] loop of [generateQuiz]; [left] is
    [maxAttempts - attempts], so that [attempts < maxAttempts] reads
    [left <> 0] and [attempts++] takes one off. *)
Fixpoint uniqueLoop (level : QuizLevel) (count : nat) (left : nat)
    (problems : list MathProblem) : Rand (list MathProblem) :=
  match left with
  | O => ret problems
  | S left' =>
      if (List.length problems <? count)%nat then
        let* newProblem := generateProblem level in
        let lastProblem := List.last (map Some problems) None in
        let keep :=
          match lastProblem with
          | Some lastP =>
              if negb (isDuplicateProblem newProblem lastP)
              then negb (existsb (fun p => isDuplicateProblem p newProblem)
                                 (recent problems))
              else false
          | None =>
              negb (existsb (fun p => isDuplicateProblem p newProblem)
                            (recent problems))
          end in
        uniqueLoop level count left'
          (if keep then problems ++ [newProblem] else problems)
      else ret problems
  end.

(** The second [while] loop; [missing] is [count - problems.length]. *)
Fixpoint fillLoop (level : QuizLevel) (missing : nat)
    (problems : list MathProblem) : Rand (list MathProblem) :=
  match missing with
  | O => ret problems
  | S missing' =>
      let* p := generateProblem level in
      fillLoop level missing' (problems ++ [p])
  end.

Definition generateQuiz (level : QuizLevel) (count : nat)
  : Rand (list MathProblem) :=
  let maxAttempts := (count * 10)%nat in
  let* problems := uniqueLoop level count maxAttempts [] in
  fillLoop level (count - List.length problems) problems.

End Generator.

(** A random source whose draws are all [q]. *)
Definition constantSource (q : Q) : RandomSource := fun _ => q.

(** What the spec asks of a generated problem, for a level whose
    maximum is [maxN]. *)
Definition validProblem (maxN : Z) (p : MathProblem) : Prop :=
  0 <= operand1 p <= maxN /\ 0 <= operand2 p <= maxN
  /\ match operation p with
     | addition =>
         answer p = operand1 p + operand2 p /\ answer p <= maxN
     | subtraction =>
         operand2 p <= operand1 p /\ answer p = operand1 p - operand2 p
         /\ 0 <= answer p
     end.


(** *** Observing a run

    A monitor follows a trace event by event. It keeps the component
    state, the event before the current one, whether the cleanup has run
    and how many times [onComplete] was called. *)
Record Mon := mkMon {
  mst : SeqState;
  prev : option Event;
  cancelSeen : bool;
  completions : nat
}.

Definition monInit : Mon := mkMon initState None false 0.

Definition monStep (m : Mon) (e : Event) : Mon :=
  mkMon (applyEvent (mst m) e) (Some e)
        (match e with EvCleanup => true | _ => cancelSeen m end)
        (match e with
         | EvAct onComplete => S (completions m)
         | _ => completions m
         end).

Definition monAfter (tr : list Event) (m : Mon) : Mon :=
  fold_left monStep tr m.

(** [Holds P F m tr]: every event of [tr] satisfies [P] in the monitor
    state it occurs in, and [F] holds of the monitor at the end. *)
Fixpoint Holds (P : Mon -> Event -> Prop) (F : Mon -> Prop) (m : Mon)
    (tr : list Event) : Prop :=
  match tr with
  | [] => F m
  | e :: rest => P m e /\ Holds P F (monStep m e) rest
  end.

(** The result digits of all columns, ones first. *)
Definition columnDigits (cs : Columns) : list Z :=
  map resultDigitOf (columnList cs).

(** A column carries ([carryOut > 0]) or borrows ([needsBorrow]). *)
Definition columnCarries (column : Column) : bool :=
  match column with
  | AddCol c => 0 <? carryOut c
  | SubCol c => needsBorrow c
  end.

(** What an action of the run may rely on when it is performed. *)
Definition actOk (cs : Columns) (m : Mon) (a : Action) : Prop :=
  let s := mst m in
  match a with
  | setCurrentColumn c =>
      c = currentColumn s + 1 /\ 0 <= c /\ isDone s = false
      /\ (Z.to_nat c < List.length (columnList cs))%nat
      /\ writtenDigits s = firstn (Z.to_nat c) (columnDigits cs)
  | setPhase highlight => isDone s = false
  | setPhase calc => phase s = highlight
  | setPhase carry =>
      0 <= currentColumn s /\ phase s = calc
      /\ exists col, columnAt cs (Z.to_nat (currentColumn s)) = Some col
                     /\ columnCarries col = true
  | setPhase write =>
      0 <= currentColumn s
      /\ exists col, columnAt cs (Z.to_nat (currentColumn s)) = Some col
                     /\ phase s = if columnCarries col then carry else calc
  | pushWrittenDigit d =>
      prev m = Some (EvAct (setPhase write)) /\ 0 <= currentColumn s
      /\ writtenDigits s
         = firstn (Z.to_nat (currentColumn s)) (columnDigits cs)
      /\ exists col, columnAt cs (Z.to_nat (currentColumn s)) = Some col
                     /\ d = resultDigitOf col
  | setIsDone b =>
      b = true /\ isDone s = false /\ phase s = write
      /\ currentColumn s = Z.of_nat (List.length (columnList cs)) - 1
      /\ writtenDigits s = columnDigits cs
  | setWrittenDigits _ => False
  | speechStop => prev m = None
  | onComplete => isDone s = true /\ completions m = 0%nat
  end.

(** What every event of a run satisfies. *)
Definition stepOk (cs : Columns) (m : Mon) (e : Event) : Prop :=
  (prev m = Some (EvAct (setPhase write)) ->
   exists d, e = EvAct (pushWrittenDigit d))
  /\ match e with
     | EvAct a => cancelSeen m = false /\ actOk cs m a
     | EvSuspend (Speaking text _) =>
         cancelSeen m = false /\ text <> ""%string
     | EvSuspend (Timeout _) => True
     | EvCleanup => cancelSeen m = false
     | EvResume _ _ => True
     end.

(** No trace stops between entering the write phase and the digit. *)
Definition endOk (m : Mon) : Prop :=
  prev m <> Some (EvAct (setPhase write)).

(** The speech promise of a tick settles: the manager has no
    synthesizer or is disabled (it resolves with the estimate), or the
    browser fires [end] or [error] on the utterance. *)
Definition tickSettles (t : Tick) : Prop :=
  synth (manager t) = false \/ enabled (manager t) = false
  \/ browser t <> None.

(** Worlds in which every speech promise settles, and worlds in which
    the effect is never cleaned up. *)
Definition settlesAll (w : World) : Prop :=
  forall n, tickSettles (w n).

Definition noCleanup (w : World) : Prop :=
  forall n, cleanup (w n) = false.

(** The run does nothing itself: it only waits. *)
Definition quiet (e : Event) : Prop :=
  match e with
  | EvAct _ => False
  | EvSuspend (Speaking _ _) => False
  | _ => True
  end.

(** The run is suspended at an await, or resumes from one. *)
Definition isWait (e : Event) : Prop :=
  match e with
  | EvSuspend _ => True
  | EvResume _ _ => True
  | _ => False
  end.

(** How many times a trace calls [onComplete]. *)
Fixpoint countComplete (tr : list Event) : nat :=
  match tr with
  | [] => 0
  | EvAct onComplete :: rest => S (countComplete rest)
  | _ :: rest => countComplete rest
  end.

(** The run goes on: it has not thrown and is not stuck at an await. *)
Definition goesOn {A : Type} (o : Outcome A) : Prop :=
  match o with
  | Finished _ _ _ => True
  | Returned => True
  | Threw => False
  | Suspended => False
  end.

(** A world in which the synthesizer takes every utterance and never
    fires an event on it. *)
Definition silentWorld : World :=
  fun _ => mkTick false (mkSpeechManager true true) None.

(** Sample inputs. *)
Definition problem_7_plus_5 : MathProblem := mkProblem 0 7 5 addition 12 true.
Definition problem_12_minus_5 : MathProblem :=
  mkProblem 0 12 5 subtraction 7 true.
Definition column_7_plus_5_ones : ColumnCalc :=
  mkColumnCalc 0 "ones" 7 5 0 12 2 1.

(** The utterance in flight after a trace: [speak] starts one, the
    settling of its promise ends it, and [speechManager.stop()], which
    the cleanup and the run's first statement call, cancels it. *)
Definition narrationStep (inFlight : option string) (e : Event)
  : option string :=
  match e with
  | EvSuspend (Speaking text _) => Some text
  | EvSuspend (Timeout _) => inFlight
  | EvResume _ _ => None
  | EvCleanup => None
  | EvAct speechStop => None
  | EvAct _ => inFlight
  end.

Definition narrationAfter (tr : list Event) : option string :=
  fold_left narrationStep tr None.

(** A sample run of the effect: 7 + 5, answered correctly, at normal
    speed, with a callback, narration as given. *)
Definition sampleRun (speechEnabled : bool) : Async unit :=
  runAnimation problem_7_plus_5 true normal true speechEnabled 0.

(** The browser has a synthesizer and speech is on. *)
Definition speakingManager : SpeechManager := mkSpeechManager true true.

(** The browser has no [window.speechSynthesis]. *)
Definition missingSynth : SpeechManager := mkSpeechManager false true.

(** *** Reasoning about monitored runs *)

(** Every run of [p], started with the flag the monitor has seen,
    keeps [stepOk]; if it falls off its end, [Q] holds there. *)
Definition checked {A : Type} (cs : Columns) (m : Mon) (p : Async A)
    (Q : A -> Mon -> Prop) : Prop :=
  forall w n,
    Holds (stepOk cs)
      (fun m' =>
         match snd (run p w n (cancelSeen m)) with
         | Finished a _ c' => c' = cancelSeen m' /\ Q a m'
         | _ => endOk m'
         end)
      m (fst (run p w n (cancelSeen m))).


(** What is known of the monitor when a wait is over: the state
    cells and the count of completions are as before, a cleanup seen
    stays seen, and the last event is the resumption. *)
Definition resumedFrom (m m' : Mon) : Prop :=
  mst m' = mst m /\ completions m' = completions m
  /\ (cancelSeen m = true -> cancelSeen m' = true)
  /\ exists elapsed v, prev m' = Some (EvResume elapsed v).


(** What holds between two turns of the loop, [col] columns done. *)
Definition betweenColumns (cs : Columns) (col : nat) (m : Mon)
  : Prop :=
  cancelSeen m = false /\ endOk m /\ completions m = 0%nat
  /\ isDone (mst m) = false
  /\ currentColumn (mst m) = Z.of_nat col - 1
  /\ writtenDigits (mst m) = firstn col (columnDigits cs)
  /\ (col <> 0%nat -> phase (mst m) = write).


(** A column record of the kind [problem.operation] selects. *)
Definition wellTagged (p : MathProblem) (column : Column) : Prop :=
  match operation p, column with
  | addition, AddCol _ => True
  | subtraction, SubCol _ => True
  | _, _ => False
  end.


(** Why a run may find [cancelled] set: it was set from the start, or
    the world runs the cleanup at some await. *)
Definition cancelSource (w : World) (c : bool) : Prop :=
  c = true \/ exists k, cleanup (w k) = true.

(** In the world [w] the body [p] neither throws nor stays suspended,
    and it finds [cancelled] set only for a reason. *)
Definition proceeds {A : Type} (w : World) (p : Async A) : Prop :=
  forall n c,
    match snd (run p w n c) with
    | Finished _ _ c' => c' = true -> cancelSource w c
    | Returned => cancelSource w c
    | Threw => False
    | Suspended => False
    end.

(* ================================================================== *)
(** ** More of the code: the rest of the modules above and their callers

    - what [VerticalCalculation] renders from the sequencer state;
    - [mathGenerator.ts]: [validateAnswer], [calculatePercentage],
      [formatTime];
    - [stores/quizStore.ts] (module [QuizStore]) and the handlers of
      [pages/QuizPage] that drive it (module [QuizPage]);
    - [speech.ts]: [isEnabled], [setEnabled], [stop];
    - [stores/settingsStore.ts] (module [SettingsStore]);
    - [components/quiz/NumberPad] (module [NumberPad]). *)
(* ================================================================== *)

(** *** Fields both kinds of column record have *)

(** [column.placeIndex] *)
Definition placeIndexOf (c : Column) : Z :=
  match c with
  | AddCol c => placeIndex c
  | SubCol c => sPlaceIndex c
  end.

(** [column.placeName] *)
Definition placeNameOfColumn (c : Column) : string :=
  match c with
  | AddCol c => placeName c
  | SubCol c => sPlaceName c
  end.

(** [column.op1Digit] and [column.op2Digit] *)
Definition op1DigitOf (c : Column) : Z :=
  match c with
  | AddCol c => op1Digit c
  | SubCol c => sOp1Digit c
  end.

Definition op2DigitOf (c : Column) : Z :=
  match c with
  | AddCol c => op2Digit c
  | SubCol c => sOp2Digit c
  end.

(** The decimal digit of [n] at place [i] (ones are place 0). *)
Definition digitAt (n : Z) (i : nat) : Z := (n / 10 ^ Z.of_nat i) mod 10.

(** *** What the component renders from the sequencer state *)

(** [const currentCol = columns[currentColumn]]: no cell at a negative
    index. *)
Definition currentCol (cs : Columns) (s : SeqState) : option Column :=
  if currentColumn s <? 0 then None
  else columnAt cs (Z.to_nat (currentColumn s)).

(** The result row: [isWritten = writtenDigits.length > colIndex]. *)
Definition isWritten (s : SeqState) (colIndex : nat) : bool :=
  (colIndex <? List.length (writtenDigits s))%nat.

(** The explanation bubble is rendered when
    [currentColumn >= 0 && !isDone && currentCol]. *)
Definition showsExplanation (cs : Columns) (s : SeqState) : bool :=
  (0 <=? currentColumn s) && negb (isDone s)
  && match currentCol cs s with Some _ => true | None => false end.

(** *** Measuring a run *)

(** The run calls [speechManager.speak]. *)
Definition speaks (e : Event) : bool :=
  match e with
  | EvSuspend (Speaking _ _) => true
  | _ => false
  end.

(** A body that, in every world, neither throws nor stays suspended and
    never calls [speak]. *)
Definition timersOnly {A : Type} (p : Async A) : Prop :=
  forall w n c,
    goesOn (snd (run p w n c))
    /\ Forall (fun e => speaks e = false) (fst (run p w n c)).

(** The time a trace spends suspended, in milliseconds. *)
Fixpoint totalElapsed (tr : list Event) : Q :=
  match tr with
  | [] => 0
  | EvResume elapsed _ :: rest => elapsed + totalElapsed rest
  | _ :: rest => totalElapsed rest
  end.

(** In the world [w], never cancelled, the body [p] runs to its end and
    spends [d] milliseconds suspended. *)
Definition takes {A : Type} (w : World) (p : Async A) (d : Q) : Prop :=
  forall n, exists tr a n',
    run p w n false = (tr, Finished a n' false) /\ totalElapsed tr == d.

(** How many of the columns carry or borrow. *)
Definition carryCount (cs : Columns) : nat :=
  List.length (filter columnCarries (columnList cs)).

(** What the component shows of the state stays within the layout:
    [currentColumn] is [-1] or the index of a column, and
    [writtenDigits] holds the result digits of the columns before the
    current one, with or without the digit of the current one. *)
Definition withinLayout (cs : Columns) (s : SeqState) : Prop :=
  -1 <= currentColumn s < Z.of_nat (List.length (columnList cs))
  /\ exists k : nat,
       writtenDigits s = firstn k (columnDigits cs)
       /\ (k <= List.length (columnList cs))%nat
       /\ (Z.of_nat k = currentColumn s \/ Z.of_nat k = currentColumn s + 1).

(* ================================================================== *)
(** ** Scores ([mathGenerator.ts], [validateAnswer], [calculatePercentage]) *)
(* ================================================================== *)

(** [Math.round] on an exact rational: the nearest integer, halves up. *)
Definition Math_round (x : Q) : Z := Qfloor (x + (1 # 2)).

(** [validateAnswer] *)
Definition validateAnswer (problem : MathProblem) (userAnswer : Z) : bool :=
  answer problem =? userAnswer.

(** [calculatePercentage] *)
Definition calculatePercentage (correct total : Z) : Z :=
  if total =? 0 then 0
  else Math_round (inject_Z correct / inject_Z total * 100).

(** [formatTime], on a whole number of milliseconds; [%] is the
    remainder that takes the sign of the dividend. *)
Definition formatTime (ms : Z) : string :=
  let seconds := ms / 1000 in
  let minutes := seconds / 60 in
  let remainingSeconds := Z.rem seconds 60 in
  if 0 <? minutes
  then (JS.show minutes ++ "m " ++ JS.show remainingSeconds ++ "s")%string
  else (JS.show seconds ++ "s")%string.

(* ================================================================== *)
(** ** The quiz store ([stores/quizStore.ts]) *)
(* ================================================================== *)

Module QuizStore.

Inductive QuizMode := standard | unlimited.

Record UserAnswer := mkUserAnswer {
  problemId : Q;
  userAnswer : Z;
  isCorrect : bool;
  timeSpent : Z
}.

(** The state of the store. Times are values of [Date.now()], whole
    milliseconds; [null] is [None]. *)
Record QuizState := mkQuizState {
  level : option QuizLevel;
  mode : QuizMode;
  problems : list MathProblem;
  currentIndex : nat;
  answers : list UserAnswer;
  isComplete : bool;
  startTime : option Z;
  problemStartTime : option Z;
  totalAnswered : Z;
  correctInSession : Z
}.

Definition initialState : QuizState :=
  mkQuizState None standard [] 0 [] false None None 0 0.

(** [DEFAULT_QUESTIONS] *)
Definition DEFAULT_QUESTIONS : nat := 10.

(** [t ? now - t : 0] on a time that may be [null]: [null] and [0] are
    falsy. *)
Definition since (t : option Z) (now : Z) (otherwise : Z) : Z :=
  match t with
  | Some t0 => if t0 =? 0 then otherwise else now - t0
  | None => otherwise
  end.

Section Store.
Local Open Scope rand_scope.

(** The table [LEVEL_CONFIGS] the generator looks levels up in. *)
Variable configs : QuizLevel -> LevelConfig.

(** [startQuiz]; [now] is its [Date.now()]. Both branches [set] every
    field of the state. *)
Definition startQuiz (lvl : QuizLevel) (questionCount : nat) (md : QuizMode)
    (now : Z) : Rand QuizState :=
  match md with
  | unlimited =>
      let* ps := generateQuiz configs lvl 5 in
      ret (mkQuizState (Some lvl) md ps 0 [] false (Some now) (Some now) 0 0)
  | standard =>
      let* ps := generateQuiz configs lvl questionCount in
      ret (mkQuizState (Some lvl) md ps 0 [] false (Some now) (Some now) 0 0)
  end.

(** [submitAnswer]: the new state and the value returned. *)
Definition submitAnswer (ans : Z) (now : Z) (s : QuizState)
  : QuizState * bool :=
  if (List.length (problems s) <=? currentIndex s)%nat then (s, false)
  else
    match nth_error (problems s) (currentIndex s) with
    | None => (s, false)
    | Some currentProblem =>
        let correct := validateAnswer currentProblem ans in
        let spent := since (problemStartTime s) now 0 in
        let given := mkUserAnswer (id currentProblem) ans correct spent in
        (mkQuizState (level s) (mode s) (problems s) (currentIndex s)
           (answers s ++ [given]) (isComplete s) (startTime s)
           (problemStartTime s) (totalAnswered s + 1)
           (if correct then correctInSession s + 1 else correctInSession s),
         correct)
    end.

(** [nextProblem] *)
Definition nextProblem (now : Z) (s : QuizState) : Rand QuizState :=
  let nextIndex := S (currentIndex s) in
  match mode s with
  | unlimited =>
      match level s with
      | Some lvl =>
          if Z.of_nat (List.length (problems s)) - 2 <=? Z.of_nat nextIndex
          then
            let* newProblem := generateProblem configs lvl in
            ret (mkQuizState (level s) (mode s) (problems s ++ [newProblem])
                   nextIndex (answers s) (isComplete s) (startTime s)
                   (Some now) (totalAnswered s) (correctInSession s))
          else
            ret (mkQuizState (level s) (mode s) (problems s) nextIndex
                   (answers s) (isComplete s) (startTime s) (Some now)
                   (totalAnswered s) (correctInSession s))
      | None =>
          ret (mkQuizState (level s) (mode s) (problems s) nextIndex
                 (answers s) (isComplete s) (startTime s) (Some now)
                 (totalAnswered s) (correctInSession s))
      end
  | standard =>
      if (List.length (problems s) <=? nextIndex)%nat then
        ret (mkQuizState (level s) (mode s) (problems s) (currentIndex s)
               (answers s) true (startTime s) None (totalAnswered s)
               (correctInSession s))
      else
        ret (mkQuizState (level s) (mode s) (problems s) nextIndex
               (answers s) (isComplete s) (startTime s) (Some now)
               (totalAnswered s) (correctInSession s))
  end.

End Store.


(** [resetQuiz] *)
Definition resetQuiz (s : QuizState) : QuizState := initialState.

(** [getCurrentProblem] *)
Definition getCurrentProblem (s : QuizState) : option MathProblem :=
  if isComplete s || (List.length (problems s) <=? currentIndex s)%nat
  then None
  else nth_error (problems s) (currentIndex s).

(** [isStarted] *)
Definition isStarted (s : QuizState) : bool :=
  match level s with
  | Some _ => (0 <? List.length (problems s))%nat
  | None => false
  end.

Record DetailedResult := mkDetailedResult {
  problem : option MathProblem;        (* [problems[index]], or [undefined] *)
  givenAnswer : option Z;              (* [userAnswer], or [null] *)
  wasCorrect : bool;
  spent : Z
}.

Record QuizResults := mkQuizResults {
  totalProblems : Z;
  correctCount : Z;
  incorrectCount : Z;
  percentage : Z;
  totalTime : Z;
  averageTime : Z;
  detailedResults : list DetailedResult
}.

(** [answers.reduce((sum, a) => sum + a.timeSpent, 0)] *)
Definition sumTimeSpent (l : list UserAnswer) : Z :=
  fold_left (fun sum a => sum + timeSpent a) l 0.

(** [getResults]; [now] is its [Date.now()]. *)
Definition getResults (now : Z) (s : QuizState) : QuizResults :=
  match mode s with
  | unlimited =>
      let total := since (startTime s) now 0 in
      let average :=
        if 0 <? totalAnswered s
        then Math_round (inject_Z total / inject_Z (totalAnswered s))
        else 0 in
      let detailed :=
        map (fun ia : nat * UserAnswer =>
               mkDetailedResult (nth_error (problems s) (fst ia))
                 (Some (userAnswer (snd ia))) (isCorrect (snd ia))
                 (timeSpent (snd ia)))
            (combine (seq 0 (List.length (answers s))) (answers s)) in
      mkQuizResults (totalAnswered s) (correctInSession s)
        (totalAnswered s - correctInSession s)
        (if 0 <? totalAnswered s
         then Math_round (inject_Z (correctInSession s)
                          / inject_Z (totalAnswered s) * 100)
         else 0)
        total average detailed
  | standard =>
      let correct :=
        Z.of_nat (List.length (filter isCorrect (answers s))) in
      let incorrect :=
        Z.of_nat (List.length
                    (filter (fun a => negb (isCorrect a)) (answers s))) in
      let total := Z.of_nat (List.length (problems s)) in
      let pct :=
        if 0 <? total
        then Math_round (inject_Z correct / inject_Z total * 100)
        else 0 in
      let time := sumTimeSpent (answers s) in
      let average :=
        if (0 <? List.length (answers s))%nat
        then Math_round (inject_Z time
                         / inject_Z (Z.of_nat (List.length (answers s))))
        else 0 in
      let detailed :=
        map (fun ip : nat * MathProblem =>
               match nth_error (answers s) (fst ip) with
               | Some a =>
                   mkDetailedResult (Some (snd ip)) (Some (userAnswer a))
                     (isCorrect a) (timeSpent a)
               | None => mkDetailedResult (Some (snd ip)) None false 0
               end)
            (combine (seq 0 (List.length (problems s))) (problems s)) in
      mkQuizResults total correct incorrect pct
        (since (startTime s) now time) average detailed
  end.

(** What a session does with the store once a quiz is started. *)
Inductive Move :=
| Submit (ans : Z) (now : Z)
| Next (now : Z).

Definition move (configs : QuizLevel -> LevelConfig) (m : Move)
    (s : QuizState) : Rand QuizState :=
  match m with
  | Submit ans now => ret (fst (submitAnswer ans now s))
  | Next now => nextProblem configs now s
  end.

Fixpoint play (configs : QuizLevel -> LevelConfig) (ms : list Move)
    (s : QuizState) : Rand QuizState :=
  match ms with
  | [] => ret s
  | m :: rest => andThen (move configs m s) (play configs rest)
  end.

(** How many of the moves are [nextProblem]. *)
Definition nexts (ms : list Move) : nat :=
  List.length (filter (fun m => match m with Next _ => true | _ => false end)
                      ms).

(** The counters of the store agree with the recorded answers. *)
Definition tallied (s : QuizState) : Prop :=
  totalAnswered s = Z.of_nat (List.length (answers s))
  /\ correctInSession s
     = Z.of_nat (List.length (filter isCorrect (answers s))).

End QuizStore.

(** No problem repeats one of the three before it. *)
Definition spaced (l : list MathProblem) : Prop :=
  forall i j a b, (i < j <= i + 3)%nat ->
    nth_error l i = Some a -> nth_error l j = Some b ->
    isDuplicateProblem a b = false.

(* ================================================================== *)
(** ** The quiz page ([pages/QuizPage]): handlers and flow *)
(* ================================================================== *)

Module QuizPage.
Import QuizStore.

(** [QuizFlowState] *)
Inductive QuizFlowState :=
| answering | showing_solution | celebrating | transitioning.

(** The store, the local state the handlers touch, and the number of
    300 ms timers [handleCelebrationComplete] has set that have not
    fired yet. *)
Record Page := mkPage {
  store : QuizState;
  flowState : QuizFlowState;
  lastAnswerCorrect : bool;
  pendingNext : nat
}.

(** [handleSubmit], with the number [parseInt] reads from a non-empty
    input. *)
Definition handleSubmit (ans now : Z) (p : Page) : Page :=
  match getCurrentProblem (store p), flowState p with
  | Some _, answering =>
      let r := submitAnswer ans now (store p) in
      mkPage (fst r) showing_solution (snd r) (pendingNext p)
  | _, _ => p
  end.












End QuizPage.

(* ================================================================== *)
(** ** The rest of the speech manager ([speech.ts]) *)
(* ================================================================== *)

(** The calls the manager makes on [window.speechSynthesis]. *)
Inductive SynthCall :=
| synthCancel
| synthSpeak (text : string) (rate : Q).

(** [isEnabled] *)
Definition isEnabled (m : SpeechManager) : bool := enabled m && synth m.

(** [stop]: the calls it makes on the synthesizer. *)
Definition stop (m : SpeechManager) : list SynthCall :=
  if synth m then [synthCancel] else [].

(** [setEnabled]: the manager after it, and the calls it makes. *)
Definition setEnabled (e : bool) (m : SpeechManager)
  : SpeechManager * list SynthCall :=
  let m' := mkSpeechManager (synth m) e in
  (m', if negb e then stop m' else []).

(** The calls [speak] makes on the synthesizer before it returns its
    promise. *)
Definition speakCalls (m : SpeechManager) (text : string) (rate : Q)
  : list SynthCall :=
  if negb (synth m) || negb (enabled m) then []
  else [synthCancel; synthSpeak text rate].

(* ================================================================== *)
(** ** The settings store ([stores/settingsStore.ts]) *)
(* ================================================================== *)

Module SettingsStore.

Record Settings := mkSettings {
  soundEnabled : bool;
  speechEnabled : bool;
  animationSpeed : AnimationSpeed;
  questionsPerQuiz : Z;
  showHints : bool
}.

(** The store together with the two singletons its actions call:
    [soundManager.enabled], the speech manager, and the calls made on
    the synthesizer so far. *)
Record App := mkApp {
  settings : Settings;
  sound : bool;
  speech : SpeechManager;
  synthLog : list SynthCall
}.

(** [updateSetting(key, value)]: a key with a value of its type. *)
Inductive Update :=
| updSoundEnabled (v : bool)
| updSpeechEnabled (v : bool)
| updAnimationSpeed (v : AnimationSpeed)
| updQuestionsPerQuiz (v : Z)
| updShowHints (v : bool).

Inductive Action :=
| toggleSound
| toggleSpeech
| setAnimationSpeed (speed : AnimationSpeed)
| setQuestionsPerQuiz (count : Z)
| toggleHints
| resetSettings
| updateSetting (u : Update)
| rehydrated.            (* the [onRehydrateStorage] callback, with the state *)

(** [speechManager.setEnabled(v)] on the application. *)
Definition setSpeech (v : bool) (a : App) : App :=
  let r := setEnabled v (speech a) in
  mkApp (settings a) (sound a) (fst r) (synthLog a ++ snd r).

(** [soundManager.setEnabled(v)] *)
Definition setSound (v : bool) (a : App) : App :=
  mkApp (settings a) v (speech a) (synthLog a).

(** [set(...)] with the new settings. *)
Definition set (s : Settings) (a : App) : App :=
  mkApp s (sound a) (speech a) (synthLog a).

Section Actions.

(** [DEFAULT_SETTINGS] *)
Variable DEFAULT_SETTINGS : Settings.

Definition step (act : Action) (a : App) : App :=
  let s := settings a in
  match act with
  | toggleSound =>
      let newValue := negb (soundEnabled s) in
      set (mkSettings newValue (speechEnabled s) (animationSpeed s)
             (questionsPerQuiz s) (showHints s))
          (setSound newValue a)
  | toggleSpeech =>
      let newValue := negb (speechEnabled s) in
      set (mkSettings (soundEnabled s) newValue (animationSpeed s)
             (questionsPerQuiz s) (showHints s))
          (setSpeech newValue a)
  | setAnimationSpeed speed =>
      set (mkSettings (soundEnabled s) (speechEnabled s) speed
             (questionsPerQuiz s) (showHints s)) a
  | setQuestionsPerQuiz count =>
      let clampedCount := Z.min 20 (Z.max 5 count) in
      set (mkSettings (soundEnabled s) (speechEnabled s) (animationSpeed s)
             clampedCount (showHints s)) a
  | toggleHints =>
      set (mkSettings (soundEnabled s) (speechEnabled s) (animationSpeed s)
             (questionsPerQuiz s) (negb (showHints s))) a
  | resetSettings =>
      set DEFAULT_SETTINGS
          (setSpeech (speechEnabled DEFAULT_SETTINGS)
             (setSound (soundEnabled DEFAULT_SETTINGS) a))
  | updateSetting (updSoundEnabled v) =>
      set (mkSettings v (speechEnabled s) (animationSpeed s)
             (questionsPerQuiz s) (showHints s))
          (setSound v a)
  | updateSetting (updSpeechEnabled v) =>
      set (mkSettings (soundEnabled s) v (animationSpeed s)
             (questionsPerQuiz s) (showHints s))
          (setSpeech v a)
  | updateSetting (updAnimationSpeed v) =>
      set (mkSettings (soundEnabled s) (speechEnabled s) v
             (questionsPerQuiz s) (showHints s)) a
  | updateSetting (updQuestionsPerQuiz v) =>
      set (mkSettings (soundEnabled s) (speechEnabled s) (animationSpeed s)
             v (showHints s)) a
  | updateSetting (updShowHints v) =>
      set (mkSettings (soundEnabled s) (speechEnabled s) (animationSpeed s)
             (questionsPerQuiz s) v) a
  | rehydrated =>
      setSpeech (speechEnabled s) (setSound (soundEnabled s) a)
  end.

Definition run (acts : list Action) (a : App) : App :=
  fold_left (fun st act => step act st) acts a.

End Actions.

(** The managers follow the settings. *)
Definition inSync (a : App) : Prop :=
  sound a = soundEnabled (settings a)
  /\ enabled (speech a) = speechEnabled (settings a).

(** The action brings both managers in line with the settings. *)
Definition synchronises (act : Action) : bool :=
  match act with
  | resetSettings | rehydrated => true
  | _ => false
  end.

End SettingsStore.

(* ================================================================== *)
(** ** The number pad ([components/quiz/NumberPad]) *)
(* ================================================================== *)

Module NumberPad.

(** [/^[0-9]$/] on one character. *)
Definition isDigit (c : ascii) : bool :=
  (48 <=? nat_of_ascii c)%nat && (nat_of_ascii c <=? 57)%nat.

Definition digitValue (c : ascii) : Z := Z.of_nat (nat_of_ascii c) - 48.

(** [parseInt(s, 10)] on a string that starts with a digit: the number
    its leading digits spell; [None] is [NaN]. (Leading white space and
    a sign, which [parseInt] also accepts, do not occur in the pad's
    values.) *)
Fixpoint parseDigits (s : string) (acc : Z) : Z :=
  match s with
  | String c rest =>
      if isDigit c then parseDigits rest (10 * acc + digitValue c) else acc
  | EmptyString => acc
  end.

Definition parseInt (s : string) : option Z :=
  match s with
  | String c _ => if isDigit c then Some (parseDigits s 0) else None
  | EmptyString => None
  end.

(** [value.slice(0, -1)] *)
Fixpoint dropLast (s : string) : string :=
  match s with
  | EmptyString => EmptyString
  | String c EmptyString => EmptyString
  | String c rest => String c (dropLast rest)
  end.

(** What a handler does to the page: [onChange(v)] or [onSubmit()], or
    nothing (the sound it plays aside). *)
Inductive Effect :=
| onChange (v : string)
| onSubmit
| nothing.

Section Pad.

(** The props [value], [maxDigits] and [disabled]. *)
Variable value : string.
Variable maxDigits : nat.
Variable disabled : bool.

(** [handleNumberPress] *)
Definition handleNumberPress (num : Z) : Effect :=
  if disabled then nothing
  else if (maxDigits <=? String.length value)%nat then nothing
  else if String.eqb value "0" && (num =? 0) then nothing
  else if String.eqb value "0" && negb (num =? 0)
  then onChange (JS.show num)
  else onChange (value ++ JS.show num).

(** [handleClear] *)
Definition handleClear : Effect :=
  if disabled then nothing else onChange "".

(** [handleBackspace] *)
Definition handleBackspace : Effect :=
  if disabled then nothing
  else if (String.length value =? 0)%nat then nothing
  else onChange (dropLast value).

(** [handleSubmit] *)
Definition handleSubmit : Effect :=
  if disabled then nothing
  else if (String.length value =? 0)%nat then nothing
  else onSubmit.

(** [handleKeyDown], on [e.key]. *)
Definition handleKeyDown (key : string) : Effect :=
  if disabled then nothing
  else
    match key with
    | String c EmptyString =>
        if isDigit c then
          match parseInt key with
          | Some num => handleNumberPress num
          | None => nothing
          end
        else nothing
    | _ =>
        if String.eqb key "Backspace" then handleBackspace
        else if String.eqb key "Enter" then handleSubmit
        else if String.eqb key "Escape" then handleClear
        else nothing
    end.

End Pad.

(** What the user does with the pad. The number buttons carry the
    numbers of [numberLayout] and 0. *)
Inductive PadEvent :=
| NumberButton (num : Z)
| ClearButton
| BackspaceButton
| SubmitButton
| Key (key : string).

Definition padButtons : list Z := [7; 8; 9; 4; 5; 6; 1; 2; 3; 0].

Definition handle (maxDigits : nat) (disabled : bool) (e : PadEvent)
    (value : string) : Effect :=
  match e with
  | NumberButton num => handleNumberPress value maxDigits disabled num
  | ClearButton => handleClear disabled
  | BackspaceButton => handleBackspace value disabled
  | SubmitButton => handleSubmit value disabled
  | Key key => handleKeyDown value maxDigits disabled key
  end.

(** The page keeps the value ([onChange] is [setUserInput]); the
    values with which [onSubmit] was called are collected. Each event
    comes with the [disabled] prop of the moment. *)
Fixpoint typing (maxDigits : nat) (es : list (PadEvent * bool))
    (value : string) (submitted : list string) : string * list string :=
  match es with
  | [] => (value, submitted)
  | (e, disabled) :: rest =>
      match handle maxDigits disabled e value with
      | onChange v => typing maxDigits rest v submitted
      | onSubmit => typing maxDigits rest value (submitted ++ [value])
      | nothing => typing maxDigits rest value submitted
      end
  end.

(** The event is one the rendered pad can produce. *)
Definition fromPad (e : PadEvent) : Prop :=
  match e with
  | NumberButton num => In num padButtons
  | _ => True
  end.

(** A numeral as the pad writes it: digits only, and no leading zero
    except in ["0"]. *)
Fixpoint allDigits (s : string) : bool :=
  match s with
  | EmptyString => true
  | String c rest => isDigit c && allDigits rest
  end.

Definition numeral (s : string) : Prop :=
  allDigits s = true
  /\ forall rest, s = String "0"%char rest -> rest = EmptyString.

(** What is asked of a value the pad submits: a numeral of one to
    [m] digits, which [parseInt] reads as a number below [10 ^ m]. *)
Definition submittable (m : nat) (s : string) : Prop :=
  numeral s /\ (1 <= String.length s <= m)%nat
  /\ exists n, parseInt s = Some n /\ 0 <= n < 10 ^ Z.of_nat m.

(** [maxDigits] as the quiz page passes it:
    [maxNumber >= 1000 ? 4 : maxNumber >= 100 ? 3 : 2]. *)
Definition maxDigitsFor (maxNumber : Z) : nat :=
  if 1000 <=? maxNumber then 4 else if 100 <=? maxNumber then 3 else 2.

End NumberPad.

(* ================================================================== *)
(** * Theorems *)
(* ================================================================== *)

(** ** Digits *)

Section DigitFacts.

Lemma getDigits_loop_acc fuel : forall n acc,
  getDigits_loop fuel n acc = acc ++ getDigits_loop fuel n [].
Proof.
  induction fuel as [|fuel IH]; intros n acc; cbn [getDigits_loop].
  - now rewrite app_nil_r.
  - destruct (0 <? n); [|now rewrite app_nil_r].
    rewrite (IH _ (acc ++ _)), (IH _ ([] ++ _)).
    now rewrite <- app_assoc.
Qed.

(** The loop is total: more fuel than [Z.to_nat n] changes nothing. *)
Lemma getDigits_loop_fuel fuel : forall n acc,
  0 <= n -> (Z.to_nat n <= fuel)%nat ->
  getDigits_loop (S fuel) n acc = getDigits_loop fuel n acc.
Proof.
  induction fuel as [|fuel IH]; intros n acc Hn Hf.
  - assert (n = 0) by lia. subst. reflexivity.
  - cbn [getDigits_loop]. destruct (0 <? n) eqn:E; [|reflexivity].
    apply Z.ltb_lt in E.
    change (getDigits_loop (S fuel) (n / 10) (acc ++ [n mod 10])
            = getDigits_loop fuel (n / 10) (acc ++ [n mod 10])).
    apply IH.
    + apply Z.div_pos; lia.
    + assert (n / 10 < n) by (apply Z.div_lt; lia). lia.
Qed.

Lemma getDigits_loop_nth fuel : forall n i,
  0 <= n -> (Z.to_nat n <= fuel)%nat ->
  nth i (getDigits_loop fuel n []) 0 = (n / 10 ^ Z.of_nat i) mod 10.
Proof.
  induction fuel as [|fuel IH]; intros n i Hn Hf.
  - assert (n = 0) by lia. subst. cbn [getDigits_loop].
    rewrite Z.div_0_l by (apply Z.pow_nonzero; lia).
    now destruct i.
  - cbn [getDigits_loop]. destruct (0 <? n) eqn:E.
    + apply Z.ltb_lt in E. rewrite getDigits_loop_acc.
      assert (n / 10 < n) by (apply Z.div_lt; lia).
      assert (0 <= n / 10) by (apply Z.div_pos; lia).
      destruct i as [|i]; cbn [app nth].
      * now rewrite Z.pow_0_r, Z.div_1_r.
      * rewrite IH by lia.
        rewrite Nat2Z.inj_succ, Z.pow_succ_r by lia.
        rewrite Z.div_div by (try apply Z.pow_pos_nonneg; lia).
        reflexivity.
    + apply Z.ltb_ge in E. assert (n = 0) by lia. subst.
      rewrite Z.div_0_l by (apply Z.pow_nonzero; lia).
      now destruct i.
Qed.

Lemma getDigits_loop_bound fuel : forall n,
  0 <= n -> (Z.to_nat n <= fuel)%nat ->
  n < 10 ^ Z.of_nat (List.length (getDigits_loop fuel n [])).
Proof.
  induction fuel as [|fuel IH]; intros n Hn Hf.
  - assert (n = 0) by lia. subst. cbn. lia.
  - cbn [getDigits_loop]. destruct (0 <? n) eqn:E.
    + apply Z.ltb_lt in E. rewrite getDigits_loop_acc.
      assert (n / 10 < n) by (apply Z.div_lt; lia).
      assert (0 <= n / 10) by (apply Z.div_pos; lia).
      cbn [app List.length].
      rewrite Nat2Z.inj_succ, Z.pow_succ_r by lia.
      specialize (IH (n / 10) ltac:(lia) ltac:(lia)).
      pose proof (Z.div_mod n 10 ltac:(lia)).
      pose proof (Z.mod_pos_bound n 10 ltac:(lia)).
      lia.
    + apply Z.ltb_ge in E. cbn. lia.
Qed.

(** [getDigits] lists the decimal digits, ones first. *)
Lemma getDigits_nth n i :
  0 <= n -> nth i (getDigits n) 0 = (n / 10 ^ Z.of_nat i) mod 10.
Proof.
  intros Hn. unfold getDigits. destruct (n =? 0) eqn:E.
  - apply Z.eqb_eq in E. subst.
    rewrite Z.div_0_l by (apply Z.pow_nonzero; lia).
    destruct i as [|[|i]]; reflexivity.
  - cbv zeta. rewrite Z.abs_eq by lia.
    apply getDigits_loop_nth; lia.
Qed.

Lemma getDigits_bound n :
  0 <= n -> n < 10 ^ Z.of_nat (List.length (getDigits n)).
Proof.
  intros Hn. unfold getDigits. destruct (n =? 0) eqn:E.
  - apply Z.eqb_eq in E. subst. cbn. lia.
  - cbv zeta. rewrite Z.abs_eq by lia.
    apply getDigits_loop_bound; lia.
Qed.

Lemma getDigits_nonempty n : (1 <= List.length (getDigits n))%nat.
Proof.
  unfold getDigits. destruct (n =? 0) eqn:E; [cbn; lia|].
  apply Z.eqb_neq in E. cbv zeta.
  destruct (Z.to_nat (Z.abs n)) eqn:F; [lia|].
  cbn [getDigits_loop]. destruct (0 <? Z.abs n) eqn:G.
  - rewrite getDigits_loop_acc. cbn. lia.
  - apply Z.ltb_ge in G. lia.
Qed.

Lemma padDigits_loop_spec fuel : forall padded len,
  padDigits_loop fuel padded len
  = padded ++ repeat None (Nat.min fuel (len - List.length padded)).
Proof.
  induction fuel as [|fuel IH]; intros padded len; cbn [padDigits_loop].
  - now rewrite app_nil_r.
  - destruct (List.length padded <? len)%nat eqn:E.
    + apply Nat.ltb_lt in E. rewrite IH, length_app. cbn [List.length].
      rewrite <- app_assoc. f_equal.
      replace (Nat.min (S fuel) (len - List.length padded))
        with (S (Nat.min fuel (len - (List.length padded + 1)))) by lia.
      reflexivity.
    + apply Nat.ltb_ge in E.
      replace (len - List.length padded)%nat with 0%nat by lia.
      rewrite Nat.min_0_r. cbn [repeat]. now rewrite app_nil_r.
Qed.

Lemma padDigits_spec digits len :
  padDigits digits len
  = map Some digits ++ repeat None (len - List.length digits).
Proof.
  unfold padDigits. rewrite padDigits_loop_spec, length_map.
  now rewrite Nat.min_id.
Qed.

(** Arithmetic reads a padded cell, or a missing one, as zero. *)
Lemma padDigits_nullish digits len i :
  JS.nullish (nth_error (padDigits digits len) i) 0 = nth i digits 0.
Proof.
  rewrite padDigits_spec.
  destruct (Nat.lt_ge_cases i (List.length digits)) as [H|H].
  - rewrite nth_error_app1 by now rewrite length_map.
    rewrite nth_error_map.
    destruct (nth_error digits i) eqn:E.
    + cbn. symmetry. now apply nth_error_nth.
    + apply nth_error_None in E. lia.
  - rewrite (nth_overflow digits 0 H).
    rewrite nth_error_app2 by now rewrite length_map.
    rewrite length_map.
    destruct (nth_error (repeat None _) _) as [cell|] eqn:E; [|reflexivity].
    apply nth_error_In, repeat_spec in E. now subst.
Qed.

Lemma padded_digit n len i :
  0 <= n ->
  JS.nullish (nth_error (padDigits (getDigits n) len) i) 0
  = (n / 10 ^ Z.of_nat i) mod 10.
Proof. intros. now rewrite padDigits_nullish, getDigits_nth. Qed.

Lemma reconstruct_range ds :
  Forall (fun d => 0 <= d <= 9) ds ->
  0 <= reconstruct ds < 10 ^ Z.of_nat (List.length ds).
Proof.
  induction 1 as [|d ds Hd _ IH]; cbn [reconstruct List.length].
  - cbn. lia.
  - rewrite Nat2Z.inj_succ, Z.pow_succ_r by lia. lia.
Qed.

(** Splitting off the lowest digit of a number cut to [k+1] digits. *)
Lemma mod_pow10_succ x k :
  0 <= k ->
  x mod 10 ^ (Z.succ k) = x mod 10 + 10 * ((x / 10) mod 10 ^ k).
Proof.
  intros Hk. rewrite Z.pow_succ_r by lia.
  apply Z.rem_mul_r; [lia|]. apply Z.pow_pos_nonneg; lia.
Qed.

Lemma div_pow10_succ x i :
  x / 10 ^ Z.of_nat (S i) = (x / 10 ^ Z.of_nat i) / 10.
Proof.
  rewrite Nat2Z.inj_succ, Z.pow_succ_r by lia.
  rewrite (Z.mul_comm 10), Z.div_div;
    try reflexivity; try lia; apply Z.pow_pos_nonneg; lia.
Qed.

End DigitFacts.

(** ** The column decomposition *)

Lemma last_cons_default {A : Type} (x d : A) (l : list A) :
  List.last (x :: l) d = List.last l x.
Proof.
  revert x d. induction l as [|y l IH]; intros x d; [reflexivity|].
  change (List.last (x :: y :: l) d) with (List.last (y :: l) d).
  rewrite (IH y d). symmetry. apply (IH y x).
Qed.

Lemma linked_nth {A : Type} (inOf outOf : A -> Z) (l : list A) :
  forall start, linked inOf outOf start l ->
  (forall c, nth_error l 0 = Some c -> inOf c = start) /\
  (forall i c c', nth_error l i = Some c -> nth_error l (S i) = Some c' ->
                  inOf c' = outOf c).
Proof.
  induction l as [|x l IH]; intros start H; cbn in H.
  - split; intros; [discriminate | now destruct i].
  - destruct H as [Hx Hl]. destruct (IH _ Hl) as [IH0 IHS]. split.
    + intros c E. cbn in E. now inversion E; subst.
    + intros [|i] c c' E E'; cbn in E, E'.
      * inversion E; subst. now apply IH0.
      * eapply IHS; eauto.
Qed.

Lemma last_nth_error {A : Type} (l : list A) (d : A) :
  l <> [] -> nth_error l (List.length l - 1) = Some (List.last l d).
Proof.
  induction l as [|x l IH]; intros Hne; [congruence|].
  destruct l as [|y l]; [reflexivity|].
  rewrite last_cons_default. cbn [List.length]. 
  replace (S (S (List.length l)) - 1)%nat with (S (List.length (y :: l) - 1))
    by (cbn [List.length]; lia).
  cbn [nth_error]. rewrite (IH ltac:(congruence)).
  f_equal. destruct l; [reflexivity|]. 
  now rewrite !last_cons_default.
Qed.

Section Passes.

Variables (paddedOp1 paddedOp2 : list (option Z)) (a b : Z).
Hypothesis op1_digits : forall i,
  JS.nullish (nth_error paddedOp1 i) 0 = (a / 10 ^ Z.of_nat i) mod 10.
Hypothesis op2_digits : forall i,
  JS.nullish (nth_error paddedOp2 i) 0 = (b / 10 ^ Z.of_nat i) mod 10.

Lemma additionPass_spec todo : forall i carry,
  0 <= carry <= 1 ->
  let cols := additionPass paddedOp1 paddedOp2 todo i carry in
  List.length cols = todo
  /\ Forall additionColumnOk cols
  /\ linked carryIn carryOut carry cols
  /\ reconstruct (map resultDigit cols)
     + 10 ^ Z.of_nat todo * List.last (map carryOut cols) carry
     = (a / 10 ^ Z.of_nat i) mod 10 ^ Z.of_nat todo
       + (b / 10 ^ Z.of_nat i) mod 10 ^ Z.of_nat todo + carry.
Proof.
  induction todo as [|todo IH]; intros i carry Hc; cbv zeta.
  - cbn [additionPass List.length map reconstruct List.last linked].
    repeat split; auto.
    change (Z.of_nat 0) with 0. rewrite Z.pow_0_r, !Z.mod_1_r. lia.
  - cbn [additionPass]. rewrite op1_digits, op2_digits.
    set (A := a / 10 ^ Z.of_nat i). set (B := b / 10 ^ Z.of_nat i).
    pose proof (Z.mod_pos_bound A 10 ltac:(lia)) as HA.
    pose proof (Z.mod_pos_bound B 10 ltac:(lia)) as HB.
    set (s := A mod 10 + B mod 10 + carry).
    pose proof (Z.div_mod s 10 ltac:(lia)) as Hs.
    pose proof (Z.mod_pos_bound s 10 ltac:(lia)) as Hr.
    assert (Hq : 0 <= s / 10 <= 1) by (subst s; lia).
    destruct (IH (S i) (s / 10) Hq) as (Hlen & Hall & Hlink & Hval).
    cbn [List.length map reconstruct linked
         carryIn carryOut resultDigit op1Digit op2Digit].
    rewrite last_cons_default.
    repeat split; auto; try lia.
    + constructor; [|exact Hall]. unfold additionColumnOk;
        cbn [op1Digit op2Digit carryIn carryOut resultDigit]. lia.
    + rewrite !div_pow10_succ in Hval. fold A B in Hval.
      rewrite Nat2Z.inj_succ.
      rewrite (mod_pow10_succ A), (mod_pow10_succ B) by lia.
      rewrite Z.pow_succ_r by lia. lia.
Qed.

Lemma subtractionPass_spec todo : forall i borrow,
  0 <= borrow <= 1 ->
  let cols := subtractionPass paddedOp1 paddedOp2 todo i borrow in
  List.length cols = todo
  /\ Forall subtractionColumnOk cols
  /\ linked borrowIn borrowOut borrow cols
  /\ reconstruct (map sResultDigit cols)
     - 10 ^ Z.of_nat todo * List.last (map borrowOut cols) borrow
     = (a / 10 ^ Z.of_nat i) mod 10 ^ Z.of_nat todo
       - (b / 10 ^ Z.of_nat i) mod 10 ^ Z.of_nat todo - borrow.
Proof.
  induction todo as [|todo IH]; intros i borrow Hc; cbv zeta.
  - cbn [subtractionPass List.length map reconstruct List.last linked].
    repeat split; auto.
    change (Z.of_nat 0) with 0. rewrite Z.pow_0_r, !Z.mod_1_r. lia.
  - cbn [subtractionPass]. rewrite op1_digits, op2_digits.
    set (A := a / 10 ^ Z.of_nat i). set (B := b / 10 ^ Z.of_nat i).
    pose proof (Z.mod_pos_bound A 10 ltac:(lia)) as HA.
    pose proof (Z.mod_pos_bound B 10 ltac:(lia)) as HB.
    set (nb := A mod 10 - borrow <? B mod 10).
    assert (Hq : 0 <= (if nb then 1 else 0) <= 1) by (destruct nb; lia).
    destruct (IH (S i) _ Hq) as (Hlen & Hall & Hlink & Hval).
    cbn [List.length map reconstruct linked borrowIn sResultDigit].
    rewrite last_cons_default.
    repeat split; auto; try lia.
    + constructor; [|exact Hall]. unfold subtractionColumnOk;
        cbn [sOp1Digit sOp2Digit borrowIn needsBorrow sResultDigit].
      fold nb. destruct nb eqn:E; subst nb;
        [apply Z.ltb_lt in E | apply Z.ltb_ge in E];
        repeat split; intros; try lia; try discriminate.
    + rewrite !div_pow10_succ in Hval. fold A B in Hval.
      rewrite Nat2Z.inj_succ.
      rewrite (mod_pow10_succ A), (mod_pow10_succ B) by lia.
      rewrite Z.pow_succ_r by lia.
      unfold borrowOut at 2. cbn [needsBorrow]. fold nb.
      destruct nb; lia.
Qed.

End Passes.

(** The two scenarios of the specification: 7 + 5 widens to two columns
    and writes 2 then 1; 12 - 5 borrows in the ones and writes 7 then 0. *)
Example decompose_7_plus_5 :
  map (fun c => (op1Digit c, op2Digit c, carryIn c, sum c, resultDigit c,
                 carryOut c))
      (additionColumns (decompose problem_7_plus_5))
  = [(7, 5, 0, 12, 2, 1); (0, 0, 1, 1, 1, 0)].
Proof. reflexivity. Qed.

Example decompose_12_minus_5 :
  map (fun c => (sOp1Digit c, sOp2Digit c, borrowIn c, needsBorrow c,
                 borrowedValue c, sResultDigit c))
      (subtractionColumns (decompose problem_12_minus_5))
  = [(2, 5, 0, true, 12, 7); (1, 0, 1, false, 0, 0)].
Proof. reflexivity. Qed.

Lemma last_in_range (l : list Z) (d lo hi : Z) :
  Forall (fun x => lo <= x <= hi) l -> lo <= d <= hi ->
  lo <= List.last l d <= hi.
Proof.
  intros H; revert d. induction H as [|x l Hx _ IH]; intros d Hd; [exact Hd|].
  rewrite last_cons_default. now apply IH.
Qed.

Lemma last_of_map {A : Type} (f : A -> Z) (l : list A) (d : Z) (c : A) :
  nth_error l (List.length l - 1) = Some c ->
  List.last (map f l) d = f c.
Proof.
  intros E.
  assert (Hne : map f l <> []) by (destruct l; [destruct (0 - 1)%nat|]; discriminate).
  pose proof (last_nth_error (map f l) d Hne) as H.
  rewrite length_map, nth_error_map, E in H. cbn in H. congruence.
Qed.

Lemma pow10_le (m n : nat) : (m <= n)%nat -> 10 ^ Z.of_nat m <= 10 ^ Z.of_nat n.
Proof. intros. apply Z.pow_le_mono_r; lia. Qed.

(** C1: for an addition problem with non-negative operands and
    [answer = operand1 + operand2], the addition pass yields one column
    per place; every column satisfies
    [op1Digit + op2Digit + carryIn = 10 * carryOut + resultDigit] with
    [resultDigit] in [0..9]; the carries chain from 0; the last column
    carries out 0; and the result digits read low-to-high are
    [operand1 + operand2]. *)
Theorem addition_pass_correct (p : MathProblem) :
  operation p = addition ->
  0 <= operand1 p -> 0 <= operand2 p ->
  answer p = operand1 p + operand2 p ->
  exists cols,
    columns (decompose p) = AdditionColumns cols
    /\ List.length cols = maxDigits (decompose p)
    /\ (forall c, In c cols ->
          op1Digit c + op2Digit c + carryIn c
            = 10 * carryOut c + resultDigit c
          /\ 0 <= resultDigit c <= 9)
    /\ (forall c, nth_error cols 0 = Some c -> carryIn c = 0)
    /\ (forall i c c',
          nth_error cols i = Some c -> nth_error cols (S i) = Some c' ->
          carryIn c' = carryOut c)
    /\ (exists c, nth_error cols (List.length cols - 1) = Some c
                  /\ carryOut c = 0)
    /\ reconstruct (map resultDigit cols) = operand1 p + operand2 p.
Proof.
  intros Hop H1 H2 Hans. unfold decompose. rewrite Hop.
  cbn [columns maxDigits].
  set (w := Nat.max (Nat.max (List.length (getDigits (operand1 p)))
                             (List.length (getDigits (operand2 p))))
                    (List.length (getDigits (answer p)))).
  set (cols := additionPass _ _ w 0 0).
  destruct (additionPass_spec
              (padDigits (getDigits (operand1 p)) w)
              (padDigits (getDigits (operand2 p)) w)
              (operand1 p) (operand2 p)
              (fun i => padded_digit _ w i H1)
              (fun i => padded_digit _ w i H2) w 0%nat 0 ltac:(lia))
    as (Hlen & Hall & Hlink & Hval).
  fold cols in Hlen, Hall, Hlink, Hval.
  change (Z.of_nat 0) with 0 in Hval. rewrite Z.pow_0_r, !Z.div_1_r in Hval.
  (* all three numbers fit in [w] digits *)
  pose proof (getDigits_bound _ H1) as B1.
  pose proof (getDigits_bound _ H2) as B2.
  pose proof (getDigits_bound (answer p) ltac:(lia)) as B3.
  pose proof (pow10_le (List.length (getDigits (operand1 p))) w ltac:(lia)).
  pose proof (pow10_le (List.length (getDigits (operand2 p))) w ltac:(lia)).
  pose proof (pow10_le (List.length (getDigits (answer p))) w ltac:(lia)).
  rewrite !Z.mod_small in Hval by lia.
  (* the digits written are a [w]-digit number, the last carry a bit *)
  assert (Hdig : Forall (fun d => 0 <= d <= 9) (map resultDigit cols)).
  { apply Forall_map. eapply Forall_impl; [|exact Hall].
    intros c (_ & R & _). exact R. }
  pose proof (reconstruct_range _ Hdig) as HV.
  rewrite length_map, Hlen in HV.
  assert (Hbit : Forall (fun x => 0 <= x <= 1) (map carryOut cols)).
  { apply Forall_map. eapply Forall_impl; [|exact Hall].
    intros c (_ & _ & R). exact R. }
  pose proof (last_in_range _ 0 0 1 Hbit ltac:(lia)) as HL.
  assert (Hlast : List.last (map carryOut cols) 0 = 0) by nia.
  assert (Hw : (1 <= w)%nat)
    by (pose proof (getDigits_nonempty (operand1 p)); lia).
  destruct (nth_error cols (List.length cols - 1)) as [c|] eqn:E;
    [|apply nth_error_None in E; lia].
  destruct (linked_nth _ _ _ _ Hlink) as [L0 LS].
  exists cols.
  split; [reflexivity|]. split; [exact Hlen|]. split.
  { intros c0 Hin. rewrite Forall_forall in Hall.
    destruct (Hall c0 Hin) as (R1 & R2 & _). now split. }
  split; [exact L0|]. split; [exact LS|]. split.
  { exists c. split; [exact E|].
    rewrite <- (last_of_map carryOut cols 0 c E). exact Hlast. }
  rewrite Hlast in Hval. lia.
Qed.

(** C2: for a subtraction problem with [operand1 >= operand2 >= 0] and
    [answer = operand1 - operand2], every column of the subtraction pass
    has [needsBorrow] exactly when [op1Digit - borrowIn < op2Digit], its
    [resultDigit] is
    [(needsBorrow ? op1Digit - borrowIn + 10 : op1Digit - borrowIn) - op2Digit]
    and lies in [0..9]; the borrows chain from 0 and the last column
    borrows nothing; and the result digits read low-to-high are
    [operand1 - operand2]. *)
Theorem subtraction_pass_correct (p : MathProblem) :
  operation p = subtraction ->
  0 <= operand2 p -> operand2 p <= operand1 p ->
  answer p = operand1 p - operand2 p ->
  exists cols,
    columns (decompose p) = SubtractionColumns cols
    /\ List.length cols = maxDigits (decompose p)
    /\ (forall c, In c cols ->
          (needsBorrow c = true <-> sOp1Digit c - borrowIn c < sOp2Digit c)
          /\ sResultDigit c
             = (if needsBorrow c then sOp1Digit c - borrowIn c + 10
                else sOp1Digit c - borrowIn c) - sOp2Digit c
          /\ 0 <= sResultDigit c <= 9)
    /\ (forall c, nth_error cols 0 = Some c -> borrowIn c = 0)
    /\ (forall i c c',
          nth_error cols i = Some c -> nth_error cols (S i) = Some c' ->
          borrowIn c' = borrowOut c)
    /\ (exists c, nth_error cols (List.length cols - 1) = Some c
                  /\ needsBorrow c = false /\ borrowOut c = 0)
    /\ reconstruct (map sResultDigit cols) = operand1 p - operand2 p.
Proof.
  intros Hop H2 H12 Hans. assert (H1 : 0 <= operand1 p) by lia.
  unfold decompose. rewrite Hop. cbn [columns maxDigits].
  set (w := Nat.max (Nat.max (List.length (getDigits (operand1 p)))
                             (List.length (getDigits (operand2 p))))
                    (List.length (getDigits (answer p)))).
  set (cols := subtractionPass _ _ w 0 0).
  destruct (subtractionPass_spec
              (padDigits (getDigits (operand1 p)) w)
              (padDigits (getDigits (operand2 p)) w)
              (operand1 p) (operand2 p)
              (fun i => padded_digit _ w i H1)
              (fun i => padded_digit _ w i H2) w 0%nat 0 ltac:(lia))
    as (Hlen & Hall & Hlink & Hval).
  fold cols in Hlen, Hall, Hlink, Hval.
  change (Z.of_nat 0) with 0 in Hval. rewrite Z.pow_0_r, !Z.div_1_r in Hval.
  pose proof (getDigits_bound _ H1) as B1.
  pose proof (getDigits_bound _ H2) as B2.
  pose proof (pow10_le (List.length (getDigits (operand1 p))) w ltac:(lia)).
  pose proof (pow10_le (List.length (getDigits (operand2 p))) w ltac:(lia)).
  rewrite !Z.mod_small in Hval by lia.
  assert (Hdig : Forall (fun d => 0 <= d <= 9) (map sResultDigit cols)).
  { apply Forall_map. eapply Forall_impl; [|exact Hall].
    intros c (_ & _ & R). exact R. }
  pose proof (reconstruct_range _ Hdig) as HV.
  rewrite length_map, Hlen in HV.
  assert (Hbit : Forall (fun x => 0 <= x <= 1) (map borrowOut cols)).
  { apply Forall_map, Forall_forall. intros c _. unfold borrowOut.
    destruct (needsBorrow c); lia. }
  pose proof (last_in_range _ 0 0 1 Hbit ltac:(lia)) as HL.
  assert (Hlast : List.last (map borrowOut cols) 0 = 0) by nia.
  assert (Hw : (1 <= w)%nat)
    by (pose proof (getDigits_nonempty (operand1 p)); lia).
  destruct (nth_error cols (List.length cols - 1)) as [c|] eqn:E;
    [|apply nth_error_None in E; lia].
  destruct (linked_nth _ _ _ _ Hlink) as [L0 LS].
  exists cols.
  split; [reflexivity|]. split; [exact Hlen|]. split.
  { intros c0 Hin. rewrite Forall_forall in Hall. exact (Hall c0 Hin). }
  split; [exact L0|]. split; [exact LS|]. split.
  { exists c. split; [exact E|].
    rewrite (last_of_map borrowOut cols 0 c E) in Hlast.
    split; [|exact Hlast].
    unfold borrowOut in Hlast. destruct (needsBorrow c); [lia|reflexivity]. }
  rewrite Hlast in Hval. lia.
Qed.


Lemma addition_pass_correct_witness :
  (operation problem_7_plus_5 = addition
   /\ 0 <= operand1 problem_7_plus_5 /\ 0 <= operand2 problem_7_plus_5
   /\ answer problem_7_plus_5
      = operand1 problem_7_plus_5 + operand2 problem_7_plus_5)
  /\ exists cols,
       columns (decompose problem_7_plus_5) = AdditionColumns cols
       /\ reconstruct (map resultDigit cols) = 12.
Proof.
  split; [repeat split; vm_compute; congruence|].
  destruct (addition_pass_correct problem_7_plus_5 eq_refl
              ltac:(vm_compute; congruence) ltac:(vm_compute; congruence)
              eq_refl)
    as (cols & Hc & _ & _ & _ & _ & _ & Hr).
  exists cols. split; [exact Hc | exact Hr].
Defined.

Lemma subtraction_pass_correct_witness :
  (operation problem_12_minus_5 = subtraction
   /\ 0 <= operand2 problem_12_minus_5
   /\ operand2 problem_12_minus_5 <= operand1 problem_12_minus_5
   /\ answer problem_12_minus_5
      = operand1 problem_12_minus_5 - operand2 problem_12_minus_5)
  /\ exists cols,
       columns (decompose problem_12_minus_5) = SubtractionColumns cols
       /\ reconstruct (map sResultDigit cols) = 7.
Proof.
  split; [repeat split; vm_compute; congruence|].
  destruct (subtraction_pass_correct problem_12_minus_5 eq_refl
              ltac:(vm_compute; congruence) ltac:(vm_compute; congruence)
              eq_refl)
    as (cols & Hc & _ & _ & _ & _ & _ & Hr).
  exists cols. split; [exact Hc | exact Hr].
Defined.

(** ** Narration texts *)

(** C6: the write-phase text of an addition column is
    "Write {resultDigit} in the {placeName} place." exactly when its
    [carryOut] is 0, and is empty (falsy, so that no speech is started)
    when [carryOut > 0]; the write-phase text of a subtraction column is
    always that non-empty sentence, whatever [needsBorrow] is. *)
Theorem write_text_rule :
  (forall c : ColumnCalc,
     let text := getAdditionSpeechText "write" (placeName c) (op1Digit c)
                   (op2Digit c) (carryIn c) (sum c) (resultDigit c)
                   (carryOut c) in
     (text = ("Write " ++ JS.show (resultDigit c) ++ " in the "
                ++ placeName c ++ " place.")%string
      <-> carryOut c = 0)
     /\ (0 < carryOut c -> text = ""%string /\ JS.truthy text = false))
  /\
  (forall c : SubtractionColumnCalc,
     let text := getSubtractionSpeechText "write" (sPlaceName c)
                   (sOp1Digit c) (sOp2Digit c) (borrowIn c) (needsBorrow c)
                   (borrowedValue c) (sResultDigit c) in
     text = ("Write " ++ JS.show (sResultDigit c) ++ " in the "
               ++ sPlaceName c ++ " place.")%string
     /\ text <> ""%string /\ JS.truthy text = true).
Proof.
  split; intros c text; subst text.
  - unfold getAdditionSpeechText. cbn [String.eqb Ascii.eqb Bool.eqb].
    cbn match. destruct (carryOut c =? 0) eqn:E.
    + apply Z.eqb_eq in E. split; [tauto | lia].
    + apply Z.eqb_neq in E. split; [|now intros _].
      split; [discriminate | contradiction].
  - unfold getSubtractionSpeechText. cbn [String.eqb Ascii.eqb Bool.eqb].
    cbn match. repeat split. discriminate.
Qed.


Lemma write_text_rule_witness :
  0 < carryOut column_7_plus_5_ones
  /\ getAdditionSpeechText "write" "ones" 7 5 0 12 2 1 = ""%string.
Proof.
  split; [reflexivity|].
  exact (proj1 (proj2 (proj1 write_text_rule column_7_plus_5_ones)
                      eq_refl)).
Defined.

(** ** The problem generator *)

Lemma floor_scaled_range (r : Q) (k : Z) :
  (0 <= r)%Q -> (r < 1)%Q -> 0 < k ->
  0 <= Qfloor (r * inject_Z k) < k.
Proof.
  intros H0 H1 Hk.
  assert (Hk' : (0 < inject_Z k)%Q) by (change 0%Q with (inject_Z 0); now rewrite <- Zlt_Qlt).
  split.
  - rewrite <- (Qfloor_Z 0). apply Qfloor_resp_le.
    change (inject_Z 0) with 0%Q. apply Qmult_le_0_compat; [exact H0|].
    now apply Qlt_le_weak.
  - rewrite Zlt_Qlt.
    eapply Qle_lt_trans; [apply Qfloor_le|].
    rewrite <- (Qmult_1_l (inject_Z k)) at 2.
    now apply Qmult_lt_compat_r.
Qed.

Lemma andThen_run {A B : Type} (m : Rand A) (f : A -> Rand B) src cur :
  andThen m f src cur = f (fst (m src cur)) src (snd (m src cur)).
Proof. unfold andThen. now destruct (m src cur). Qed.

Section GeneratorFacts.

Variable configs : QuizLevel -> LevelConfig.
Variable src : RandomSource.
Hypothesis src_unit : forall i, (0 <= src i)%Q /\ (src i < 1)%Q.

Lemma getRandomInt_range (lo hi : Z) (cur : nat) :
  lo <= hi -> lo <= fst (getRandomInt lo hi src cur) <= hi.
Proof.
  intros H. unfold getRandomInt, andThen, random, ret. cbn [fst].
  destruct (src_unit cur) as [A B].
  pose proof (floor_scaled_range (src cur) (hi - lo + 1) A B ltac:(lia)).
  lia.
Qed.

Lemma generateAdditionProblem_valid (maxN : Z) (cur : nat) :
  0 <= maxN ->
  validProblem maxN (fst (generateAdditionProblem maxN src cur)).
Proof.
  intros H. unfold generateAdditionProblem, andThen.
  destruct (getRandomInt 0 maxN src cur) as [o1 c1] eqn:E1.
  pose proof (getRandomInt_range 0 maxN cur H) as R1.
  rewrite E1 in R1. cbn [fst] in R1.
  destruct (getRandomInt 0 (maxN - o1) src c1) as [o2 c2] eqn:E2.
  pose proof (getRandomInt_range 0 (maxN - o1) c1 ltac:(lia)) as R2.
  rewrite E2 in R2. cbn [fst] in R2.
  unfold generateId, random, ret. cbn [fst].
  unfold validProblem. cbn [operand1 operand2 operation answer]. lia.
Qed.

Lemma generateSubtractionProblem_valid (maxN : Z) (cur : nat) :
  0 <= maxN ->
  validProblem maxN (fst (generateSubtractionProblem maxN src cur)).
Proof.
  intros H. unfold generateSubtractionProblem, andThen.
  destruct (getRandomInt 0 maxN src cur) as [o1 c1] eqn:E1.
  pose proof (getRandomInt_range 0 maxN cur H) as R1.
  rewrite E1 in R1. cbn [fst] in R1.
  destruct (getRandomInt 0 o1 src c1) as [o2 c2] eqn:E2.
  pose proof (getRandomInt_range 0 o1 c1 ltac:(lia)) as R2.
  rewrite E2 in R2. cbn [fst] in R2.
  unfold generateId, random, ret. cbn [fst].
  unfold validProblem. cbn [operand1 operand2 operation answer]. lia.
Qed.

Lemma generateProblem_valid (level : QuizLevel) (cur : nat) :
  0 <= maxNumber (configs level) ->
  validProblem (maxNumber (configs level))
               (fst (generateProblem configs level src cur)).
Proof.
  intros H. unfold generateProblem, andThen.
  destruct (getRandomOperation _ src cur) as [[[|]|] c1].
  - now apply generateAdditionProblem_valid.
  - now apply generateSubtractionProblem_valid.
  - now apply generateSubtractionProblem_valid.
Qed.

Lemma uniqueLoop_spec (level : QuizLevel) (count : nat) (left : nat) :
  0 <= maxNumber (configs level) ->
  forall problems cur,
  Forall (validProblem (maxNumber (configs level))) problems ->
  (List.length problems <= count)%nat ->
  let out := fst (uniqueLoop configs level count left problems src cur) in
  Forall (validProblem (maxNumber (configs level))) out
  /\ (List.length out <= count)%nat.
Proof.
  intros H. induction left as [|left IH]; intros problems cur Hv Hl;
    cbv zeta; cbn [uniqueLoop].
  - now split.
  - destruct (List.length problems <? count)%nat eqn:E; [|now split].
    apply Nat.ltb_lt in E. rewrite andThen_run.
    pose proof (generateProblem_valid level cur H) as Hp.
    destruct (generateProblem configs level src cur) as [np c1].
    cbn [fst snd] in Hp |- *.
    match goal with
    | |- context [if ?k then problems ++ [np] else problems] =>
        destruct k
    end.
    + apply IH.
      * apply Forall_app; split; [exact Hv | now constructor].
      * rewrite length_app. cbn [List.length]. lia.
    + apply IH; [exact Hv | lia].
Qed.

Lemma fillLoop_spec (level : QuizLevel) (missing : nat) :
  0 <= maxNumber (configs level) ->
  forall problems cur,
  Forall (validProblem (maxNumber (configs level))) problems ->
  let out := fst (fillLoop configs level missing problems src cur) in
  Forall (validProblem (maxNumber (configs level))) out
  /\ List.length out = (List.length problems + missing)%nat.
Proof.
  intros H. induction missing as [|missing IH]; intros problems cur Hv;
    cbv zeta; cbn [fillLoop].
  - split; [exact Hv | cbn; lia].
  - rewrite andThen_run.
    pose proof (generateProblem_valid level cur H) as Hp.
    destruct (generateProblem configs level src cur) as [np c1].
    cbn [fst snd] in Hp |- *.
    destruct (IH (problems ++ [np]) c1) as [A B].
    + apply Forall_app; split; [exact Hv | now constructor].
    + split; [exact A|]. rewrite B, length_app. cbn [List.length]. lia.
Qed.

End GeneratorFacts.

(** C9: for a level whose configuration has [maxNumber >= 0], any count
    [N] and any random source with draws in [0,1), [generateQuiz]
    returns exactly [N] problems; every operand lies in [0..maxNumber];
    an addition has [answer = operand1 + operand2 <= maxNumber]; a
    subtraction has [operand1 >= operand2] and
    [answer = operand1 - operand2 >= 0]; with [maxNumber = 0] every
    problem is [0 op 0] with answer 0. *)
Theorem generateQuiz_valid (configs : QuizLevel -> LevelConfig)
    (level : QuizLevel) (N : nat) (src : RandomSource) (cur : nat) :
  0 <= maxNumber (configs level) ->
  (forall i, (0 <= src i)%Q /\ (src i < 1)%Q) ->
  let quiz := fst (generateQuiz configs level N src cur) in
  List.length quiz = N
  /\ (forall p, In p quiz ->
        0 <= operand1 p <= maxNumber (configs level)
        /\ 0 <= operand2 p <= maxNumber (configs level)
        /\ match operation p with
           | addition =>
               answer p = operand1 p + operand2 p
               /\ answer p <= maxNumber (configs level)
           | subtraction =>
               operand2 p <= operand1 p
               /\ answer p = operand1 p - operand2 p /\ 0 <= answer p
           end)
  /\ (maxNumber (configs level) = 0 ->
      forall p, In p quiz ->
        operand1 p = 0 /\ operand2 p = 0 /\ answer p = 0).
Proof.
  intros Hmax Hsrc quiz. subst quiz. unfold generateQuiz.
  rewrite andThen_run.
  pose proof (uniqueLoop_spec configs src Hsrc level N (N * 10) Hmax [] cur
                (Forall_nil _) ltac:(cbn; lia)) as U.
  cbv zeta in U.
  destruct (uniqueLoop configs level N (N * 10) [] src cur) as [ps c1].
  cbn [fst snd] in U |- *. destruct U as [Uv Ul].
  pose proof (fillLoop_spec configs src Hsrc level (N - List.length ps) Hmax
                ps c1 Uv) as F.
  cbv zeta in F. destruct F as [Fv Fl].
  rewrite Forall_forall in Fv.
  split; [lia|]. split.
  - intros p Hin. exact (Fv p Hin).
  - intros Hz p Hin. destruct (Fv p Hin) as (A & B & C).
    rewrite Hz in A, B. destruct (operation p); lia.
Qed.

Lemma generateQuiz_valid_witness :
  (0 <= maxNumber (LEVEL_CONFIGS mixed_20)
   /\ forall i, (0 <= constantSource 0.99 i)%Q
                /\ (constantSource 0.99 i < 1)%Q)
  /\ List.length
       (fst (generateQuiz LEVEL_CONFIGS mixed_20 3 (constantSource 0.99)
                          0%nat))
     = 3%nat.
Proof.
  assert (H : forall i, (0 <= constantSource 0.99 i)%Q
                        /\ (constantSource 0.99 i < 1)%Q)
    by (intros i; split; reflexivity || discriminate).
  split; [split; [vm_compute; congruence | exact H]|].
  exact (proj1 (generateQuiz_valid LEVEL_CONFIGS mixed_20 3
                  (constantSource 0.99) 0%nat
                  ltac:(vm_compute; congruence) H)).
Defined.

(** ** The sequencer: running async bodies *)

Lemma run_bind {A B : Type} (p : Async A) (f : A -> Async B) (w : World) :
  forall n c,
  run (bind p f) w n c
  = match run p w n c with
    | (tr, Finished a n' c') =>
        let (tr2, o) := run (f a) w n' c' in (tr ++ tr2, o)
    | (tr, Returned) => (tr, Returned)
    | (tr, Threw) => (tr, Threw)
    | (tr, Suspended) => (tr, Suspended)
    end.
Proof.
  induction p as [a| | |act k IH|k IH|aw k IH]; intros n c; cbn [bind run].
  - now destruct (run (f a) w n c).
  - reflexivity.
  - reflexivity.
  - rewrite IH. destruct (run k w n c) as [tr [a n' c'| | |]]; try reflexivity.
    now destruct (run (f a) w n' c').
  - apply IH.
  - destruct (settle aw (w n)) as [elapsed v|]; [|reflexivity].
    rewrite IH.
    destruct (run (k v) w (S n) (c || cleanup (w n)))
      as [tr [a n' c'| | |]]; try reflexivity.
    destruct (run (f a) w n' c'). now rewrite <- app_assoc.
Qed.

Lemma Holds_app P F m tr1 tr2 :
  Holds P F m (tr1 ++ tr2) <-> Holds P (fun m' => Holds P F m' tr2) m tr1.
Proof.
  revert m. induction tr1 as [|e tr1 IH]; intros m; cbn [app Holds].
  - reflexivity.
  - now rewrite IH.
Qed.

Lemma Holds_weaken P (F G : Mon -> Prop) tr :
  forall m, (forall m', F m' -> G m') -> Holds P F m tr -> Holds P G m tr.
Proof.
  induction tr as [|e tr IH]; intros m FG; cbn [Holds].
  - apply FG.
  - intros [H1 H2]. split; [exact H1 | now apply IH].
Qed.

(** Every event of a trace satisfies [P] in the monitor state reached
    by the events before it. *)
Lemma Holds_at P F m pre e post :
  Holds P F m (pre ++ e :: post) -> P (monAfter pre m) e.
Proof.
  revert m. induction pre as [|x pre IH]; intros m; cbn [app Holds monAfter fold_left].
  - now intros [H _].
  - intros [_ H]. now apply IH.
Qed.

Lemma monAfter_app tr1 tr2 m :
  monAfter (tr1 ++ tr2) m = monAfter tr2 (monAfter tr1 m).
Proof. apply fold_left_app. Qed.

Lemma mst_monAfter tr : forall m,
  mst (monAfter tr m) = stateAfter tr (mst m).
Proof.
  induction tr as [|e tr IH]; intros m; [reflexivity|].
  exact (IH (monStep m e)).
Qed.

Lemma prev_monAfter_last pre e m :
  prev (monAfter (pre ++ [e]) m) = Some e.
Proof. now rewrite monAfter_app. Qed.

Lemma stateAfter_app tr1 tr2 s :
  stateAfter (tr1 ++ tr2) s = stateAfter tr2 (stateAfter tr1 s).
Proof. apply fold_left_app. Qed.

(** *** A small logic of monitored runs *)

(** The side condition on the event that follows a write-phase entry,
    when the previous event is not one. *)
Ltac side_step :=
  match goal with
  | H : endOk ?m |- prev ?m = Some _ -> _ =>
      let X := fresh in intros X; exfalso; exact (H X)
  | |- prev (monStep _ _) = Some _ -> _ =>
      let X := fresh in intros X; cbn in X; discriminate
  end.

Section Checked.

Variable cs : Columns.

Lemma checked_pure {A : Type} (m : Mon) (a : A) (Q : A -> Mon -> Prop) :
  Q a m -> checked cs m (Pure a) Q.
Proof. intros H w n. cbn. now split. Qed.

Lemma checked_bind {A B : Type} (m : Mon) (p : Async A)
    (f : A -> Async B) (Q : B -> Mon -> Prop) :
  checked cs m p (fun a m' => checked cs m' (f a) Q) ->
  checked cs m (bind p f) Q.
Proof.
  intros H w n. specialize (H w n). rewrite run_bind.
  destruct (run p w n (cancelSeen m)) as [tr o]. cbn [fst snd] in H.
  destruct o as [a n' c'| | |]; cbn [fst snd]; try exact H.
  destruct (run (f a) w n' c') as [tr2 o2] eqn:E. cbn [fst snd].
  apply Holds_app. revert H. apply Holds_weaken.
  intros m' [Hc HQ]. subst c'. specialize (HQ w n').
  now rewrite E in HQ.
Qed.

Lemma checked_weaken {A : Type} (m : Mon) (p : Async A)
    (Q Q' : A -> Mon -> Prop) :
  (forall a m', Q a m' -> Q' a m') -> checked cs m p Q -> checked cs m p Q'.
Proof.
  intros QQ H w n. specialize (H w n). revert H. apply Holds_weaken.
  intros m'. destruct (snd (run p w n (cancelSeen m))); try tauto.
  intros [? ?]. split; auto.
Qed.

Lemma checked_perform (m : Mon) (a : Action) (Q : unit -> Mon -> Prop) :
  stepOk cs m (EvAct a) ->
  Q tt (monStep m (EvAct a)) ->
  checked cs m (perform a) Q.
Proof.
  intros H1 H2 w n. cbn.
  split; [exact H1 | split; [reflexivity | exact H2]].
Qed.

Lemma checked_ifCancelledReturn (m : Mon) (Q : unit -> Mon -> Prop) :
  endOk m ->
  (cancelSeen m = false -> Q tt m) ->
  checked cs m ifCancelledReturn Q.
Proof.
  intros H1 H2 w n. unfold ifCancelledReturn. cbn [run].
  destruct (cancelSeen m) eqn:E; cbn; auto.
Qed.

Lemma resumedFrom_trans m1 m2 m3 :
  resumedFrom m1 m2 -> resumedFrom m2 m3 -> resumedFrom m1 m3.
Proof.
  intros (A1 & B1 & C1 & _) (A2 & B2 & C2 & D2).
  repeat split; try congruence; auto.
Qed.

Lemma checked_await_timeout (m : Mon) (ms : Q) (Q : Q -> Mon -> Prop) :
  endOk m ->
  (forall v m', resumedFrom m m' -> Q v m') ->
  checked cs m (await (Timeout ms)) Q.
Proof.
  intros Hend HQ w n. unfold await. cbn [run settle].
  destruct (cleanup (w n) && negb (cancelSeen m)) eqn:E;
    cbn [app fst snd Holds].
  - apply andb_prop in E. destruct E as [E1 E2].
    apply negb_true_iff in E2.
    repeat split; try side_step.
    + assumption.
    + cbn. now rewrite E1, orb_true_r.
    + apply HQ. repeat split; cbn; eauto.
  - repeat split; try side_step.
    + cbn. destruct (cancelSeen m), (cleanup (w n)); cbn in *; congruence.
    + apply HQ. repeat split; cbn; eauto.
Qed.

Lemma checked_await_speaking (m : Mon) (text : string) (rate : Q)
    (Q : Q -> Mon -> Prop) :
  endOk m -> cancelSeen m = false -> text <> ""%string ->
  (forall v m', resumedFrom m m' -> Q v m') ->
  checked cs m (await (Speaking text rate)) Q.
Proof.
  intros Hend Hc Ht HQ w n. unfold await. cbn [run]. rewrite Hc.
  rewrite andb_true_r. cbn [orb].
  destruct (settle (Speaking text rate) (w n)) as [elapsed v|];
    destruct (cleanup (w n)) eqn:E; cbn [app fst snd Holds];
    repeat split; try side_step; try assumption; try reflexivity;
    try (apply HQ; repeat split; cbn; eauto; congruence);
    try (unfold endOk; cbn; discriminate);
    try (cbn; congruence).
Qed.

End Checked.

(** *** The decomposition seen by the sequencer *)

Lemma additionPass_length p1 p2 todo : forall i carry,
  List.length (additionPass p1 p2 todo i carry) = todo.
Proof.
  induction todo as [|todo IH]; intros i carry; cbn [additionPass List.length];
    [reflexivity | now rewrite IH].
Qed.

Lemma subtractionPass_length p1 p2 todo : forall i borrow,
  List.length (subtractionPass p1 p2 todo i borrow) = todo.
Proof.
  induction todo as [|todo IH]; intros i borrow;
    cbn [subtractionPass List.length]; [reflexivity | now rewrite IH].
Qed.

Lemma decompose_columnList (p : MathProblem) :
  List.length (columnList (columns (decompose p))) = maxDigits (decompose p)
  /\ Forall (wellTagged p) (columnList (columns (decompose p)))
  /\ (1 <= maxDigits (decompose p))%nat.
Proof.
  unfold decompose, wellTagged.
  pose proof (getDigits_nonempty (operand1 p)).
  destruct (operation p); cbn [columns maxDigits columnList];
    rewrite length_map, ?additionPass_length, ?subtractionPass_length;
    (split; [reflexivity|]); (split; [|lia]);
    apply Forall_map, Forall_forall; intros; exact I.
Qed.

Lemma wellTagged_texts p column :
  wellTagged p column -> exists t, speechTexts p column = Some t.
Proof.
  unfold wellTagged, speechTexts.
  destruct (operation p), column; intros H; try contradiction; eauto.
Qed.

Lemma wellTagged_carries p column :
  wellTagged p column -> hasCarryOrBorrow p column = columnCarries column.
Proof.
  unfold wellTagged, hasCarryOrBorrow, columnCarries.
  destruct (operation p), column; intros H; try contradiction; reflexivity.
Qed.

Lemma firstn_succ_nth {A : Type} (l : list A) (i : nat) (x : A) :
  nth_error l i = Some x -> firstn (S i) l = firstn i l ++ [x].
Proof.
  revert i. induction l as [|y l IH]; intros [|i] E; cbn in E; try discriminate.
  - now inversion E.
  - cbn [firstn app]. f_equal. now apply IH.
Qed.

(** *** The run keeps [stepOk] *)

Section RunChecked.

Variable problem : MathProblem.
Variable isCorrect : bool.
Variable animationSpeed : AnimationSpeed.
Variable onCompleteGiven : bool.
Variable speechEnabled : bool.
Variable draw : Q.

Let cs := columns (decompose problem).

Lemma checked_speakAndWait (m : Mon) (text : string) (minWait : Q)
    (Q : unit -> Mon -> Prop) :
  endOk m -> cancelSeen m = false ->
  (forall m', resumedFrom m m' -> Q tt m') ->
  checked cs m (speakAndWait animationSpeed speechEnabled text minWait) Q.
Proof.
  intros Hend Hc HQ. unfold speakAndWait.
  destruct (speechEnabled && JS.truthy text) eqn:E.
  - apply andb_prop in E. destruct E as [_ E].
    apply checked_bind, checked_await_speaking; auto.
    + intros ->. discriminate.
    + intros v m' R. apply checked_bind, checked_await_timeout.
      * destruct R as (_ & _ & _ & e & u & R). unfold endOk. now rewrite R.
      * intros v' m'' R'. apply checked_pure, HQ.
        eapply resumedFrom_trans; eauto.
  - apply checked_bind, checked_await_timeout; auto.
    intros v m' R. now apply checked_pure, HQ.
Qed.

Lemma resumed_endOk m m' : resumedFrom m m' -> endOk m'.
Proof.
  intros (_ & _ & _ & e & u & R). unfold endOk. now rewrite R.
Qed.

Lemma checked_animateColumn (baseTiming : Q) (col : nat) (m : Mon)
    (Q : unit -> Mon -> Prop) :
  betweenColumns cs col m ->
  (col < List.length (columnList cs))%nat ->
  (forall m', betweenColumns cs (S col) m' -> Q tt m') ->
  checked cs m
    (animateColumn problem animationSpeed speechEnabled cs baseTiming col)
    Q.
Proof.
  intros (Hc & Hend & Hcompl & Hdone & Hcur & Hwr & Hph) Hlt HQ.
  unfold animateColumn.
  destruct (decompose_columnList problem) as (_ & Htag & _).
  fold cs in Htag.
  destruct (nth_error (columnList cs) col) as [column|] eqn:Ecol;
    [|apply nth_error_None in Ecol; lia].
  unfold columnAt. rewrite Ecol.
  assert (Hwt : wellTagged problem column)
    by (rewrite Forall_forall in Htag; eapply Htag, nth_error_In; eauto).
  destruct (wellTagged_texts _ _ Hwt) as ([[[hl cl] cr] wr] & Et).
  rewrite Et, (wellTagged_carries _ _ Hwt).
  apply checked_bind, checked_ifCancelledReturn; [exact Hend|]. intros _.
  (* setCurrentColumn(col) *)
  apply checked_bind, checked_perform.
  { split; [side_step|]. split; [exact Hc|]. cbn [actOk].
    rewrite Nat2Z.id, Hcur. repeat split; auto; lia. }
  cbv beta.
  remember (monStep m (EvAct (setCurrentColumn (Z.of_nat col)))) as m1
    eqn:Em1.
  assert (Hs1 : mst m1 = mkSeqState (Z.of_nat col) (phase (mst m)) false
                           (firstn col (columnDigits cs)))
    by (subst m1; cbn; now rewrite Hdone, Hwr).
  assert (Hc1 : cancelSeen m1 = false) by (subst m1; exact Hc).
  assert (Hk1 : completions m1 = 0%nat) by (subst m1; exact Hcompl).
  assert (Hend1 : endOk m1) by (subst m1; unfold endOk; cbn; discriminate).
  clear Em1.
  (* Highlight phase *)
  apply checked_bind, checked_perform.
  { split; [side_step|]. split; [exact Hc1|]. cbn [actOk].
    now rewrite Hs1. }
  cbv beta. apply checked_bind, checked_speakAndWait;
    [unfold endOk; cbn; discriminate | exact Hc1 |].
  intros m2 R2. pose proof (resumed_endOk _ _ R2) as Hend2.
  destruct R2 as (Hs2 & Hk2 & _ & _). cbn in Hs2, Hk2.
  rewrite Hs1 in Hs2. rewrite Hk1 in Hk2. cbn in Hs2.
  apply checked_bind, checked_ifCancelledReturn; [exact Hend2|].
  intros Hc2.
  (* Calculate phase *)
  apply checked_bind, checked_perform.
  { split; [side_step|]. split; [exact Hc2|]. cbn [actOk].
    now rewrite Hs2. }
  cbv beta. apply checked_bind, checked_speakAndWait;
    [unfold endOk; cbn; discriminate | exact Hc2 |].
  intros m3 R3. pose proof (resumed_endOk _ _ R3) as Hend3.
  destruct R3 as (Hs3 & Hk3 & _ & _). cbn in Hs3, Hk3.
  rewrite Hs2 in Hs3. rewrite Hk2 in Hk3. cbn in Hs3.
  apply checked_bind, checked_ifCancelledReturn; [exact Hend3|].
  intros Hc3.
  (* Carry/borrow phase, then write phase *)
  apply checked_bind.
  apply (checked_weaken cs m3 _
           (fun _ m4 =>
              cancelSeen m4 = false /\ endOk m4 /\ completions m4 = 0%nat
              /\ mst m4 = mkSeqState (Z.of_nat col)
                            (if columnCarries column then carry else calc)
                            false (firstn col (columnDigits cs)))).
  2:{ destruct (columnCarries column) eqn:Ecarry.
      - apply checked_bind, checked_perform.
        { split; [side_step|]. split; [exact Hc3|]. cbn [actOk].
          rewrite Hs3. cbn [currentColumn phase].
          split; [lia|]. split; [reflexivity|].
          exists column. rewrite Nat2Z.id. now split. }
        cbv beta. apply checked_bind, checked_speakAndWait;
          [unfold endOk; cbn; discriminate | exact Hc3 |].
        intros m4 R4. pose proof (resumed_endOk _ _ R4) as Hend4.
        destruct R4 as (Hs4 & Hk4 & _ & _). cbn in Hs4, Hk4.
        rewrite Hs3 in Hs4. rewrite Hk3 in Hk4. cbn in Hs4.
        apply checked_ifCancelledReturn; [exact Hend4|]. intros Hc4.
        repeat split; auto.
      - apply checked_pure. repeat split; auto. }
  intros [] m4 (Hc4 & Hend4 & Hk4 & Hs4).
  apply checked_bind, checked_perform.
  { split; [side_step|]. split; [exact Hc4|]. cbn [actOk].
    rewrite Hs4. cbn [currentColumn phase]. split; [lia|].
    exists column. rewrite Nat2Z.id. now split. }
  cbv beta. apply checked_bind, checked_perform.
  { split; [intros _; eauto|]. split; [exact Hc4|]. cbn [actOk].
    cbn. rewrite Hs4. cbn. rewrite Nat2Z.id.
    repeat split; auto; try lia. exists column. now split. }
  cbv beta.
  remember (monStep (monStep m4 (EvAct (setPhase write)))
                    (EvAct (pushWrittenDigit (resultDigitOf column))))
    as m5 eqn:Em5.
  assert (Hs5 : mst m5 = mkSeqState (Z.of_nat col) write false
                           (firstn (S col) (columnDigits cs))).
  { subst m5. cbn. rewrite Hs4. cbn. f_equal. symmetry.
    apply firstn_succ_nth. unfold columnDigits.
    now rewrite nth_error_map, Ecol. }
  assert (Hk5 : completions m5 = 0%nat) by (subst m5; exact Hk4).
  assert (Hc5 : cancelSeen m5 = false) by (subst m5; exact Hc4).
  assert (Hend5 : endOk m5) by (subst m5; unfold endOk; cbn; discriminate).
  clear Em5.
  assert (Hfin : forall m6, resumedFrom m5 m6 ->
                   checked cs m6 ifCancelledReturn Q).
  { intros m6 R6. pose proof (resumed_endOk _ _ R6) as Hend6.
    destruct R6 as (Hs6 & Hk6 & _ & _). rewrite Hs5 in Hs6.
    rewrite Hk5 in Hk6.
    apply checked_ifCancelledReturn; [exact Hend6|]. intros Hc6.
    apply HQ. unfold betweenColumns. rewrite Hs6.
    cbn [currentColumn phase isDone writtenDigits].
    repeat split; auto. lia. }
  apply checked_bind. destruct (JS.truthy wr).
  - apply checked_speakAndWait; auto.
  - apply checked_bind, checked_await_timeout; auto.
    intros v m6 R6. apply checked_pure. auto.
Qed.

Lemma checked_animateColumns (baseTiming : Q) (todo : nat) :
  forall (col : nat) (m : Mon) (Q : unit -> Mon -> Prop),
  betweenColumns cs col m ->
  (col + todo = List.length (columnList cs))%nat ->
  (forall m', betweenColumns cs (col + todo) m' -> Q tt m') ->
  checked cs m
    (animateColumns problem animationSpeed speechEnabled cs baseTiming
                    todo col)
    Q.
Proof.
  induction todo as [|todo IH]; intros col m Q Hb Hlen HQ;
    cbn [animateColumns].
  - apply checked_pure, HQ. now rewrite Nat.add_0_r.
  - apply checked_bind, checked_animateColumn; [exact Hb | lia |].
    intros m' Hb'. apply IH; [exact Hb' | lia |].
    intros m'' Hb''. apply HQ.
    now replace (col + S todo)%nat with (S col + todo)%nat by lia.
Qed.

(** Every run of the effect, in every world, keeps [stepOk]. *)
Lemma runAnimation_checked :
  checked cs monInit
    (runAnimation problem isCorrect animationSpeed onCompleteGiven
                  speechEnabled draw)
    (fun _ m => endOk m).
Proof.
  unfold runAnimation. fold cs.
  destruct (decompose_columnList problem) as (Hlen & _ & Hpos).
  fold cs in Hlen. rewrite <- Hlen.
  (* speechManager.stop() and the initial delay *)
  apply checked_bind, checked_perform.
  { split; [intros X; discriminate|]. split; reflexivity. }
  cbv beta. apply checked_bind, checked_await_timeout.
  { unfold endOk. cbn. discriminate. }
  intros v m1 R1. pose proof (resumed_endOk _ _ R1) as Hend1.
  destruct R1 as (Hs1 & Hk1 & _ & _). cbn in Hs1, Hk1.
  apply checked_bind, checked_ifCancelledReturn; [exact Hend1|].
  intros Hc1.
  (* the columns *)
  apply checked_bind, checked_animateColumns.
  { unfold betweenColumns. rewrite Hs1. cbn. repeat split; auto.
    intros X. now elim X. }
  { reflexivity. }
  cbn [Nat.add]. intros m2 (Hc2 & Hend2 & Hk2 & Hd2 & Hcur2 & Hwr2 & Hph2).
  (* Done - speak completion *)
  apply checked_bind, checked_perform.
  { split; [side_step|]. split; [exact Hc2|]. cbn [actOk].
    repeat split; auto.
    - apply Hph2. lia.
    - rewrite Hwr2. apply firstn_all2. unfold columnDigits.
      now rewrite length_map. }
  cbv beta. apply checked_bind, checked_speakAndWait;
    [unfold endOk; cbn; discriminate | exact Hc2 |].
  intros m3 R3. pose proof (resumed_endOk _ _ R3) as Hend3.
  destruct R3 as (Hs3 & Hk3 & _ & _). cbn in Hs3, Hk3.
  rewrite Hk2 in Hk3.
  apply checked_bind, checked_ifCancelledReturn; [exact Hend3|].
  intros Hc3. destruct onCompleteGiven.
  - apply checked_perform.
    + split; [side_step|]. split; [exact Hc3|]. cbn [actOk].
      rewrite Hs3. now split.
    + unfold endOk. cbn. discriminate.
  - now apply checked_pure.
Qed.

End RunChecked.

(** In every world the trace of a run satisfies [stepOk] throughout. *)
Lemma trace_holds (problem : MathProblem) (isCorrect : bool)
    (animationSpeed : AnimationSpeed) (onCompleteGiven speechEnabled : bool)
    (draw : Q) (w : World) :
  Holds (stepOk (columns (decompose problem))) endOk monInit
    (trace (runAnimation problem isCorrect animationSpeed onCompleteGiven
                         speechEnabled draw) w).
Proof.
  pose proof (runAnimation_checked problem isCorrect animationSpeed
                onCompleteGiven speechEnabled draw w 0%nat) as H.
  unfold trace. revert H. apply Holds_weaken.
  intros m'. destruct (snd _); tauto.
Qed.

(** ** The speech manager *)

Lemma resolve_settled (v : Q) (p : PromiseState) :
  p <> Pending -> resolve v p = p.
Proof. destruct p; intros H; [contradiction | reflexivity | reflexivity]. Qed.

Lemma fire_keeps_resolved (ev : UtteranceEvent) (now v : Q) (s : Spoken) :
  promise s = Resolved v -> promise (fire ev now s) = Resolved v.
Proof.
  intros H. unfold fire. destruct (startTime s); [|exact H].
  destruct ev; cbn [promise]; now rewrite H.
Qed.

Lemma fireAll_keeps_resolved evs : forall (v : Q) (s : Spoken),
  promise s = Resolved v -> promise (fireAll evs s) = Resolved v.
Proof.
  induction evs as [|[ev t] evs IH]; intros v s H; [exact H|].
  cbn [fireAll fold_left fst snd]. apply IH. now apply fire_keeps_resolved.
Qed.

Lemma fire_not_rejected (ev : UtteranceEvent) (now : Q) (s : Spoken) :
  promise s <> Rejected -> promise (fire ev now s) <> Rejected.
Proof.
  unfold fire. destruct (startTime s); [|auto].
  destruct ev; cbn [promise]; destruct (promise s); cbn; congruence.
Qed.

Lemma fireAll_not_rejected evs : forall (s : Spoken),
  promise s <> Rejected -> promise (fireAll evs s) <> Rejected.
Proof.
  induction evs as [|[ev t] evs IH]; intros s H; [exact H|].
  cbn [fireAll fold_left fst snd]. apply IH. now apply fire_not_rejected.
Qed.

(** C10: [speak] never rejects, whatever events the browser fires. With
    no synthesizer, or with speech disabled, its promise is resolved at
    once with the estimate [(text.length / 15) * 1000 / rate]. Otherwise
    it is pending until the utterance fires [end] or [error], and the
    first such event, fired at clock [t], resolves it with the elapsed
    [t - startTime]: an error is swallowed, not thrown. *)
Theorem speak_never_rejects (m : SpeechManager) (text : string)
    (rate now : Q) :
  (forall evs, promise (fireAll evs (speak m text rate now)) <> Rejected)
  /\ (synth m = false \/ enabled m = false ->
      promise (speak m text rate now)
      = Resolved ((inject_Z (Z.of_nat (String.length text)) / 15)
                  * 1000 / rate)%Q)
  /\ (synth m = true -> enabled m = true ->
      promise (speak m text rate now) = Pending
      /\ forall ev t evs,
           promise (fireAll ((ev, t) :: evs) (speak m text rate now))
           = Resolved (t - now)%Q).
Proof.
  split; [|split].
  - intros evs. apply fireAll_not_rejected. unfold speak.
    destruct (negb (synth m) || negb (enabled m)); cbn; discriminate.
  - intros H. unfold speak.
    replace (negb (synth m) || negb (enabled m)) with true; [reflexivity|].
    destruct H as [-> | ->]; [reflexivity|]. now rewrite orb_true_r.
  - intros Hs He. unfold speak. rewrite Hs, He. cbn [negb orb promise].
    split; [reflexivity|]. intros ev t evs.
    cbn [fireAll fold_left fst snd]. apply fireAll_keeps_resolved.
    destruct ev; reflexivity.
Qed.

Lemma speak_never_rejects_witness :
  (synth (mkSpeechManager true true) = true
   /\ enabled (mkSpeechManager true true) = true)
  /\ promise (fireAll [(onerror, 1500%Q); (onend, 1600%Q)]
                (speak (mkSpeechManager true true) "Excellent work!" 1 1000))
     = Resolved (1500 - 1000)%Q.
Proof.
  split; [split; reflexivity|].
  exact (proj2 (proj2 (proj2 (speak_never_rejects
           (mkSpeechManager true true) "Excellent work!" 1 1000))
           eq_refl eq_refl) onerror 1500%Q [(onend, 1600%Q)]).
Defined.

(** ** The sequencer: what every trace satisfies *)

Lemma Holds_suffix P F pre rest :
  forall m, Holds P F m (pre ++ rest) -> Holds P F (monAfter pre m) rest.
Proof.
  induction pre as [|e pre IH]; intros m; cbn [app Holds monAfter fold_left].
  - auto.
  - intros [_ H]. now apply IH.
Qed.

Lemma Holds_prefix P F pre rest :
  forall m, Holds P F m (pre ++ rest) -> Holds P (fun _ => True) m pre.
Proof.
  induction pre as [|e pre IH]; intros m; cbn [app Holds].
  - auto.
  - intros [H1 H2]. split; [exact H1 | now apply IH].
Qed.

Lemma cancelSeen_stays tr : forall m,
  cancelSeen m = true -> cancelSeen (monAfter tr m) = true.
Proof.
  induction tr as [|e tr IH]; intros m H; [exact H|].
  cbn [monAfter fold_left]. apply IH. cbn. now destruct e.
Qed.

Lemma cancelSeen_after_cleanup pre post m :
  cancelSeen (monAfter (pre ++ EvCleanup :: post) m) = true.
Proof.
  rewrite monAfter_app. cbn [monAfter fold_left].
  now apply cancelSeen_stays.
Qed.

Lemma completions_monAfter tr : forall m,
  completions (monAfter tr m) = (completions m + countComplete tr)%nat.
Proof.
  induction tr as [|e tr IH]; intros m; cbn [monAfter fold_left countComplete].
  - lia.
  - change (fold_left monStep tr (monStep m e)) with (monAfter tr (monStep m e)).
    rewrite IH. destruct e as [[]| | |]; cbn; lia.
Qed.

Lemma countComplete_app tr1 tr2 :
  countComplete (tr1 ++ tr2) = (countComplete tr1 + countComplete tr2)%nat.
Proof.
  induction tr1 as [|e tr1 IH]; [reflexivity|].
  cbn [app countComplete]. destruct e as [[]| | |]; cbn; lia.
Qed.

Lemma prev_monInit pre x :
  prev (monAfter pre monInit) = Some x -> exists pre', pre = pre' ++ [x].
Proof.
  induction pre as [|y pre _] using rev_ind; intros E; [discriminate|].
  rewrite prev_monAfter_last in E. inversion E; subst. now exists pre.
Qed.

Section StepFacts.

Variable cs : Columns.

(** One event never lowers [currentColumn] nor shortens [writtenDigits]. *)
Lemma stepOk_grows m e :
  stepOk cs m e ->
  currentColumn (mst m) <= currentColumn (mst (monStep m e))
  /\ exists more,
       writtenDigits (mst (monStep m e)) = writtenDigits (mst m) ++ more.
Proof.
  intros [_ H]. destruct e as [a| | |]; cbn [monStep mst applyEvent];
    try (split; [lia | exists []; now rewrite app_nil_r]).
  destruct H as [_ H].
  destruct a as [c|p|b|d|ds| |];
    cbn [actOk applyAction currentColumn writtenDigits] in *.
  - destruct H as (E & _). split; [lia | exists []; now rewrite app_nil_r].
  - split; [lia | exists []; now rewrite app_nil_r].
  - split; [lia | exists []; now rewrite app_nil_r].
  - split; [lia | now exists [d]].
  - destruct H.
  - split; [lia | exists []; now rewrite app_nil_r].
  - split; [lia | exists []; now rewrite app_nil_r].
Qed.

Lemma Holds_grows F tr : forall m,
  Holds (stepOk cs) F m tr ->
  currentColumn (mst m) <= currentColumn (mst (monAfter tr m))
  /\ exists more,
       writtenDigits (mst (monAfter tr m)) = writtenDigits (mst m) ++ more.
Proof.
  induction tr as [|e tr IH]; intros m; cbn [Holds monAfter fold_left].
  - intros _. split; [lia | exists []; now rewrite app_nil_r].
  - intros [H1 H2]. apply stepOk_grows in H1. apply IH in H2.
    destruct H1 as [A1 [more1 B1]], H2 as [A2 [more2 B2]].
    change (fold_left monStep tr (monStep m e)) with (monAfter tr (monStep m e)).
    split; [lia|]. exists (more1 ++ more2).
    now rewrite B2, B1, app_assoc.
Qed.

Lemma Holds_completes_once F tr : forall m,
  Holds (stepOk cs) F m tr ->
  (completions m <= 1)%nat -> (completions (monAfter tr m) <= 1)%nat.
Proof.
  induction tr as [|e tr IH]; intros m; cbn [Holds monAfter fold_left]; auto.
  intros [[_ H1] H2] Hle. apply (IH _ H2).
  destruct e as [[]| | |]; cbn; try lia.
  destruct H1 as [_ [_ H1]]. lia.
Qed.

End StepFacts.

Section SequencerClaims.

Variable problem : MathProblem.
Variable isCorrect : bool.
Variable animationSpeed : AnimationSpeed.
Variable onCompleteGiven : bool.
Variable speechEnabled : bool.
Variable draw : Q.
Variable w : World.

Local Abbreviation cs := (columns (decompose problem)).
Local Abbreviation tr :=
  (trace (runAnimation problem isCorrect animationSpeed onCompleteGiven
                       speechEnabled draw) w).

(** The monitored fact about the event at any place of the trace. *)
Lemma trace_event_ok pre e post :
  tr = pre ++ e :: post -> stepOk cs (monAfter pre monInit) e.
Proof.
  intros E.
  pose proof (trace_holds problem isCorrect animationSpeed onCompleteGiven
                speechEnabled draw w) as H.
  rewrite E in H. exact (Holds_at _ _ _ _ _ _ H).
Qed.

(** C3: in every run started from the state a mount or the reset
    leaves, [currentColumn] never decreases and [writtenDigits] only
    grows; entering the write phase of a column is immediately followed,
    before any await, by appending that column's [resultDigit], and
    digits are appended nowhere else; and when [isDone] is set (to
    [true], from [false]) [writtenDigits] is the columns' result digits
    in ones-first order, one per column. *)
Theorem written_digits_follow_columns :
  (forall pre mid post, tr = pre ++ mid ++ post ->
     currentColumn (stateAfter pre initState)
       <= currentColumn (stateAfter (pre ++ mid) initState)
     /\ exists more,
          writtenDigits (stateAfter (pre ++ mid) initState)
          = writtenDigits (stateAfter pre initState) ++ more)
  /\ (forall pre post, tr = pre ++ EvAct (setPhase write) :: post ->
        0 <= currentColumn (stateAfter pre initState)
        /\ exists col post',
             columnAt cs
               (Z.to_nat (currentColumn (stateAfter pre initState)))
             = Some col
             /\ post = EvAct (pushWrittenDigit (resultDigitOf col)) :: post')
  /\ (forall pre d post, tr = pre ++ EvAct (pushWrittenDigit d) :: post ->
        exists pre', pre = pre' ++ [EvAct (setPhase write)])
  /\ (forall pre b post, tr = pre ++ EvAct (setIsDone b) :: post ->
        b = true
        /\ isDone (stateAfter pre initState) = false
        /\ writtenDigits (stateAfter pre initState)
           = map resultDigitOf (columnList cs)
        /\ List.length (writtenDigits (stateAfter pre initState))
           = maxDigits (decompose problem)).
Proof.
  pose proof (trace_holds problem isCorrect animationSpeed onCompleteGiven
                speechEnabled draw w) as H.
  split; [|split; [|split]].
  - intros pre mid post E. rewrite E in H.
    apply Holds_suffix in H. apply Holds_prefix in H.
    apply Holds_grows in H. rewrite <- monAfter_app in H.
    now rewrite !mst_monAfter in H.
  - intros pre post E.
    pose proof (trace_event_ok _ _ _ E) as [_ [_ (Hpos & col & Hcol & _)]].
    rewrite mst_monAfter in Hpos, Hcol. cbn [mst monInit] in Hpos, Hcol.
    split; [exact Hpos|].
    rewrite E in H.
    change (pre ++ EvAct (setPhase write) :: post)
      with (pre ++ [EvAct (setPhase write)] ++ post) in H.
    rewrite app_assoc in H. apply Holds_suffix in H.
    destruct post as [|e post].
    + cbn [Holds] in H. unfold endOk in H.
      now rewrite prev_monAfter_last in H.
    + destruct H as [[Hnext Hev] _].
      destruct (Hnext (prev_monAfter_last _ _ _)) as [d ->].
      destruct Hev as [_ (_ & _ & _ & col' & Hcol' & ->)].
      rewrite mst_monAfter, stateAfter_app in Hcol'.
      cbn [stateAfter fold_left applyEvent applyAction currentColumn mst
           monInit] in Hcol'.
      change (fold_left applyEvent pre initState)
        with (stateAfter pre initState) in Hcol'.
      rewrite Hcol in Hcol'. inversion Hcol'; subst col'.
      now exists col, post.
  - intros pre d post E.
    pose proof (trace_event_ok _ _ _ E) as [_ [_ (Hprev & _)]].
    now apply prev_monInit.
  - intros pre b post E.
    pose proof (trace_event_ok _ _ _ E)
      as [_ [_ (Hb & Hdone & _ & _ & Hwr)]].
    rewrite mst_monAfter in Hdone, Hwr. cbn [mst monInit] in Hdone, Hwr.
    repeat split; auto.
    rewrite Hwr. unfold columnDigits. rewrite length_map.
    apply decompose_columnList.
Qed.

(** C4: the carry phase is entered only from the calc phase of a
    column that carries (addition: [carryOut > 0]) or borrows
    (subtraction: [needsBorrow]); the write phase of a column is entered
    from its carry phase if the column carries or borrows and directly
    from its calc phase otherwise; so with no carrying or borrowing
    column the carry phase is never entered. *)
Theorem carry_phase_iff_carry_or_borrow :
  (forall pre post, tr = pre ++ EvAct (setPhase carry) :: post ->
     phase (stateAfter pre initState) = calc
     /\ 0 <= currentColumn (stateAfter pre initState)
     /\ exists col,
          columnAt cs (Z.to_nat (currentColumn (stateAfter pre initState)))
            = Some col
          /\ match col with
             | AddCol c => 0 < carryOut c
             | SubCol c => needsBorrow c = true
             end)
  /\ (forall pre post, tr = pre ++ EvAct (setPhase write) :: post ->
        0 <= currentColumn (stateAfter pre initState)
        /\ exists col,
          columnAt cs (Z.to_nat (currentColumn (stateAfter pre initState)))
            = Some col
          /\ match col with
             | AddCol c =>
                 phase (stateAfter pre initState)
                 = if 0 <? carryOut c then carry else calc
             | SubCol c =>
                 phase (stateAfter pre initState)
                 = if needsBorrow c then carry else calc
             end)
  /\ ((forall col, In col (columnList cs) ->
         match col with
         | AddCol c => carryOut c <= 0
         | SubCol c => needsBorrow c = false
         end) ->
      ~ In (EvAct (setPhase carry)) tr).
Proof.
  assert (Hcarry : forall pre post,
            tr = pre ++ EvAct (setPhase carry) :: post ->
            phase (stateAfter pre initState) = calc
            /\ 0 <= currentColumn (stateAfter pre initState)
            /\ exists col,
                 columnAt cs
                   (Z.to_nat (currentColumn (stateAfter pre initState)))
                 = Some col
                 /\ columnCarries col = true).
  { intros pre post E.
    pose proof (trace_event_ok _ _ _ E)
      as [_ [_ (Hpos & Hph & col & Hcol & Hc)]].
    rewrite mst_monAfter in Hpos, Hph, Hcol.
    cbn [mst monInit] in Hpos, Hph, Hcol.
    split; [exact Hph|]. split; [exact Hpos|]. now exists col. }
  split; [|split].
  - intros pre post E.
    destruct (Hcarry _ _ E) as (Hph & Hpos & col & Hcol & Hc).
    split; [exact Hph|]. split; [exact Hpos|].
    exists col. split; [exact Hcol|].
    destruct col; cbn [columnCarries] in Hc; [now apply Z.ltb_lt | exact Hc].
  - intros pre post E.
    pose proof (trace_event_ok _ _ _ E) as [_ [_ (Hpos & col & Hcol & Hph)]].
    rewrite mst_monAfter in Hpos, Hph, Hcol.
    cbn [mst monInit] in Hpos, Hph, Hcol.
    split; [exact Hpos|]. exists col. split; [exact Hcol|].
    now destruct col.
  - intros Hnone Hin. apply in_split in Hin. destruct Hin as (pre & post & E).
    destruct (Hcarry _ _ E) as (_ & _ & col & Hcol & Hc).
    apply nth_error_In in Hcol. specialize (Hnone col Hcol).
    destruct col; cbn [columnCarries] in Hc.
    + apply Z.ltb_lt in Hc. lia.
    + congruence.
Qed.

(** After the cleanup a run is inert: it performs no action (no state
    change, no [onComplete], no new speech). *)
Lemma inert_after_cleanup pre post :
  tr = pre ++ EvCleanup :: post -> Forall quiet post.
Proof.
  intros E. apply Forall_forall. intros e Hin.
  apply in_split in Hin. destruct Hin as (p1 & p2 & ->).
  assert (E' : tr = (pre ++ EvCleanup :: p1) ++ e :: p2)
    by (now rewrite <- app_assoc).
  pose proof (trace_event_ok _ _ _ E') as [_ Hev].
  pose proof (cancelSeen_after_cleanup pre p1 monInit) as Hc.
  destruct e as [a|[ms|text rate]| |]; cbn [quiet]; auto;
    destruct Hev as [Hev _]; congruence.
Qed.

(** No run calls [onComplete] twice. *)
Lemma completes_at_most_once : (countComplete tr <= 1)%nat.
Proof.
  pose proof (trace_holds problem isCorrect animationSpeed onCompleteGiven
                speechEnabled draw w) as H.
  apply Holds_completes_once in H; [|cbn; lia].
  now rewrite completions_monAfter in H.
Qed.

End SequencerClaims.

(** ** The sequencer: progress *)

Lemma run_bind_finished {A B : Type} (p : Async A) (f : A -> Async B)
    (w : World) n c tr1 a n1 c1 :
  run p w n c = (tr1, Finished a n1 c1) ->
  run (bind p f) w n c
  = (tr1 ++ fst (run (f a) w n1 c1), snd (run (f a) w n1 c1)).
Proof.
  intros E. rewrite run_bind, E. now destruct (run (f a) w n1 c1).
Qed.

Lemma settle_total (t : Tick) (aw : Awaitable) :
  tickSettles t -> settle aw t <> Never.
Proof.
  intros H. destruct aw as [ms|text rate]; cbn [settle]; [discriminate|].
  unfold speak.
  destruct (synth (manager t)) eqn:E1;
    [destruct (enabled (manager t)) eqn:E2|];
    cbn [negb orb promise resolve]; try discriminate.
  destruct H as [H|[H|H]]; try congruence.
  destruct (browser t) as [[ev at_]|]; [|now elim H].
  unfold fire. cbn [startTime promise]. destruct ev; cbn; discriminate.
Qed.

(** With a synthesizer that takes the utterance and never fires an
    event on it, the promise of [speak] never settles. *)
Lemma settle_never (t : Tick) (text : string) (rate : Q) :
  synth (manager t) = true -> enabled (manager t) = true ->
  browser t = None ->
  settle (Speaking text rate) t = Never.
Proof.
  intros H1 H2 H3. cbn [settle]. unfold speak. now rewrite H1, H2, H3.
Qed.

Section Progress.

Variable w : World.
Hypothesis settles : settlesAll w.

Lemma proceeds_pure {A : Type} (a : A) : proceeds w (Pure a).
Proof. intros n c. cbn. intros ->. now left. Qed.

Lemma proceeds_bind {A B : Type} (p : Async A) (f : A -> Async B) :
  proceeds w p -> (forall a, proceeds w (f a)) -> proceeds w (bind p f).
Proof.
  intros Hp Hf n c. specialize (Hp n c). rewrite run_bind.
  destruct (run p w n c) as [tr1 [a n1 c1| | |]]; cbn [snd] in *; auto.
  specialize (Hf a n1 c1).
  destruct (run (f a) w n1 c1) as [tr2 [b n2 c2| | |]]; cbn [snd] in *; auto.
  - intros E. destruct (Hf E) as [->|X]; [auto | now right].
  - destruct Hf as [->|X]; [auto | now right].
Qed.

Lemma proceeds_perform (a : Action) : proceeds w (perform a).
Proof. intros n c. cbn. intros ->. now left. Qed.

Lemma proceeds_ifCancelledReturn : proceeds w ifCancelledReturn.
Proof. intros n [|]; cbn; [now left | discriminate]. Qed.

Lemma proceeds_await (aw : Awaitable) : proceeds w (await aw).
Proof.
  intros n c. unfold await. cbn [run].
  pose proof (settle_total (w n) aw (settles n)) as H.
  destruct (settle aw (w n)) as [elapsed v|]; [|contradiction].
  cbn. destruct c; [now left|]. cbn. intros E. right. now exists n.
Qed.

Lemma proceeds_speakAndWait speed enabled_ text minWait :
  proceeds w (speakAndWait speed enabled_ text minWait).
Proof.
  unfold speakAndWait. destruct (enabled_ && JS.truthy text).
  - apply proceeds_bind; [apply proceeds_await|]. intros v.
    apply proceeds_bind; [apply proceeds_await|]. intros _.
    apply proceeds_pure.
  - apply proceeds_bind; [apply proceeds_await|]. intros _.
    apply proceeds_pure.
Qed.

Lemma proceeds_animateColumn problem speed enabled_ baseTiming col :
  (col < maxDigits (decompose problem))%nat ->
  proceeds w (animateColumn problem speed enabled_
                (columns (decompose problem)) baseTiming col).
Proof.
  intros Hlt. unfold animateColumn.
  destruct (decompose_columnList problem) as (Hlen & Htag & _).
  unfold columnAt.
  destruct (nth_error (columnList (columns (decompose problem))) col)
    as [column|] eqn:Ecol; [|apply nth_error_None in Ecol; lia].
  assert (Hwt : wellTagged problem column)
    by (rewrite Forall_forall in Htag; eapply Htag, nth_error_In; eauto).
  destruct (wellTagged_texts _ _ Hwt) as ([[[hl cl] cr] wr] & ->).
  repeat first
    [ apply proceeds_pure
    | apply proceeds_perform
    | apply proceeds_ifCancelledReturn
    | apply proceeds_speakAndWait
    | apply proceeds_await
    | apply proceeds_bind; [|intros ?]
    | match goal with |- proceeds _ (if ?b then _ else _) => destruct b end ].
Qed.

Lemma proceeds_animateColumns problem speed enabled_ baseTiming todo :
  forall col,
  (col + todo <= maxDigits (decompose problem))%nat ->
  proceeds w (animateColumns problem speed enabled_
                (columns (decompose problem)) baseTiming todo col).
Proof.
  induction todo as [|todo IH]; intros col Hle; cbn [animateColumns].
  - apply proceeds_pure.
  - apply proceeds_bind; [apply proceeds_animateColumn; lia|].
    intros _. apply IH. lia.
Qed.

Lemma proceeds_runAnimation problem isCorrect speed given enabled_ draw :
  proceeds w (runAnimation problem isCorrect speed given enabled_ draw).
Proof.
  unfold runAnimation.
  repeat first
    [ apply proceeds_pure
    | apply proceeds_perform
    | apply proceeds_ifCancelledReturn
    | apply proceeds_speakAndWait
    | apply proceeds_await
    | apply proceeds_animateColumns; cbn; lia
    | apply proceeds_bind; [|intros ?]
    | match goal with |- proceeds _ (if ?b then _ else _) => destruct b end ].
Qed.

Hypothesis calm : noCleanup w.

(** Without a cleanup a body that proceeds runs to its end. *)
Lemma proceeds_finishes {A : Type} (p : Async A) (n : nat) :
  proceeds w p ->
  exists tr1 a n1, run p w n false = (tr1, Finished a n1 false).
Proof.
  intros H. specialize (H n false).
  assert (Hno : ~ cancelSource w false).
  { intros [X|[k X]]; [discriminate|]. rewrite calm in X. discriminate. }
  destruct (run p w n false) as [tr1 [a n1 c1| | |]]; cbn [snd] in H;
    try contradiction.
  destruct c1; [now elim Hno; apply H|]. eauto.
Qed.

Lemma speakAndWait_waits speed enabled_ text minWait n :
  Forall isWait (fst (run (speakAndWait speed enabled_ text minWait)
                          w n false)).
Proof.
  unfold speakAndWait, await.
  destruct (enabled_ && JS.truthy text); cbn [bind run].
  - rewrite !calm. cbn [andb orb].
    destruct (settle (Speaking _ _) (w n)) as [elapsed v|]; cbn [fst app].
    + cbn [settle fst]. repeat constructor.
    + repeat constructor.
  - cbn [settle]. rewrite calm. cbn. repeat constructor.
Qed.

(** The shape of an undisturbed run whose callback is given. *)
Lemma runAnimation_undisturbed problem isCorrect speed enabled_ draw :
  exists pre mid n,
    run (runAnimation problem isCorrect speed true enabled_ draw) w 0 false
    = (pre ++ EvAct (setIsDone true) :: mid ++ [EvAct onComplete],
       Finished tt n false)
    /\ Forall isWait mid.
Proof.
  unfold runAnimation.
  set (base := getDuration 600 speed).
  rewrite (run_bind_finished (perform speechStop) _ w 0 false
             [EvAct speechStop] tt 0 false eq_refl).
  assert (E1 : run (await (Timeout base)) w 0 false
               = ([EvSuspend (Timeout base); EvResume base 0], 
                  Finished 0%Q 1%nat false)).
  { unfold await. cbn [run settle]. rewrite calm. reflexivity. }
  rewrite (run_bind_finished _ _ w 0 false _ _ _ _ E1).
  rewrite (run_bind_finished ifCancelledReturn _ w 1 false [] tt 1%nat
             false eq_refl).
  destruct (proceeds_finishes
              (animateColumns problem speed enabled_
                 (columns (decompose problem)) base
                 (maxDigits (decompose problem)) 0) 1
              (proceeds_animateColumns problem speed enabled_ base
                 (maxDigits (decompose problem)) 0 (Nat.le_refl _)))
    as (trL & [] & nL & EL).
  rewrite (run_bind_finished _ _ w 1 false _ _ _ _ EL).
  rewrite (run_bind_finished (perform (setIsDone true)) _ w nL false
             [EvAct (setIsDone true)] tt nL false eq_refl).
  pose proof (speakAndWait_waits speed enabled_
                (getCompletionSpeech draw isCorrect (answer problem))
                base nL) as Hmid.
  destruct (proceeds_finishes
              (speakAndWait speed enabled_
                 (getCompletionSpeech draw isCorrect (answer problem)) base)
              nL (proceeds_speakAndWait _ _ _ _))
    as (trS & [] & nS & ES).
  rewrite ES in Hmid. cbn [fst] in Hmid.
  rewrite (run_bind_finished _ _ w nL false _ _ _ _ ES).
  rewrite (run_bind_finished ifCancelledReturn _ w nS false [] tt nS
             false eq_refl).
  cbn [perform run fst snd app].
  exists ([EvAct speechStop; EvSuspend (Timeout base); EvResume base 0]
            ++ trL), trS, nS.
  split; [reflexivity | exact Hmid].
Qed.

End Progress.

Lemma narration_stays_stopped post : forall inFlight,
  Forall quiet post ->
  fold_left narrationStep post inFlight = None \/
  fold_left narrationStep post inFlight = inFlight.
Proof.
  induction post as [|e post IH]; intros inFlight H; [now right|].
  inversion H as [|? ? He Hpost]; subst. cbn [fold_left].
  destruct e as [a|[ms|text rate]| |]; cbn [quiet] in He; try contradiction;
    cbn [narrationStep].
  - apply IH, Hpost.
  - destruct (IH None Hpost) as [X|X]; left; exact X.
  - destruct (IH None Hpost) as [X|X]; left; exact X.
Qed.

(** The reset effect puts the component back in its initial state, so
    that a run started by a mount or by a new problem starts from
    [initState]. *)
Lemma reset_restores_initial_state (s : SeqState) :
  fold_left (fun st a => applyAction a st) resetEffect s = initState.
Proof. reflexivity. Qed.

(** C8, as the code has it: once the cleanup has run, the run performs
    no further action (no change of [currentColumn], [phase],
    [writtenDigits] or [isDone], no [onComplete], no new speech) and its
    narration is stopped and stays so; no run calls [onComplete] twice;
    and a run with a callback that is never cleaned up, in a world where
    every speech promise settles, calls it exactly once, as its last
    event, after the waits of the completion announcement that follow
    [setIsDone(true)], which follows the write phase of the last
    column. *)
Theorem cancelled_run_is_inert (problem : MathProblem) (isCorrect : bool)
    (animationSpeed : AnimationSpeed) (onCompleteGiven speechEnabled : bool)
    (draw : Q) (w : World) :
  (forall pre post,
     trace (runAnimation problem isCorrect animationSpeed onCompleteGiven
                         speechEnabled draw) w
     = pre ++ EvCleanup :: post ->
     Forall quiet post
     /\ forall post1 post2, post = post1 ++ post2 ->
          narrationAfter (pre ++ EvCleanup :: post1) = None)
  /\ (countComplete
        (trace (runAnimation problem isCorrect animationSpeed onCompleteGiven
                             speechEnabled draw) w) <= 1)%nat
  /\ (onCompleteGiven = true -> noCleanup w -> settlesAll w ->
      exists pre mid,
        trace (runAnimation problem isCorrect animationSpeed onCompleteGiven
                            speechEnabled draw) w
        = pre ++ EvAct (setIsDone true) :: mid ++ [EvAct onComplete]
        /\ Forall isWait mid
        /\ phase (stateAfter pre initState) = write
        /\ currentColumn (stateAfter pre initState)
           = Z.of_nat (maxDigits (decompose problem)) - 1
        /\ countComplete
             (trace (runAnimation problem isCorrect animationSpeed
                                  onCompleteGiven speechEnabled draw) w)
           = 1%nat).
Proof.
  split; [|split].
  - intros pre post E.
    pose proof (inert_after_cleanup _ _ _ _ _ _ _ _ _ E) as Hq.
    split; [exact Hq|]. intros post1 post2 ->.
    apply Forall_app in Hq. destruct Hq as [Hq _].
    unfold narrationAfter. rewrite fold_left_app. cbn [fold_left narrationStep].
    destruct (narration_stays_stopped post1 None Hq); assumption.
  - apply completes_at_most_once.
  - intros -> Hcalm Hsettle.
    destruct (runAnimation_undisturbed w Hsettle Hcalm problem isCorrect
                animationSpeed speechEnabled draw)
      as (pre & mid & n & E & Hmid).
    assert (Etr : trace (runAnimation problem isCorrect animationSpeed true
                                      speechEnabled draw) w
                  = pre ++ EvAct (setIsDone true) :: mid ++ [EvAct onComplete])
      by (unfold trace; now rewrite E).
    exists pre, mid. split; [exact Etr|]. split; [exact Hmid|].
    pose proof (trace_event_ok _ _ _ _ _ _ _ _ _ _ Etr)
      as [_ [_ (_ & _ & Hph & Hcur & _)]].
    rewrite mst_monAfter in Hph, Hcur. cbn [mst monInit] in Hph, Hcur.
    destruct (decompose_columnList problem) as (Hlen & _ & _).
    rewrite Hlen in Hcur. split; [exact Hph|]. split; [exact Hcur|].
    pose proof (completes_at_most_once problem isCorrect animationSpeed true
                  speechEnabled draw w) as Hle.
    rewrite Etr in Hle |- *.
    change (pre ++ EvAct (setIsDone true) :: mid ++ [EvAct onComplete])
      with (pre ++ (EvAct (setIsDone true) :: mid) ++ [EvAct onComplete])
      in Hle |- *.
    rewrite !countComplete_app in Hle |- *. cbn [countComplete] in Hle |- *.
    lia.
Qed.

(** C7, as the code has it: in a world where every speech promise
    settles (no synthesizer, speech disabled in the manager, or the
    utterance fires [end] or [error]), no run throws or stays suspended
    at an await; without a cleanup it runs to its end. *)
Theorem run_goes_on_when_speech_settles (problem : MathProblem)
    (isCorrect : bool) (animationSpeed : AnimationSpeed)
    (onCompleteGiven speechEnabled : bool) (draw : Q) (w : World) :
  settlesAll w ->
  goesOn (outcome (runAnimation problem isCorrect animationSpeed
                                onCompleteGiven speechEnabled draw) w)
  /\ (noCleanup w ->
      exists n,
        outcome (runAnimation problem isCorrect animationSpeed
                              onCompleteGiven speechEnabled draw) w
        = Finished tt n false).
Proof.
  intros Hsettle.
  pose proof (proceeds_runAnimation w Hsettle problem isCorrect
                animationSpeed onCompleteGiven speechEnabled draw) as H.
  split.
  - specialize (H 0%nat false). unfold outcome.
    destruct (snd (run _ w 0 false)); cbn; auto.
  - intros Hcalm.
    destruct (proceeds_finishes w Hcalm _ 0 H) as (tr1 & [] & n & E).
    exists n. unfold outcome. now rewrite E.
Qed.

Lemma calmWorld_settles (m : SpeechManager) (ms : Q) :
  settlesAll (calmWorld m ms).
Proof. intros n. right. right. discriminate. Defined.

Lemma calmWorld_noCleanup (m : SpeechManager) (ms : Q) :
  noCleanup (calmWorld m ms).
Proof. intros n. reflexivity. Defined.

Lemma run_goes_on_when_speech_settles_witness :
  settlesAll (calmWorld missingSynth 0)
  /\ goesOn (outcome (sampleRun true) (calmWorld missingSynth 0)).
Proof.
  split; [apply calmWorld_settles|].
  exact (proj1 (run_goes_on_when_speech_settles problem_7_plus_5 true normal
                  true true 0 (calmWorld missingSynth 0)
                  (calmWorld_settles missingSynth 0))).
Defined.

(** C7, as the spec states it, fails: when the synthesizer takes the
    utterance and never fires [end] or [error], the run stays suspended
    at the first highlight and never enters the calc phase, although
    nothing cancels it. *)
Lemma silent_utterance_hangs_run :
  noCleanup silentWorld
  /\ outcome (sampleRun true) silentWorld = Suspended
  /\ ~ In (EvAct (setPhase calc)) (trace (sampleRun true) silentWorld).
Proof.
  split; [intros n; reflexivity|]. split; [vm_compute; reflexivity|].
  vm_compute. intros H.
  repeat (destruct H as [H|H]; [discriminate|]). exact H.
Qed.

(** C8, as the spec states it, fails for uncancelled runs: when an
    utterance never fires [end] or [error], a run that nothing cancels
    stays suspended and never calls [onComplete]. *)
Lemma uncancelled_silent_run_never_completes :
  noCleanup silentWorld
  /\ outcome (sampleRun true) silentWorld = Suspended
  /\ countComplete (trace (sampleRun true) silentWorld) = 0%nat.
Proof.
  split; [intros n; reflexivity|]. split; vm_compute; reflexivity.
Qed.

Lemma cancelled_run_is_inert_witness :
  (true = true /\ noCleanup (calmWorld speakingManager 1000)
   /\ settlesAll (calmWorld speakingManager 1000))
  /\ countComplete (trace (sampleRun true) (calmWorld speakingManager 1000))
     = 1%nat.
Proof.
  split; [split; [reflexivity|split];
          [apply calmWorld_noCleanup | apply calmWorld_settles]|].
  destruct (proj2 (proj2 (cancelled_run_is_inert problem_7_plus_5 true normal
                            true true 0 (calmWorld speakingManager 1000)))
              eq_refl (calmWorld_noCleanup _ _) (calmWorld_settles _ _))
    as (pre & mid & _ & _ & _ & _ & H).
  exact H.
Defined.

Lemma written_digits_follow_columns_witness :
  exists pre post,
    trace (sampleRun false) (calmWorld speakingManager 0)
    = pre ++ EvAct (setIsDone true) :: post
    /\ writtenDigits (stateAfter pre initState) = [2; 1].
Proof.
  exists (firstn 28 (trace (sampleRun false) (calmWorld speakingManager 0))),
         (skipn 29 (trace (sampleRun false) (calmWorld speakingManager 0))).
  assert (E : trace (sampleRun false) (calmWorld speakingManager 0)
              = firstn 28 (trace (sampleRun false)
                                 (calmWorld speakingManager 0))
                ++ EvAct (setIsDone true)
                   :: skipn 29 (trace (sampleRun false)
                                      (calmWorld speakingManager 0)))
    by (vm_compute; reflexivity).
  split; [exact E|].
  destruct (proj2 (proj2 (proj2
              (written_digits_follow_columns problem_7_plus_5 true normal
                 true false 0 (calmWorld speakingManager 0))))
              _ _ _ E) as (_ & _ & H & _).
  rewrite H. reflexivity.
Defined.

Lemma carry_phase_iff_carry_or_borrow_witness :
  exists pre post,
    trace (sampleRun false) (calmWorld speakingManager 0)
    = pre ++ EvAct (setPhase carry) :: post
    /\ phase (stateAfter pre initState) = calc.
Proof.
  exists (firstn 10 (trace (sampleRun false) (calmWorld speakingManager 0))),
         (skipn 11 (trace (sampleRun false) (calmWorld speakingManager 0))).
  assert (E : trace (sampleRun false) (calmWorld speakingManager 0)
              = firstn 10 (trace (sampleRun false)
                                 (calmWorld speakingManager 0))
                ++ EvAct (setPhase carry)
                   :: skipn 11 (trace (sampleRun false)
                                      (calmWorld speakingManager 0)))
    by (vm_compute; reflexivity).
  split; [exact E|].
  exact (proj1 (proj1 (carry_phase_iff_carry_or_borrow problem_7_plus_5 true
                         normal true false 0 (calmWorld speakingManager 0))
                      _ _ E)).
Defined.

(** ** The dwell of a phase *)

Section Dwell.
Local Open Scope Q_scope.

(** The nominal dwells: a base of 600 ms scaled by the speed (slow 1.5,
    normal 1, fast 0.5), which the run scales by the phase (highlight 1,
    calc 1.5, carry 1.2, write 0.8); fast halves every one of them. *)
Lemma fast_halves_nominal (factor : Q) :
  getDuration 600 fast * factor == (getDuration 600 normal * factor) / 2
  /\ getDuration 600 slow == 900 /\ getDuration 600 normal == 600
  /\ getDuration 600 fast == 300.
Proof.
  unfold getDuration, ANIMATION_SPEEDS. repeat split; try reflexivity.
  field.
Qed.

(** Narration off, or an empty text: the phase is a timer of exactly
    the nominal duration. *)
Lemma speakAndWait_timer_only speed enabled_ text minWait w n c :
  enabled_ = false \/ JS.truthy text = false ->
  waited (fst (run (speakAndWait speed enabled_ text minWait) w n c))
  == minWait.
Proof.
  intros H. unfold speakAndWait.
  replace (enabled_ && JS.truthy text)%bool with false
    by (destruct H as [-> | ->]; [reflexivity | now rewrite andb_false_r]).
  unfold await. cbn [bind run settle].
  destruct (cleanup (w n) && negb c)%bool; cbn [app fst waited]; lra.
Qed.

(** Narration on and a text to speak: the phase lasts the time the
    speech promise takes to settle plus a timer of
    [max(minWait, speechDuration + 200) - speechDuration], where
    [speechDuration] is the number the promise resolved with. *)
Lemma speakAndWait_spoken speed text minWait w n c elapsed v :
  JS.truthy text = true ->
  settle (Speaking text match speed with
                        | slow => 0.9 | fast => 1.3 | normal => 1.0
                        end) (w n)
  = Settles elapsed v ->
  waited (fst (run (speakAndWait speed true text minWait) w n c))
  == elapsed + (Qmax minWait (v + 200) - v).
Proof.
  intros Ht Hs. unfold speakAndWait. rewrite Ht. cbn [andb].
  unfold await. cbn [bind run]. rewrite Hs. cbn [settle].
  destruct (cleanup (w n) && negb c)%bool;
    destruct (cleanup (w (S n)) && negb (c || cleanup (w n)))%bool;
    cbn [app fst waited]; lra.
Qed.

(** When the promise resolves with the time that has really elapsed (the
    utterance fired [end] or [error]), the phase lasts
    [max(minWait, speechDuration + 200)], which is at least [minWait]. *)
Lemma speakAndWait_measured speed text minWait w n c elapsed v :
  JS.truthy text = true ->
  settle (Speaking text match speed with
                        | slow => 0.9 | fast => 1.3 | normal => 1.0
                        end) (w n)
  = Settles elapsed v ->
  v == elapsed ->
  waited (fst (run (speakAndWait speed true text minWait) w n c))
  == Qmax minWait (elapsed + 200)
  /\ minWait
     <= waited (fst (run (speakAndWait speed true text minWait) w n c)).
Proof.
  intros Ht Hs Hv.
  pose proof (speakAndWait_spoken speed text minWait w n c elapsed v Ht Hs)
    as H.
  assert (E : Qmax minWait (v + 200) == Qmax minWait (elapsed + 200))
    by now rewrite Hv.
  split.
  - rewrite H, E, Hv. lra.
  - rewrite H, E, Hv. pose proof (Q.le_max_l minWait (elapsed + 200)). lra.
Qed.

(** When the promise resolves at once with an estimate (no synthesizer,
    or speech disabled in the manager), the estimate is subtracted
    although no time has elapsed: a nominal dwell over 200 ms is cut
    short. *)
Lemma speakAndWait_estimated speed text minWait w n c :
  JS.truthy text = true ->
  synth (manager (w n)) = false \/ enabled (manager (w n)) = false ->
  200 < minWait ->
  0 < estimatedDuration text match speed with
                             | slow => 0.9 | fast => 1.3 | normal => 1.0
                             end ->
  waited (fst (run (speakAndWait speed true text minWait) w n c)) < minWait.
Proof.
  intros Ht Hm Hmin Hest.
  set (rate := match speed with slow => 0.9 | fast => 1.3 | normal => 1.0 end)
    in *.
  assert (Hs : settle (Speaking text rate) (w n)
               = Settles 0 (estimatedDuration text rate)).
  { cbn [settle]. unfold speak.
    replace (negb (synth (manager (w n))) || negb (enabled (manager (w n))))%bool
      with true; [reflexivity|].
    destruct Hm as [-> | ->]; [reflexivity | now rewrite orb_true_r]. }
  rewrite (speakAndWait_spoken speed text minWait w n c _ _ Ht Hs).
  destruct (Q.max_spec minWait (estimatedDuration text rate + 200))
    as [[_ E]|[_ E]]; rewrite E; lra.
Qed.

End Dwell.

(** C5 fails on the code: with narration on, normal speed and a browser
    without a synthesizer, the highlight phase of 7 + 5 speaks
    "Look at the ones place. 7 and 5."; [speak] resolves at once with
    the estimate and the run then waits 200 ms in all, less than the
    nominal 600 ms and than [max(nominal, speechDuration + 200)]. *)
Theorem dwell_below_nominal_without_synthesizer :
  exists d rest,
    dwells (trace (sampleRun true) (calmWorld missingSynth 0))
    = (highlight, d) :: rest
    /\ (d == 200)%Q
    /\ (d < getDuration 600 normal * 1)%Q
    /\ (d < Qmax (getDuration 600 normal * 1)
                 (estimatedDuration "Look at the ones place. 7 and 5." 1.0
                  + 200))%Q.
Proof.
  eexists. eexists. split; [vm_compute; reflexivity|].
  repeat split; vm_compute; reflexivity.
Qed.

(* ================================================================== *)
(** * More of the code *)
(* ================================================================== *)

(** ** Digits and the decomposition *)

Lemma getDigits_loop_value fuel : forall n,
  0 <= n -> (Z.to_nat n <= fuel)%nat ->
  reconstruct (getDigits_loop fuel n []) = n
  /\ Forall (fun d => 0 <= d <= 9) (getDigits_loop fuel n [])
  /\ (0 < n -> List.last (getDigits_loop fuel n []) 0 <> 0).
Proof.
  induction fuel as [|fuel IH]; intros n Hn Hf.
  - assert (n = 0) by lia. subst. cbn. repeat split; [constructor | lia].
  - cbn [getDigits_loop]. destruct (0 <? n) eqn:E.
    + apply Z.ltb_lt in E. rewrite getDigits_loop_acc. cbn [app].
      assert (n / 10 < n) by (apply Z.div_lt; lia).
      assert (0 <= n / 10) by (apply Z.div_pos; lia).
      destruct (IH (n / 10) ltac:(lia) ltac:(lia)) as (V & R & L).
      pose proof (Z.div_mod n 10 ltac:(lia)).
      pose proof (Z.mod_pos_bound n 10 ltac:(lia)).
      cbn [reconstruct]. rewrite V. split; [lia|]. split.
      * constructor; [lia | exact R].
      * intros _. rewrite last_cons_default.
        destruct (Z.eq_dec (n / 10) 0) as [Z0|Z0].
        -- rewrite Z0. destruct fuel; cbn; lia.
        -- intros X. assert (P : 0 < n / 10) by lia.
           specialize (L P).
           destruct (getDigits_loop fuel (n / 10) []) as [|d ds] eqn:G.
           ++ cbn in V. lia.
           ++ rewrite last_cons_default in X.
              rewrite last_cons_default in L.
              clear - X L. revert d X L.
              induction ds as [|e ds IHds]; intros d X L; cbn in *;
                [lia | tauto].
    + apply Z.ltb_ge in E. assert (n = 0) by lia. subst.
      cbn. repeat split; [constructor | lia].
Qed.

Lemma last_zero_all_small (ds : list Z) (d : Z) :
  ds <> [] -> List.last ds 0 = List.last ds d.
Proof. destruct ds as [|x ds]; [congruence|]. now rewrite !last_cons_default. Qed.


Lemma getDigits_digitAt n i :
  nth i (getDigits n) 0 = digitAt (Z.abs n) i.
Proof.
  unfold digitAt, getDigits. destruct (n =? 0) eqn:E.
  - apply Z.eqb_eq in E. subst. cbn [Z.abs].
    rewrite Z.div_0_l by (apply Z.pow_nonzero; lia).
    destruct i as [|[|i]]; reflexivity.
  - cbv zeta. apply getDigits_loop_nth; lia.
Qed.

Lemma reconstruct_lower (ds : list Z) :
  Forall (fun d => 0 <= d <= 9) ds -> ds <> [] -> List.last ds 0 <> 0 ->
  10 ^ Z.of_nat (List.length ds - 1) <= reconstruct ds.
Proof.
  induction 1 as [|d ds Hd Hds IH]; intros Hne Hl; [congruence|].
  destruct ds as [|e ds].
  - cbn in *. lia.
  - rewrite last_cons_default in Hl.
    rewrite <- (last_zero_all_small (e :: ds) d ltac:(discriminate)) in Hl.
    specialize (IH ltac:(discriminate) Hl).
    cbn [reconstruct List.length] in *.
    replace (S (S (List.length ds)) - 1)%nat
      with (S (S (List.length ds) - 1)) by lia.
    rewrite Nat2Z.inj_succ, Z.pow_succ_r by lia. lia.
Qed.

(** A larger number has at least as many digits. *)
Lemma getDigits_length_mono a b :
  0 <= a <= b ->
  (List.length (getDigits a) <= List.length (getDigits b))%nat.
Proof.
  intros H. destruct (Z.eq_dec a 0) as [->|Ha].
  - apply getDigits_nonempty.
  - assert (G : getDigits a = getDigits_loop (Z.to_nat a) a []).
    { unfold getDigits. destruct (a =? 0) eqn:E;
        [apply Z.eqb_eq in E; lia | now rewrite Z.abs_eq by lia]. }
    destruct (getDigits_loop_value (Z.to_nat a) a ltac:(lia) ltac:(lia))
      as (V & R & L).
    rewrite <- G in V, R, L.
    pose proof (getDigits_nonempty a) as Ne.
    assert (Hlow : 10 ^ Z.of_nat (List.length (getDigits a) - 1) <= a).
    { rewrite <- V at 2.
      apply reconstruct_lower; [exact R | | apply L; lia].
      intros X. rewrite X in Ne. cbn in Ne. lia. }
    pose proof (getDigits_bound b ltac:(lia)) as Hb.
    destruct (Nat.le_gt_cases (List.length (getDigits a))
                              (List.length (getDigits b))) as [Le|Gt]; [exact Le|].
    pose proof (pow10_le (List.length (getDigits b))
                         (List.length (getDigits a) - 1) ltac:(lia)).
    lia.
Qed.

(** X2: [padDigits] only ever appends [null] cells: the result has
    [max(length, digits.length)] cells, starts with the digits given and
    every cell after them is [null]; a list already long enough is
    returned as it is, never truncated. *)
Theorem padDigits_pads_never_truncates (digits : list Z) (len : nat) :
  List.length (padDigits digits len) = Nat.max len (List.length digits)
  /\ firstn (List.length digits) (padDigits digits len) = map Some digits
  /\ skipn (List.length digits) (padDigits digits len)
     = repeat None (len - List.length digits)
  /\ ((len <= List.length digits)%nat ->
      padDigits digits len = map Some digits).
Proof.
  rewrite padDigits_spec. split; [|split; [|split]].
  - rewrite length_app, length_map, repeat_length. lia.
  - rewrite firstn_app, length_map, Nat.sub_diag. cbn [firstn].
    rewrite app_nil_r. rewrite <- (length_map Some digits) at 1.
    apply firstn_all.
  - rewrite skipn_app, length_map, Nat.sub_diag. cbn [skipn].
    rewrite <- (length_map Some digits) at 1. now rewrite skipn_all.
  - intros H.
    replace (len - List.length digits)%nat with 0%nat by lia.
    cbn [repeat]. apply app_nil_r.
Qed.

Lemma padDigits_pads_never_truncates_witness :
  (3 <= List.length [4; 3; 2; 1])%nat
  /\ padDigits [4; 3; 2; 1] 3 = map Some [4; 3; 2; 1].
Proof.
  split; [cbn; lia|].
  apply (padDigits_pads_never_truncates [4; 3; 2; 1] 3). cbn. lia.
Defined.

Lemma validProblem_nonneg maxN p :
  validProblem maxN p ->
  0 <= operand1 p /\ 0 <= operand2 p /\ 0 <= answer p
  /\ operand1 p <= (match operation p with
                    | addition => answer p
                    | subtraction => operand1 p
                    end)
  /\ operand2 p <= (match operation p with
                    | addition => answer p
                    | subtraction => operand1 p
                    end)
  /\ answer p <= (match operation p with
                  | addition => answer p
                  | subtraction => operand1 p
                  end).
Proof. unfold validProblem. destruct (operation p); lia. Qed.

(** X3: the width of the layout. For a valid problem the number of
    columns is the digit count of the largest of the three numbers: of
    the answer for an addition, of the first operand for a subtraction. *)
Theorem decompose_width (maxN : Z) (p : MathProblem) :
  validProblem maxN p ->
  maxDigits (decompose p)
  = List.length (getDigits (match operation p with
                            | addition => answer p
                            | subtraction => operand1 p
                            end)).
Proof.
  intros V. destruct (validProblem_nonneg maxN p V)
    as (H1 & H2 & H3 & L1 & L2 & L3).
  pose proof (getDigits_length_mono _ _ (conj H1 L1)).
  pose proof (getDigits_length_mono _ _ (conj H2 L2)).
  pose proof (getDigits_length_mono _ _ (conj H3 L3)).
  unfold decompose. destruct (operation p); cbn [maxDigits]; lia.
Qed.

Lemma decompose_width_witness :
  validProblem 20 problem_12_minus_5
  /\ maxDigits (decompose problem_12_minus_5) = 2%nat.
Proof.
  assert (V : validProblem 20 problem_12_minus_5)
    by (unfold validProblem; cbn; lia).
  split; [exact V|].
  rewrite (decompose_width 20 problem_12_minus_5 V). reflexivity.
Defined.

Lemma additionPass_nth p1 p2 todo : forall i carry k c,
  nth_error (additionPass p1 p2 todo i carry) k = Some c ->
  placeIndex c = Z.of_nat (i + k) /\ placeName c = placeNameOf (i + k)
  /\ op1Digit c = JS.nullish (nth_error p1 (i + k)) 0
  /\ op2Digit c = JS.nullish (nth_error p2 (i + k)) 0.
Proof.
  induction todo as [|todo IH]; intros i carry k c E;
    cbn [additionPass] in E.
  - destruct k; discriminate.
  - destruct k as [|k]; cbn [nth_error] in E.
    + inversion E; subst; clear E. rewrite Nat.add_0_r.
      cbn [placeIndex placeName op1Digit op2Digit]. auto.
    + replace (i + S k)%nat with (S i + k)%nat by lia. eapply IH; eauto.
Qed.

Lemma subtractionPass_nth p1 p2 todo : forall i borrow k c,
  nth_error (subtractionPass p1 p2 todo i borrow) k = Some c ->
  sPlaceIndex c = Z.of_nat (i + k) /\ sPlaceName c = placeNameOf (i + k)
  /\ sOp1Digit c = JS.nullish (nth_error p1 (i + k)) 0
  /\ sOp2Digit c = JS.nullish (nth_error p2 (i + k)) 0.
Proof.
  induction todo as [|todo IH]; intros i borrow k c E;
    cbn [subtractionPass] in E.
  - destruct k; discriminate.
  - destruct k as [|k]; cbn [nth_error] in E.
    + inversion E; subst; clear E. rewrite Nat.add_0_r.
      cbn [sPlaceIndex sPlaceName sOp1Digit sOp2Digit]. auto.
    + replace (i + S k)%nat with (S i + k)%nat by lia. eapply IH; eauto.
Qed.

Lemma padded_digitAt n len i :
  JS.nullish (nth_error (padDigits (getDigits n) len) i) 0
  = digitAt (Z.abs n) i.
Proof. now rewrite padDigits_nullish, getDigits_digitAt. Qed.

(** The place a column is named after. *)
Lemma column_placeName (p : MathProblem) (i : nat) (c : Column) :
  columnAt (columns (decompose p)) i = Some c ->
  placeNameOfColumn c = placeNameOf i.
Proof.
  unfold columnAt, decompose.
  destruct (operation p); cbn [columns columnList]; rewrite nth_error_map;
    intros E.
  - destruct (nth_error (additionPass _ _ _ _ _) i) as [a|] eqn:F;
      [|discriminate].
    injection E as <-. now apply additionPass_nth in F.
  - destruct (nth_error (subtractionPass _ _ _ _ _) i) as [a|] eqn:F;
      [|discriminate].
    injection E as <-. now apply subtractionPass_nth in F.
Qed.

(** X4: what a column holds. In the decomposition of any problem, the
    column at index [i] has [placeIndex = i], the place name of [i], and
    as [op1Digit] and [op2Digit] the decimal digits at place [i] of the
    operands' absolute values (for a subtraction the digit of the first
    operand as written, before any borrow is taken off). *)
Theorem column_holds_operand_digits (p : MathProblem) (i : nat) (c : Column) :
  columnAt (columns (decompose p)) i = Some c ->
  placeIndexOf c = Z.of_nat i
  /\ placeNameOfColumn c = placeNameOf i
  /\ op1DigitOf c = digitAt (Z.abs (operand1 p)) i
  /\ op2DigitOf c = digitAt (Z.abs (operand2 p)) i.
Proof.
  unfold columnAt, decompose.
  destruct (operation p); cbn [columns columnList]; rewrite nth_error_map;
    intros E.
  - destruct (nth_error (additionPass _ _ _ _ _) i) as [a|] eqn:F;
      [|discriminate].
    inversion E; subst; clear E.
    destruct (additionPass_nth _ _ _ _ _ _ _ F) as (A & B & C & D).
    cbn [placeIndexOf placeNameOfColumn op1DigitOf op2DigitOf Nat.add] in *.
    rewrite A, B, C, D, !padded_digitAt. auto.
  - destruct (nth_error (subtractionPass _ _ _ _ _) i) as [a|] eqn:F;
      [|discriminate].
    inversion E; subst; clear E.
    destruct (subtractionPass_nth _ _ _ _ _ _ _ F) as (A & B & C & D).
    cbn [placeIndexOf placeNameOfColumn op1DigitOf op2DigitOf Nat.add] in *.
    rewrite A, B, C, D, !padded_digitAt. auto.
Qed.

Lemma column_holds_operand_digits_witness :
  columnAt (columns (decompose problem_12_minus_5)) 1
  = Some (SubCol (mkSubtractionColumnCalc 1 "tens" 1 0 1 false 0 0))
  /\ op1DigitOf (SubCol (mkSubtractionColumnCalc 1 "tens" 1 0 1 false 0 0))
     = digitAt (Z.abs (operand1 problem_12_minus_5)) 1.
Proof.
  split; [reflexivity|].
  apply (column_holds_operand_digits problem_12_minus_5 1 _ eq_refl).
Defined.

(** A list of decimal digits is the list of digits of the number it
    reads as. *)
Lemma reconstruct_nth (ds : list Z) :
  Forall (fun d => 0 <= d <= 9) ds ->
  forall i, nth i ds 0 = digitAt (reconstruct ds) i.
Proof.
  unfold digitAt.
  induction 1 as [|d ds Hd Hds IH]; intros i.
  - cbn [reconstruct]. rewrite Z.div_0_l by (apply Z.pow_nonzero; lia).
    now destruct i.
  - cbn [reconstruct]. destruct i as [|i]; cbn [nth].
    + change (Z.of_nat 0) with 0. rewrite Z.pow_0_r, Z.div_1_r.
      replace (d + 10 * reconstruct ds) with (d + reconstruct ds * 10) by lia.
      rewrite Z.mod_add by lia.
      symmetry. apply Z.mod_small. lia.
    + rewrite IH, Nat2Z.inj_succ, Z.pow_succ_r by lia.
      rewrite <- Z.div_div by (try apply Z.pow_pos_nonneg; lia).
      replace ((d + 10 * reconstruct ds) / 10) with (reconstruct ds);
        [reflexivity|].
      replace (d + 10 * reconstruct ds) with (d + reconstruct ds * 10) by lia.
      rewrite Z.div_add by lia.
      rewrite (Z.div_small d 10) by lia. lia.
Qed.

(** The digits the columns compute, for a valid problem: decimal digits
    that read as the answer, one per column. *)
Lemma decompose_value (maxN : Z) (p : MathProblem) :
  validProblem maxN p ->
  reconstruct (columnDigits (columns (decompose p))) = answer p
  /\ Forall (fun d => 0 <= d <= 9) (columnDigits (columns (decompose p))).
Proof.
  intros V. destruct (validProblem_nonneg maxN p V)
    as (H1 & H2 & H3 & L1 & L2 & L3).
  pose proof (getDigits_length_mono _ _ (conj H1 L1)) as M1.
  pose proof (getDigits_length_mono _ _ (conj H2 L2)) as M2.
  pose proof (getDigits_bound _ H1) as B1.
  pose proof (getDigits_bound _ H2) as B2.
  pose proof (getDigits_bound _ H3) as B3.
  unfold validProblem in V. unfold columnDigits, decompose.
  set (w := Nat.max (Nat.max (List.length (getDigits (operand1 p)))
                             (List.length (getDigits (operand2 p))))
                    (List.length (getDigits (answer p)))).
  pose proof (pow10_le (List.length (getDigits (operand1 p))) w ltac:(lia)).
  pose proof (pow10_le (List.length (getDigits (operand2 p))) w ltac:(lia)).
  pose proof (pow10_le (List.length (getDigits (answer p))) w ltac:(lia)).
  revert V.
  destruct (operation p); intros V; cbn [columns columnList];
    rewrite map_map; cbn [resultDigitOf].
  - destruct (additionPass_spec
                (padDigits (getDigits (operand1 p)) w)
                (padDigits (getDigits (operand2 p)) w)
                (operand1 p) (operand2 p)
                (fun i => padded_digit _ w i H1)
                (fun i => padded_digit _ w i H2) w 0%nat 0 ltac:(lia))
      as (Hlen & Hall & Hlink & Hval).
    set (cols := additionPass _ _ w 0 0) in *.
    change (Z.of_nat 0) with 0 in Hval.
    rewrite Z.pow_0_r, !Z.div_1_r in Hval.
    rewrite !Z.mod_small in Hval by lia.
    assert (Hdig : Forall (fun d => 0 <= d <= 9) (map resultDigit cols)).
    { apply Forall_map. eapply Forall_impl; [|exact Hall].
      intros c (_ & R & _). exact R. }
    pose proof (reconstruct_range _ Hdig) as HV.
    rewrite length_map, Hlen in HV.
    assert (Hbit : Forall (fun x => 0 <= x <= 1) (map carryOut cols)).
    { apply Forall_map. eapply Forall_impl; [|exact Hall].
      intros c (_ & _ & R). exact R. }
    pose proof (last_in_range _ 0 0 1 Hbit ltac:(lia)) as HL.
    assert (Hlast : List.last (map carryOut cols) 0 = 0) by nia.
    split; [|exact Hdig]. rewrite Hlast in Hval.
    change (reconstruct (map resultDigit cols) = answer p). lia.
  - destruct (subtractionPass_spec
                (padDigits (getDigits (operand1 p)) w)
                (padDigits (getDigits (operand2 p)) w)
                (operand1 p) (operand2 p)
                (fun i => padded_digit _ w i H1)
                (fun i => padded_digit _ w i H2) w 0%nat 0 ltac:(lia))
      as (Hlen & Hall & Hlink & Hval).
    set (cols := subtractionPass _ _ w 0 0) in *.
    change (Z.of_nat 0) with 0 in Hval.
    rewrite Z.pow_0_r, !Z.div_1_r in Hval.
    rewrite !Z.mod_small in Hval by lia.
    assert (Hdig : Forall (fun d => 0 <= d <= 9) (map sResultDigit cols)).
    { apply Forall_map. eapply Forall_impl; [|exact Hall].
      intros c (_ & _ & R). exact R. }
    pose proof (reconstruct_range _ Hdig) as HV.
    rewrite length_map, Hlen in HV.
    assert (Hbit : Forall (fun x => 0 <= x <= 1) (map borrowOut cols)).
    { apply Forall_map, Forall_forall. intros c _. unfold borrowOut.
      destruct (needsBorrow c); lia. }
    pose proof (last_in_range _ 0 0 1 Hbit ltac:(lia)) as HL.
    assert (Hlast : List.last (map borrowOut cols) 0 = 0) by nia.
    split; [|exact Hdig]. rewrite Hlast in Hval.
    change (reconstruct (map sResultDigit cols) = answer p). lia.
Qed.

(** X5: the result row the component renders and the digits the
    sequencer writes agree. For a valid problem, the column at index [i]
    computes the digit of the answer at place [i]; the cell [i] of
    [resultDigits], which the result row displays once that column is
    written, holds that same digit where the answer has one, and is
    blank ([null]) exactly in the leading places, where the column's
    digit is 0. *)
Theorem result_row_matches_columns (maxN : Z) (p : MathProblem)
    (i : nat) (c : Column) :
  validProblem maxN p ->
  columnAt (columns (decompose p)) i = Some c ->
  resultDigitOf c = digitAt (answer p) i
  /\ nth_error (resultDigits (decompose p)) i
     = Some (if (i <? List.length (getDigits (answer p)))%nat
             then Some (resultDigitOf c) else None)
  /\ ((List.length (getDigits (answer p)) <= i)%nat -> resultDigitOf c = 0).
Proof.
  intros V E. destruct (decompose_value maxN p V) as (Hv & Hd).
  destruct (validProblem_nonneg maxN p V) as (_ & _ & H3 & _).
  assert (D : resultDigitOf c = digitAt (answer p) i).
  { rewrite <- Hv, <- (reconstruct_nth _ Hd). unfold columnDigits.
    unfold columnAt in E. symmetry.
    erewrite nth_error_nth; [reflexivity|].
    rewrite nth_error_map, E. reflexivity. }
  assert (Hi : (i < maxDigits (decompose p))%nat).
  { destruct (decompose_columnList p) as (L & _).
    rewrite <- L. apply nth_error_Some. unfold columnAt in E. congruence. }
  assert (R : resultDigits (decompose p)
              = padDigits (getDigits (answer p)) (maxDigits (decompose p)))
    by (unfold decompose; destruct (operation p); reflexivity).
  assert (DA : digitAt (answer p) i = nth i (getDigits (answer p)) 0)
    by (rewrite getDigits_digitAt, Z.abs_eq by lia; reflexivity).
  split; [exact D|]. split.
  - rewrite R, padDigits_spec.
    destruct (i <? List.length (getDigits (answer p)))%nat eqn:F.
    + apply Nat.ltb_lt in F.
      rewrite nth_error_app1 by now rewrite length_map.
      rewrite nth_error_map, D, DA.
      destruct (nth_error (getDigits (answer p)) i) eqn:G.
      * cbn. do 2 f_equal. symmetry. now apply nth_error_nth.
      * apply nth_error_None in G. lia.
    + apply Nat.ltb_ge in F.
      rewrite nth_error_app2 by now rewrite length_map.
      rewrite length_map.
      destruct (nth_error (repeat None _) _) as [cell|] eqn:G.
      * apply nth_error_In, repeat_spec in G. now subst.
      * apply nth_error_None in G. rewrite repeat_length in G. lia.
  - intros F. rewrite D, DA. now apply nth_overflow.
Qed.

Lemma result_row_matches_columns_witness :
  (validProblem 20 problem_12_minus_5
   /\ columnAt (columns (decompose problem_12_minus_5)) 1
      = Some (SubCol (mkSubtractionColumnCalc 1 "tens" 1 0 1 false 0 0)))
  /\ nth_error (resultDigits (decompose problem_12_minus_5)) 1 = Some None.
Proof.
  assert (V : validProblem 20 problem_12_minus_5)
    by (unfold validProblem; cbn; lia).
  split; [split; [exact V | reflexivity]|].
  destruct (result_row_matches_columns 20 problem_12_minus_5 1 _ V eq_refl)
    as (_ & R & _).
  exact R.
Defined.

Lemma additionPass_head p1 p2 todo i carry c :
  nth_error (additionPass p1 p2 (S todo) i carry) 0 = Some c ->
  carryOut c
  = (JS.nullish (nth_error p1 i) 0 + JS.nullish (nth_error p2 i) 0 + carry)
    / 10.
Proof. cbn [additionPass nth_error]. intros E. now injection E as <-. Qed.

Lemma subtractionPass_head p1 p2 todo i borrow c :
  nth_error (subtractionPass p1 p2 (S todo) i borrow) 0 = Some c ->
  needsBorrow c
  = (JS.nullish (nth_error p1 i) 0 - borrow <? JS.nullish (nth_error p2 i) 0).
Proof. cbn [subtractionPass nth_error]. intros E. now injection E as <-. Qed.

(** The carry or borrow of the ones column, from the operands. *)
Lemma first_column (p : MathProblem) (c : Column) :
  0 <= operand1 p -> 0 <= operand2 p ->
  columnAt (columns (decompose p)) 0 = Some c ->
  match operation p, c with
  | addition, AddCol a =>
      carryOut a = (operand1 p mod 10 + operand2 p mod 10) / 10
  | subtraction, SubCol b =>
      needsBorrow b = (operand1 p mod 10 <? operand2 p mod 10)
  | _, _ => False
  end.
Proof.
  intros H1 H2. unfold columnAt, decompose.
  set (w := Nat.max _ _).
  assert (Hw : (1 <= w)%nat)
    by (pose proof (getDigits_nonempty (operand1 p)); lia).
  destruct w as [|w]; [lia|].
  destruct (operation p); cbn [columns columnList]; rewrite nth_error_map;
    intros E.
  - destruct (nth_error (additionPass _ _ _ _ _) 0) as [a|] eqn:F;
      [|discriminate].
    injection E as <-. apply additionPass_head in F. rewrite F.
    rewrite !padded_digit by assumption.
    change (Z.of_nat 0) with 0.
    now rewrite Z.pow_0_r, !Z.div_1_r, Z.add_0_r.
  - destruct (nth_error (subtractionPass _ _ _ _ _) 0) as [a|] eqn:F;
      [|discriminate].
    injection E as <-. apply subtractionPass_head in F. rewrite F.
    rewrite !padded_digit by assumption.
    change (Z.of_nat 0) with 0.
    now rewrite Z.pow_0_r, !Z.div_1_r, Z.sub_0_r.
Qed.

(** A sum of two digits carries when it reaches ten. *)
Lemma carries_from_ten (x : Z) : 0 <= x -> (0 <? x / 10) = (10 <=? x).
Proof.
  intros H. destruct (10 <=? x) eqn:G.
  - apply Z.leb_le in G. apply Z.ltb_lt. apply Z.div_str_pos. lia.
  - apply Z.leb_gt in G. apply Z.ltb_ge. rewrite Z.div_small; lia.
Qed.

(** X6: the [requiresCarry] flag the generator computes with
    [checkRequiresCarry] is the carry (or borrow) of the ones column of
    the decomposition, for non-negative operands. *)
Theorem requiresCarry_is_ones_column (p : MathProblem) (c : Column) :
  0 <= operand1 p -> 0 <= operand2 p ->
  columnAt (columns (decompose p)) 0 = Some c ->
  columnCarries c
  = checkRequiresCarry (operand1 p) (operand2 p) (operation p).
Proof.
  intros H1 H2 E. pose proof (first_column p c H1 H2 E) as F.
  pose proof (Z.mod_pos_bound (operand1 p) 10 ltac:(lia)).
  pose proof (Z.mod_pos_bound (operand2 p) 10 ltac:(lia)).
  destruct (operation p), c as [a|b]; try contradiction;
    cbn [columnCarries checkRequiresCarry]; rewrite F.
  - apply carries_from_ten. lia.
  - reflexivity.
Qed.

Lemma requiresCarry_is_ones_column_witness :
  (0 <= operand1 problem_7_plus_5 /\ 0 <= operand2 problem_7_plus_5
   /\ columnAt (columns (decompose problem_7_plus_5)) 0
      = Some (AddCol column_7_plus_5_ones))
  /\ columnCarries (AddCol column_7_plus_5_ones) = true.
Proof.
  split; [repeat split; cbn; lia|].
  apply (requiresCarry_is_ones_column problem_7_plus_5 _
           ltac:(cbn; lia) ltac:(cbn; lia) eq_refl).
Defined.

(** ** The sequencer: what the component shows *)

Section Layout.

Variable cs : Columns.

(** One event of a run keeps the state within the layout. *)
Lemma stepOk_withinLayout m e :
  stepOk cs m e -> withinLayout cs (mst m) ->
  withinLayout cs (mst (monStep m e)).
Proof.
  intros [_ H] (Hc & k & Hw & Hk & Hor).
  destruct e as [a| | |]; cbn [monStep mst applyEvent];
    try (split; [exact Hc | now exists k]).
  destruct H as [_ H].
  destruct a as [c|p|b|d|ds| |];
    cbn [actOk applyAction] in *;
    try (split; [exact Hc | now exists k]).
  - destruct H as (E & H0 & _ & Hlt & Hwr). split.
    + cbn [currentColumn]. lia.
    + exists (Z.to_nat c). cbn [writtenDigits currentColumn].
      split; [exact Hwr|]. split; [lia|]. left. lia.
  - destruct H as (_ & H0 & Hwr & col & Hcol & ->). split; [exact Hc|].
    exists (S (Z.to_nat (currentColumn (mst m)))).
    cbn [writtenDigits currentColumn]. split; [|split].
    + rewrite Hwr. symmetry. apply firstn_succ_nth.
      unfold columnDigits. unfold columnAt in Hcol.
      now rewrite nth_error_map, Hcol.
    + lia.
    + right. lia.
Qed.

Lemma Holds_withinLayout F tr : forall m,
  Holds (stepOk cs) F m tr -> withinLayout cs (mst m) ->
  withinLayout cs (mst (monAfter tr m)).
Proof.
  induction tr as [|e tr IH]; intros m; cbn [Holds monAfter fold_left].
  - auto.
  - intros [H1 H2] Hin. apply (IH _ H2).
    now apply stepOk_withinLayout.
Qed.

End Layout.

Lemma withinLayout_initState cs : withinLayout cs initState.
Proof.
  split; [cbn; lia|]. exists 0%nat. cbn. split; [reflexivity|].
  split; [lia|]. right. reflexivity.
Qed.

(** X7: the state the component renders stays within the layout at
    every moment of every run, whatever the world does. After any prefix
    of the trace, [currentColumn] is [-1] or the index of a column, so
    that [columns[currentColumn]] is defined whenever
    [currentColumn >= 0]; [writtenDigits] is a prefix of the columns'
    result digits; the result row shows the digit of every column
    before the current one and of no column after it; and the
    explanation bubble is shown exactly while a column is current and
    the run is not done. *)
Theorem rendered_state_within_layout (problem : MathProblem)
    (isCorrect : bool) (animationSpeed : AnimationSpeed)
    (onCompleteGiven speechEnabled : bool) (draw : Q) (w : World)
    (pre post : list Event) :
  trace (runAnimation problem isCorrect animationSpeed onCompleteGiven
                      speechEnabled draw) w = pre ++ post ->
  let cs := columns (decompose problem) in
  let s := stateAfter pre initState in
  -1 <= currentColumn s < Z.of_nat (maxDigits (decompose problem))
  /\ (0 <= currentColumn s -> exists col, currentCol cs s = Some col)
  /\ (exists k, writtenDigits s = firstn k (columnDigits cs))
  /\ (forall colIndex,
        (Z.of_nat colIndex < currentColumn s -> isWritten s colIndex = true)
        /\ (currentColumn s < Z.of_nat colIndex ->
            isWritten s colIndex = false))
  /\ showsExplanation cs s = (0 <=? currentColumn s) && negb (isDone s).
Proof.
  intros E cs s.
  pose proof (trace_holds problem isCorrect animationSpeed onCompleteGiven
                speechEnabled draw w) as H.
  rewrite E in H. apply Holds_prefix in H.
  apply Holds_withinLayout in H; [|apply withinLayout_initState].
  rewrite mst_monAfter in H. cbn [mst monInit] in H. fold s cs in H.
  destruct H as (Hc & k & Hw & Hk & Hor).
  destruct (decompose_columnList problem) as (Hlen & _). fold cs in Hlen.
  assert (Hcur : 0 <= currentColumn s -> exists col, currentCol cs s = Some col).
  { intros H0. unfold currentCol.
    destruct (currentColumn s <? 0) eqn:F; [apply Z.ltb_lt in F; lia|].
    unfold columnAt.
    destruct (nth_error (columnList cs) (Z.to_nat (currentColumn s)))
      as [col|] eqn:G; [now exists col|].
    apply nth_error_None in G. lia. }
  assert (Hlw : List.length (writtenDigits s) = k).
  { rewrite Hw. apply firstn_length_le. unfold columnDigits.
    now rewrite length_map. }
  split; [lia|]. split; [exact Hcur|]. split; [now exists k|]. split.
  - intros colIndex. unfold isWritten. rewrite Hlw. split; intros X.
    + apply Nat.ltb_lt. lia.
    + apply Nat.ltb_ge. lia.
  - unfold showsExplanation.
    destruct (0 <=? currentColumn s) eqn:F; [|reflexivity].
    apply Z.leb_le in F. destruct (Hcur F) as [col ->].
    now rewrite andb_true_r.
Qed.

Lemma rendered_state_within_layout_witness :
  exists post,
    trace (sampleRun false) silentWorld
    = [EvAct speechStop; EvSuspend (Timeout 600); EvResume 600 0;
       EvAct (setCurrentColumn 0)] ++ post
    /\ exists col,
         currentCol (columns (decompose problem_7_plus_5))
           (stateAfter [EvAct speechStop; EvSuspend (Timeout 600);
                        EvResume 600 0; EvAct (setCurrentColumn 0)]
                       initState)
         = Some col.
Proof.
  eexists. split; [vm_compute; reflexivity|].
  destruct (rendered_state_within_layout problem_7_plus_5 true normal true
              false 0 silentWorld
              [EvAct speechStop; EvSuspend (Timeout 600); EvResume 600 0;
               EvAct (setCurrentColumn 0)] _ eq_refl)
    as (_ & Hcol & _).
  apply Hcol. cbn. lia.
Defined.

(** ** The sequencer with narration off *)

Lemma timersOnly_pure {A : Type} (a : A) : timersOnly (Pure a).
Proof. intros w n c. cbn. auto. Qed.

Lemma timersOnly_bind {A B : Type} (p : Async A) (f : A -> Async B) :
  timersOnly p -> (forall a, timersOnly (f a)) -> timersOnly (bind p f).
Proof.
  intros Hp Hf w n c. destruct (Hp w n c) as [G T]. rewrite run_bind.
  destruct (run p w n c) as [tr1 [a n1 c1| | |]]; cbn [fst snd] in *; auto.
  destruct (Hf a w n1 c1) as [G2 T2].
  destruct (run (f a) w n1 c1) as [tr2 o]. cbn [fst snd] in *.
  split; [exact G2 | now apply Forall_app].
Qed.

Lemma timersOnly_perform (a : Action) : timersOnly (perform a).
Proof. intros w n c. cbn. split; [exact I | now repeat constructor]. Qed.

Lemma timersOnly_ifCancelledReturn : timersOnly ifCancelledReturn.
Proof. intros w n [|]; cbn; auto. Qed.

Lemma timersOnly_timeout (ms : Q) : timersOnly (await (Timeout ms)).
Proof.
  intros w n c. unfold await. cbn [run settle].
  destruct (cleanup (w n) && negb c); cbn; split; auto;
    now repeat constructor.
Qed.

Lemma timersOnly_speakAndWait speed text minWait :
  timersOnly (speakAndWait speed false text minWait).
Proof.
  unfold speakAndWait. cbn [andb].
  apply timersOnly_bind; [apply timersOnly_timeout|].
  intros _. apply timersOnly_pure.
Qed.

Ltac timers_only :=
  repeat first
    [ apply timersOnly_pure
    | apply timersOnly_perform
    | apply timersOnly_ifCancelledReturn
    | apply timersOnly_speakAndWait
    | apply timersOnly_timeout
    | apply timersOnly_bind; [|intros ?]
    | match goal with
      | |- timersOnly (if ?b then _ else _) => destruct b
      end ].

Lemma timersOnly_animateColumn problem speed baseTiming col :
  (col < maxDigits (decompose problem))%nat ->
  timersOnly (animateColumn problem speed false
                (columns (decompose problem)) baseTiming col).
Proof.
  intros Hlt. unfold animateColumn.
  destruct (decompose_columnList problem) as (Hlen & Htag & _).
  unfold columnAt.
  destruct (nth_error (columnList (columns (decompose problem))) col)
    as [column|] eqn:Ecol; [|apply nth_error_None in Ecol; lia].
  assert (Hwt : wellTagged problem column)
    by (rewrite Forall_forall in Htag; eapply Htag, nth_error_In; eauto).
  destruct (wellTagged_texts _ _ Hwt) as ([[[hl cl] cr] wr] & ->).
  timers_only.
Qed.

Lemma timersOnly_animateColumns problem speed baseTiming todo :
  forall col,
  (col + todo <= maxDigits (decompose problem))%nat ->
  timersOnly (animateColumns problem speed false
                (columns (decompose problem)) baseTiming todo col).
Proof.
  induction todo as [|todo IH]; intros col Hle; cbn [animateColumns].
  - apply timersOnly_pure.
  - apply timersOnly_bind; [apply timersOnly_animateColumn; lia|].
    intros _. apply IH. lia.
Qed.

(** X8: with narration off in the settings the sequencer runs on timers
    alone. In every world (whatever the speech manager and the browser
    do, whenever the effect is cleaned up) the run never calls
    [speechManager.speak], never throws and never stays suspended: it
    runs to its end or returns at a cancellation check. *)
Theorem muted_run_uses_timers_only (problem : MathProblem) (isCorrect : bool)
    (animationSpeed : AnimationSpeed) (onCompleteGiven : bool) (draw : Q)
    (w : World) :
  let p := runAnimation problem isCorrect animationSpeed onCompleteGiven
                        false draw in
  goesOn (outcome p w)
  /\ Forall (fun e => speaks e = false) (trace p w).
Proof.
  cbv zeta.
  enough (T : timersOnly (runAnimation problem isCorrect animationSpeed
                            onCompleteGiven false draw))
    by exact (T w 0%nat false).
  unfold runAnimation.
  repeat first
    [ apply timersOnly_animateColumns; cbn; lia
    | apply timersOnly_pure
    | apply timersOnly_perform
    | apply timersOnly_ifCancelledReturn
    | apply timersOnly_speakAndWait
    | apply timersOnly_timeout
    | apply timersOnly_bind; [|intros ?]
    | match goal with
      | |- timersOnly (if ?b then _ else _) => destruct b
      end ].
Qed.

Lemma totalElapsed_app tr1 tr2 :
  totalElapsed (tr1 ++ tr2) == totalElapsed tr1 + totalElapsed tr2.
Proof.
  induction tr1 as [|e tr1 IH]; cbn [app totalElapsed]; [ring|].
  destruct e; rewrite ?IH; ring.
Qed.

Lemma skipn_nth_error {A : Type} (l : list A) : forall n x,
  nth_error l n = Some x -> skipn n l = x :: skipn (S n) l.
Proof.
  induction l as [|y l IH]; intros [|n] x E; cbn in E; try discriminate.
  - now inversion E.
  - cbn [skipn]. now apply IH.
Qed.

Lemma inject_nat_succ (n : nat) :
  inject_Z (Z.of_nat (S n)) == inject_Z (Z.of_nat n) + 1.
Proof. rewrite Nat2Z.inj_succ. unfold Z.succ. now rewrite inject_Z_plus. Qed.

Section Schedule.

Variable w : World.
Hypothesis calm : noCleanup w.

Lemma takes_eq {A : Type} (p : Async A) (d d' : Q) :
  takes w p d -> d == d' -> takes w p d'.
Proof.
  intros H E n. destruct (H n) as (tr & a & n' & R & D).
  exists tr, a, n'. split; [exact R | now rewrite D].
Qed.

Lemma takes_pure {A : Type} (a : A) : takes w (Pure a) 0.
Proof. intros n. exists [], a, n. split; reflexivity. Qed.

Lemma takes_bind {A B : Type} (p : Async A) (f : A -> Async B) (d1 d2 : Q) :
  takes w p d1 -> (forall a, takes w (f a) d2) ->
  takes w (bind p f) (d1 + d2).
Proof.
  intros Hp Hf n. destruct (Hp n) as (tr1 & a & n1 & E1 & D1).
  destruct (Hf a n1) as (tr2 & b & n2 & E2 & D2).
  exists (tr1 ++ tr2), b, n2.
  rewrite (run_bind_finished p f w n false tr1 a n1 false E1), E2.
  split; [reflexivity|]. now rewrite totalElapsed_app, D1, D2.
Qed.

Lemma takes_perform (a : Action) : takes w (perform a) 0.
Proof. intros n. exists [EvAct a], tt, n. split; reflexivity. Qed.

Lemma takes_ifCancelledReturn : takes w ifCancelledReturn 0.
Proof. intros n. exists [], tt, n. split; reflexivity. Qed.

Lemma takes_timeout (ms : Q) : takes w (await (Timeout ms)) ms.
Proof.
  intros n. exists [EvSuspend (Timeout ms); EvResume ms 0], 0%Q, (S n).
  unfold await. cbn [run settle]. rewrite (calm n). cbn.
  split; [reflexivity | ring].
Qed.

Lemma takes_speakAndWait speed text minWait :
  takes w (speakAndWait speed false text minWait) minWait.
Proof.
  unfold speakAndWait. cbn [andb].
  eapply takes_eq.
  - eapply takes_bind; [apply takes_timeout | intros _; apply takes_pure].
  - ring.
Qed.

Ltac takes_steps :=
  repeat first
    [ apply takes_pure
    | apply takes_perform
    | apply takes_ifCancelledReturn
    | apply takes_speakAndWait
    | apply takes_timeout
    | eapply takes_bind; [|intros ?] ].

Lemma takes_animateColumn problem speed baseTiming col column :
  nth_error (columnList (columns (decompose problem))) col = Some column ->
  takes w (animateColumn problem speed false
             (columns (decompose problem)) baseTiming col)
        (baseTiming * ((33 # 10)
                       + (if columnCarries column then 12 # 10 else 0))).
Proof.
  intros Ecol. unfold animateColumn.
  destruct (decompose_columnList problem) as (Hlen & Htag & _).
  unfold columnAt. rewrite Ecol.
  assert (Hwt : wellTagged problem column)
    by (rewrite Forall_forall in Htag; eapply Htag, nth_error_In; eauto).
  destruct (wellTagged_texts _ _ Hwt) as ([[[hl cl] cr] wr] & ->).
  rewrite (wellTagged_carries _ _ Hwt).
  destruct (columnCarries column); destruct (JS.truthy wr);
    (eapply takes_eq; [takes_steps | ring]).
Qed.

Lemma takes_animateColumns problem speed baseTiming todo :
  forall col,
  (col + todo <= maxDigits (decompose problem))%nat ->
  takes w (animateColumns problem speed false
             (columns (decompose problem)) baseTiming todo col)
        (baseTiming
         * ((33 # 10) * inject_Z (Z.of_nat todo)
            + (12 # 10)
              * inject_Z (Z.of_nat (List.length
                  (filter columnCarries
                     (firstn todo
                        (skipn col
                           (columnList (columns (decompose problem)))))))))).
Proof.
  destruct (decompose_columnList problem) as (Hlen & _).
  induction todo as [|todo IH]; intros col Hle; cbn [animateColumns].
  - eapply takes_eq; [apply takes_pure|]. cbn [firstn filter List.length].
    change (inject_Z (Z.of_nat 0)) with 0%Q. ring.
  - destruct (nth_error (columnList (columns (decompose problem))) col)
      as [column|] eqn:Ecol; [|apply nth_error_None in Ecol; lia].
    eapply takes_eq.
    + eapply takes_bind;
        [apply (takes_animateColumn _ _ _ _ _ Ecol) | intros _; apply IH; lia].
    + rewrite (skipn_nth_error _ _ _ Ecol). cbn [firstn filter].
      rewrite inject_nat_succ.
      destruct (columnCarries column); cbn [List.length];
        rewrite ?inject_nat_succ; ring.
Qed.

Lemma takes_runAnimation problem isCorrect speed given draw :
  takes w (runAnimation problem isCorrect speed given false draw)
        (getDuration 600 speed
         * (2 + (33 # 10) * inject_Z (Z.of_nat (maxDigits (decompose problem)))
            + (12 # 10)
              * inject_Z (Z.of_nat
                  (carryCount (columns (decompose problem)))))).
Proof.
  destruct (decompose_columnList problem) as (Hlen & _).
  unfold runAnimation, carryCount. cbv zeta.
  pose proof (takes_animateColumns problem speed (getDuration 600 speed)
                (maxDigits (decompose problem)) 0%nat ltac:(lia)) as Hcols.
  cbn [skipn] in Hcols. rewrite <- Hlen, firstn_all, Hlen in Hcols.
  destruct given;
    (eapply takes_eq;
     [ repeat first
         [ apply Hcols
         | apply takes_pure
         | apply takes_perform
         | apply takes_ifCancelledReturn
         | apply takes_speakAndWait
         | apply takes_timeout
         | eapply takes_bind; [|intros ?] ]
     | ring ]).
Qed.

End Schedule.

(** X9: the schedule of a run with narration off. If the effect is never
    cleaned up, the run finishes, and the time it spends waiting is the
    base timing ([600 ms] times the speed factor) times
    [2 + 3.3 * maxDigits + 1.2 * (number of columns that carry or borrow)]:
    one base timing before the first column, [1 + 1.5 + 0.8] per
    column, [1.2] more for each carry or borrow phase, and one after
    [isDone] is set. *)
Theorem muted_run_schedule (problem : MathProblem) (isCorrect : bool)
    (animationSpeed : AnimationSpeed) (onCompleteGiven : bool) (draw : Q)
    (w : World) :
  noCleanup w ->
  let p := runAnimation problem isCorrect animationSpeed onCompleteGiven
                        false draw in
  (exists n, outcome p w = Finished tt n false)
  /\ totalElapsed (trace p w)
     == getDuration 600 animationSpeed
        * (2 + (33 # 10) * inject_Z (Z.of_nat (maxDigits (decompose problem)))
           + (12 # 10)
             * inject_Z (Z.of_nat
                 (carryCount (columns (decompose problem))))).
Proof.
  intros calm p.
  destruct (takes_runAnimation w calm problem isCorrect animationSpeed
              onCompleteGiven draw 0%nat) as (tr & [] & n & R & D).
  unfold outcome, trace. fold p in R. rewrite R. cbn [fst snd].
  split; [now exists n | exact D].
Qed.

Lemma muted_run_schedule_witness :
  noCleanup (calmWorld speakingManager 0)
  /\ totalElapsed (trace (sampleRun false) (calmWorld speakingManager 0))
     == 5880.
Proof.
  assert (C : noCleanup (calmWorld speakingManager 0))
    by (intros n; reflexivity).
  split; [exact C|].
  destruct (muted_run_schedule problem_7_plus_5 true normal true 0
              (calmWorld speakingManager 0) C) as [_ D].
  unfold sampleRun. rewrite D. vm_compute. reflexivity.
Defined.

(** ** The generator: draws and repetitions *)

Section GeneratorRuns.

Variable configs : QuizLevel -> LevelConfig.
Variable src : RandomSource.

Lemma generateProblem_draws (level : QuizLevel) (cur : nat) :
  snd (generateProblem configs level src cur) = (cur + 4)%nat.
Proof.
  unfold generateProblem, generateAdditionProblem,
    generateSubtractionProblem, getRandomOperation, getRandomInt,
    generateId, andThen, random, ret.
  repeat match goal with
         | |- context [match ?x with _ => _ end] => destruct x
         end; cbn [snd]; lia.
Qed.

Lemma uniqueLoop_run (level : QuizLevel) (count : nat) (left : nat) :
  forall problems cur,
  spaced problems ->
  let r := uniqueLoop configs level count left problems src cur in
  spaced (fst r)
  /\ (exists more, fst r = problems ++ more)
  /\ (List.length problems <= count ->
      List.length (fst r) <= count)%nat
  /\ exists calls,
       snd r = (cur + 4 * calls)%nat
       /\ (calls <= left)%nat
       /\ (List.length (fst r) <= List.length problems + calls)%nat.
Proof.
  induction left as [|left IH]; intros problems cur Hs; cbv zeta;
    cbn [uniqueLoop].
  - cbn [ret fst snd]. split; [exact Hs|].
    split; [exists []; now rewrite app_nil_r|]. split; [auto|].
    exists 0%nat. lia.
  - destruct (List.length problems <? count)%nat eqn:E.
    2:{ cbn [ret fst snd]. split; [exact Hs|].
        split; [exists []; now rewrite app_nil_r|]. split; [auto|].
        exists 0%nat. lia. }
    apply Nat.ltb_lt in E. rewrite andThen_run.
    pose proof (generateProblem_draws level cur) as Hd.
    destruct (generateProblem configs level src cur) as [np c1].
    cbn [fst snd] in Hd |- *. subst c1.
    match goal with
    | |- context [if ?k then problems ++ [np] else problems] =>
        destruct k eqn:K
    end.
    + assert (Hrec : existsb (fun p => isDuplicateProblem p np)
                             (recent problems) = false).
      { destruct (List.last (map Some problems) None) as [lastP|];
          [destruct (negb (isDuplicateProblem np lastP)); [|discriminate]|];
          now apply negb_true_iff in K. }
      assert (Hs' : spaced (problems ++ [np])).
      { intros i j a b Hij Ea Eb.
        assert (Hj : (j < List.length (problems ++ [np]))%nat)
          by (apply nth_error_Some; congruence).
        rewrite length_app in Hj. cbn [List.length] in Hj.
        destruct (Nat.lt_ge_cases j (List.length problems)) as [Hlt|Hge].
        - rewrite nth_error_app1 in Ea, Eb by lia.
          exact (Hs i j a b Hij Ea Eb).
        - assert (j = List.length problems) by lia. subst j.
          rewrite nth_error_app2, Nat.sub_diag in Eb by lia.
          cbn in Eb. inversion Eb; subst b.
          rewrite nth_error_app1 in Ea by lia.
          destruct (isDuplicateProblem a np) eqn:Dup; [|reflexivity].
          enough (X : existsb (fun p => isDuplicateProblem p np)
                              (recent problems) = true) by congruence.
          apply existsb_exists. exists a. split; [|exact Dup].
          unfold recent.
          replace i with ((List.length problems - 3)
                          + (i - (List.length problems - 3)))%nat in Ea
            by lia.
          rewrite <- nth_error_skipn in Ea.
          eapply nth_error_In; eauto. }
      destruct (IH (problems ++ [np]) (cur + 4)%nat Hs')
        as (A & (more & B) & C & calls & D1 & D2 & D3).
      split; [exact A|]. split.
      * exists ([np] ++ more). now rewrite B, <- app_assoc.
      * split.
        -- intros _. apply C. rewrite length_app. cbn [List.length]. lia.
        -- exists (S calls). rewrite length_app in D3. cbn [List.length] in D3.
           lia.
    + destruct (IH problems (cur + 4)%nat Hs)
        as (A & B & C & calls & D1 & D2 & D3).
      split; [exact A|]. split; [exact B|]. split; [exact C|].
      exists (S calls). lia.
Qed.

Lemma fillLoop_run (level : QuizLevel) (missing : nat) :
  forall problems cur,
  let r := fillLoop configs level missing problems src cur in
  (exists more, fst r = problems ++ more
                /\ List.length more = missing)
  /\ snd r = (cur + 4 * missing)%nat.
Proof.
  induction missing as [|missing IH]; intros problems cur; cbv zeta;
    cbn [fillLoop].
  - cbn [ret fst snd]. split; [|lia]. exists []. now rewrite app_nil_r.
  - rewrite andThen_run.
    pose proof (generateProblem_draws level cur) as Hd.
    destruct (generateProblem configs level src cur) as [np c1].
    cbn [fst snd] in Hd |- *. subst c1.
    destruct (IH (problems ++ [np]) (cur + 4)%nat) as ((more & A & B) & C).
    split; [|lia]. exists ([np] ++ more). rewrite A, <- app_assoc.
    split; [reflexivity|]. cbn [app List.length]. lia.
Qed.

Lemma spaced_nil : spaced [].
Proof. intros i j a b _ E. destruct i; discriminate. Qed.

Lemma generateQuiz_length (level : QuizLevel) (count cur : nat) :
  List.length (fst (generateQuiz configs level count src cur)) = count.
Proof.
  unfold generateQuiz. rewrite andThen_run.
  destruct (uniqueLoop_run level count (count * 10) [] cur spaced_nil)
    as (_ & _ & L & _).
  specialize (L ltac:(cbn; lia)).
  destruct (fillLoop_run level
              (count - List.length
                 (fst (uniqueLoop configs level count (count * 10) [] src cur)))
              (fst (uniqueLoop configs level count (count * 10) [] src cur))
              (snd (uniqueLoop configs level count (count * 10) [] src cur)))
    as ((more & A & B) & _).
  rewrite A, length_app, B. lia.
Qed.

End GeneratorRuns.

(** X10: [generateQuiz] always terminates within its attempt budget.
    For any configuration table, level, count [N] and any sequence of
    draws, it returns [N] problems after calling [generateProblem]
    between [N] and [11 * N] times, each call consuming exactly four
    draws of [Math.random()] (operation, two operands, id). *)
Theorem generateQuiz_draws (configs : QuizLevel -> LevelConfig)
    (level : QuizLevel) (N : nat) (src : RandomSource) (cur : nat) :
  List.length (fst (generateQuiz configs level N src cur)) = N
  /\ exists calls,
       snd (generateQuiz configs level N src cur) = (cur + 4 * calls)%nat
       /\ (N <= calls <= 11 * N)%nat.
Proof.
  split; [apply generateQuiz_length|].
  unfold generateQuiz. rewrite andThen_run.
  destruct (uniqueLoop_run configs src level N (N * 10) [] cur spaced_nil)
    as (_ & _ & L & calls & D1 & D2 & D3).
  specialize (L ltac:(cbn; lia)). cbn [List.length] in D3.
  set (u := uniqueLoop configs level N (N * 10) [] src cur) in *.
  destruct (fillLoop_run configs src level (N - List.length (fst u))
              (fst u) (snd u)) as (_ & C).
  exists (calls + (N - List.length (fst u)))%nat.
  rewrite C, D1. lia.
Qed.

(** X11: the first loop of [generateQuiz] never places a problem within
    three places of a duplicate of it (same operands and operation);
    only the problems the fallback loop appends once the attempts are
    used up are unchecked. The quiz is the problems of the first loop
    followed by those of the fallback, and if the first loop found all
    [N], no problem of the quiz repeats one of the three before it. *)
Theorem generateQuiz_spaced (configs : QuizLevel -> LevelConfig)
    (level : QuizLevel) (N : nat) (src : RandomSource) (cur : nat) :
  exists unique fallback,
    fst (generateQuiz configs level N src cur) = unique ++ fallback
    /\ unique = fst (uniqueLoop configs level N (N * 10) [] src cur)
    /\ spaced unique
    /\ List.length fallback = (N - List.length unique)%nat
    /\ (fallback = [] <-> List.length unique = N).
Proof.
  unfold generateQuiz. rewrite andThen_run.
  destruct (uniqueLoop_run configs src level N (N * 10) [] cur spaced_nil)
    as (S & _ & L & _).
  specialize (L ltac:(cbn; lia)).
  set (u := uniqueLoop configs level N (N * 10) [] src cur) in *.
  destruct (fillLoop_run configs src level (N - List.length (fst u))
              (fst u) (snd u)) as ((more & A & B) & _).
  exists (fst u), more. split; [exact A|]. split; [reflexivity|].
  split; [exact S|]. split; [exact B|]. split.
  - intros ->. cbn in B. lia.
  - intros E. rewrite E, Nat.sub_diag in B. now destruct more.
Qed.

(** ** Scores and the quiz store *)

Lemma percent_range (c t : Z) :
  0 <= c <= t -> 0 < t ->
  0 <= Math_round (inject_Z c / inject_Z t * 100) <= 100.
Proof.
  intros Hc Ht. unfold Math_round.
  assert (Ht' : (0 < inject_Z t)%Q)
    by (change 0%Q with (inject_Z 0); now rewrite <- Zlt_Qlt).
  assert (H0 : (0 <= inject_Z c / inject_Z t)%Q).
  { apply Qle_shift_div_l; [exact Ht'|]. rewrite Qmult_0_l.
    change 0%Q with (inject_Z 0). rewrite <- Zle_Qle. lia. }
  assert (H1 : (inject_Z c / inject_Z t <= 1)%Q).
  { apply Qle_shift_div_r; [exact Ht'|]. rewrite Qmult_1_l.
    rewrite <- Zle_Qle. lia. }
  set (x := (inject_Z c / inject_Z t)%Q) in *.
  split.
  - apply Z.le_trans with (Qfloor 0); [reflexivity|].
    apply Qfloor_resp_le. lra.
  - apply Z.le_trans with (Qfloor (100 + (1 # 2))); [|discriminate].
    apply Qfloor_resp_le. lra.
Qed.

(** X12: [calculatePercentage] gives a whole percentage between 0 and
    100 whenever [0 <= correct <= total]; it is 0 for an empty quiz
    ([total = 0], no division) and when no answer is correct, and 100
    when every answer of a non-empty quiz is correct. *)
Theorem calculatePercentage_range (correct total : Z) :
  0 <= correct <= total ->
  0 <= calculatePercentage correct total <= 100
  /\ (total = 0 -> calculatePercentage correct total = 0)
  /\ (correct = 0 -> calculatePercentage correct total = 0)
  /\ (0 < total -> correct = total ->
      calculatePercentage correct total = 100).
Proof.
  intros H. unfold calculatePercentage.
  destruct (total =? 0) eqn:E.
  - apply Z.eqb_eq in E. repeat split; intros; lia.
  - apply Z.eqb_neq in E. assert (Ht : 0 < total) by lia.
    pose proof (percent_range correct total H Ht) as R.
    assert (Ht' : (0 < inject_Z total)%Q)
      by (change 0%Q with (inject_Z 0); now rewrite <- Zlt_Qlt).
    split; [exact R|]. split; [lia|]. unfold Math_round. split.
    + intros ->. change (inject_Z 0) with 0%Q.
      assert (X : (0 / inject_Z total * 100 + (1 # 2) == 1 # 2)%Q)
        by (unfold Qdiv; ring).
      rewrite X. reflexivity.
    + intros _ ->.
      assert (X : (inject_Z total / inject_Z total * 100 + (1 # 2)
                   == 100 + (1 # 2))%Q) by (field; lra).
      rewrite X. reflexivity.
Qed.

Lemma calculatePercentage_range_witness :
  0 <= 10 <= 10 /\ calculatePercentage 10 10 = 100.
Proof.
  split; [lia|].
  apply (calculatePercentage_range 10 10 ltac:(lia)); [lia | reflexivity].
Defined.

Section StoreFacts.
Import QuizStore.

Variable configs : QuizLevel -> LevelConfig.

Lemma play_invariant (I : QuizState -> Prop) :
  (forall m s src cur, I s -> I (fst (move configs m s src cur))) ->
  forall ms s src cur, I s -> I (fst (play configs ms s src cur)).
Proof.
  intros Hstep. induction ms as [|m ms IH]; intros s src cur Hs;
    cbn [play]; [exact Hs|].
  rewrite andThen_run. apply IH, Hstep, Hs.
Qed.

Lemma submitAnswer_cases (ans now : Z) (s : QuizState) :
  (submitAnswer ans now s = (s, false)
   /\ (List.length (problems s) <= currentIndex s)%nat)
  \/ exists p,
       nth_error (problems s) (currentIndex s) = Some p
       /\ submitAnswer ans now s
          = (mkQuizState (level s) (mode s) (problems s) (currentIndex s)
               (answers s
                ++ [mkUserAnswer (id p) ans (validateAnswer p ans)
                      (since (problemStartTime s) now 0)])
               (isComplete s) (startTime s) (problemStartTime s)
               (totalAnswered s + 1)
               (if validateAnswer p ans then correctInSession s + 1
                else correctInSession s),
             validateAnswer p ans).
Proof.
  unfold submitAnswer.
  destruct (List.length (problems s) <=? currentIndex s)%nat eqn:E.
  - left. apply Nat.leb_le in E. now split.
  - apply Nat.leb_gt in E.
    destruct (nth_error (problems s) (currentIndex s)) as [p|] eqn:F.
    + right. now exists p.
    + apply nth_error_None in F. lia.
Qed.

Lemma nextProblem_cases (now : Z) (s : QuizState) src cur :
  let s' := fst (nextProblem configs now s src cur) in
  level s' = level s /\ mode s' = mode s /\ answers s' = answers s
  /\ totalAnswered s' = totalAnswered s
  /\ correctInSession s' = correctInSession s
  /\ startTime s' = startTime s.
Proof.
  unfold nextProblem.
  destruct (mode s); [|destruct (level s)];
    repeat match goal with
           | |- context [if ?b then _ else _] => destruct b
           end;
    rewrite ?andThen_run; cbn; auto 10.
Qed.

Lemma move_tallied m s src cur :
  tallied s -> tallied (fst (move configs m s src cur)).
Proof.
  intros [T C]. destruct m as [ans now|now]; cbn [move].
  - cbn [ret fst].
    destruct (submitAnswer_cases ans now s) as [[-> _]|(p & _ & ->)];
      cbn [fst]; [now split|].
    unfold tallied.
    cbn [totalAnswered correctInSession answers].
    rewrite filter_app, !length_app. cbn [filter List.length isCorrect].
    destruct (validateAnswer p ans); cbn [List.length]; lia.
  - destruct (nextProblem_cases now s src cur) as (_ & _ & A & B & D & _).
    unfold tallied. now rewrite A, B, D.
Qed.

Lemma startQuiz_fields lvl n md now src cur :
  let s := fst (startQuiz configs lvl n md now src cur) in
  level s = Some lvl /\ mode s = md /\ currentIndex s = 0%nat
  /\ answers s = [] /\ isComplete s = false
  /\ totalAnswered s = 0 /\ correctInSession s = 0
  /\ startTime s = Some now
  /\ List.length (problems s)
     = match md with standard => n | unlimited => 5%nat end.
Proof.
  unfold startQuiz. destruct md; rewrite andThen_run; cbn;
    repeat split; apply generateQuiz_length.
Qed.

Lemma filter_split_length {A : Type} (f : A -> bool) (l : list A) :
  (List.length (filter f l)
   + List.length (filter (fun a => negb (f a)) l))%nat = List.length l.
Proof.
  induction l as [|x l IH]; [reflexivity|]. cbn [filter].
  destruct (f x); cbn [negb List.length]; lia.
Qed.

(** X13: the counters of the store never drift from the answers. From
    [startQuiz], in either mode, through any sequence of [submitAnswer]
    and [nextProblem] calls (and for any draws of the generator),
    [totalAnswered] is the number of recorded answers and
    [correctInSession] the number of correct ones; so the results of an
    unlimited session count every answer once, as correct or incorrect,
    and its percentage lies between 0 and 100. *)
Theorem store_counters_match_answers (lvl : QuizLevel) (n : nat)
    (md : QuizMode) (now : Z) (ms : list Move) (src : RandomSource)
    (cur : nat) (later : Z) :
  let s := fst (andThen (startQuiz configs lvl n md now) (play configs ms)
                        src cur) in
  totalAnswered s = Z.of_nat (List.length (answers s))
  /\ correctInSession s
     = Z.of_nat (List.length (filter isCorrect (answers s)))
  /\ (md = unlimited ->
      let r := getResults later s in
      totalProblems r = Z.of_nat (List.length (answers s))
      /\ correctCount r + incorrectCount r = totalProblems r
      /\ incorrectCount r
         = Z.of_nat (List.length
                       (filter (fun a => negb (isCorrect a)) (answers s)))
      /\ 0 <= percentage r <= 100
      /\ List.length (detailedResults r) = List.length (answers s)).
Proof.
  cbv zeta. rewrite andThen_run.
  destruct (startQuiz_fields lvl n md now src cur)
    as (_ & Hm & _ & Ha & _ & Ht & Hc & _).
  set (s0 := fst (startQuiz configs lvl n md now src cur)) in *.
  set (c0 := snd (startQuiz configs lvl n md now src cur)).
  assert (T0 : tallied s0) by (unfold tallied; now rewrite Ht, Hc, Ha).
  pose proof (play_invariant tallied move_tallied ms s0 src c0 T0) as [T C].
  assert (M : mode (fst (play configs ms s0 src c0)) = md).
  { rewrite <- Hm.
    apply (play_invariant (fun s => mode s = mode s0)); [|reflexivity].
    intros m s src' cur' E. destruct m as [ans t|t]; cbn [move].
    - cbn [ret fst].
      destruct (submitAnswer_cases ans t s) as [[-> _]|(p & _ & ->)];
        exact E.
    - destruct (nextProblem_cases t s src' cur') as (_ & -> & _). exact E. }
  set (s := fst (play configs ms s0 src c0)) in *.
  split; [exact T|]. split; [exact C|].
  intros ->. unfold getResults. rewrite M.
  cbn [totalProblems correctCount incorrectCount percentage detailedResults].
  pose proof (filter_split_length isCorrect (answers s)) as FS.
  split; [exact T|]. split; [lia|]. split; [lia|]. split.
  - destruct (0 <? totalAnswered s) eqn:E; [|lia].
    apply Z.ltb_lt in E. apply percent_range; lia.
  - rewrite length_map, length_combine, length_seq. lia.
Qed.

End StoreFacts.

Section SessionFacts.
Import QuizStore.

Variable configs : QuizLevel -> LevelConfig.

Lemma play_app ms1 : forall ms2 s src cur,
  play configs (ms1 ++ ms2) s src cur
  = play configs ms2 (fst (play configs ms1 s src cur)) src
         (snd (play configs ms1 s src cur)).
Proof.
  induction ms1 as [|m ms1 IH]; intros ms2 s src cur; cbn [app play].
  - reflexivity.
  - rewrite !andThen_run. apply IH.
Qed.

Lemma nexts_app ms1 ms2 : nexts (ms1 ++ ms2) = (nexts ms1 + nexts ms2)%nat.
Proof. unfold nexts. now rewrite filter_app, length_app. Qed.

(** One move of an unlimited session. *)
Lemma move_unlimited m s src cur lvl :
  mode s = unlimited -> level s = Some lvl -> isComplete s = false ->
  (currentIndex s + 3 <= List.length (problems s))%nat ->
  let s' := fst (move configs m s src cur) in
  mode s' = unlimited /\ level s' = Some lvl /\ isComplete s' = false
  /\ (currentIndex s' + 3 <= List.length (problems s'))%nat
  /\ currentIndex s' = (currentIndex s + nexts [m])%nat
  /\ (exists more, problems s' = problems s ++ more)
  /\ List.length (problems s')
     = Nat.max (List.length (problems s)) (currentIndex s' + 3).
Proof.
  intros Hm Hl Hc Hb. destruct m as [ans now|now]; cbn [move]; cbv zeta.
  - cbn [ret fst].
    destruct (submitAnswer_cases ans now s) as [[-> _]|(p & _ & ->)];
      cbn [fst mode level isComplete currentIndex problems nexts filter
           List.length];
      rewrite Nat.add_0_r;
      (repeat split; auto; [exists []; now rewrite app_nil_r | lia]).
  - unfold nextProblem. rewrite Hm, Hl.
    destruct (Z.of_nat (List.length (problems s)) - 2
              <=? Z.of_nat (S (currentIndex s))) eqn:E.
    + apply Z.leb_le in E. rewrite andThen_run.
      cbn [ret fst mode level isComplete currentIndex problems nexts filter
           List.length].
      rewrite length_app. cbn [List.length].
      repeat split; auto; try lia. now eexists.
    + apply Z.leb_gt in E.
      cbn [ret fst mode level isComplete currentIndex problems nexts filter
           List.length].
      repeat split; auto; try lia. exists []. now rewrite app_nil_r.
Qed.

(** X14: an unlimited session never runs out of problems. After
    [startQuiz] in unlimited mode and any sequence of [submitAnswer]
    and [nextProblem] calls, the store is not complete,
    [currentIndex] is the number of [nextProblem] calls, at least two
    problems are buffered beyond the current one, so
    [getCurrentProblem] returns a problem (never [null]); the problems
    already generated are never changed, only appended to. *)
Theorem unlimited_session_never_runs_out (lvl : QuizLevel) (n : nat)
    (now : Z) (ms : list Move) (src : RandomSource) (cur : nat) :
  let s0 := fst (startQuiz configs lvl n unlimited now src cur) in
  let s := fst (andThen (startQuiz configs lvl n unlimited now)
                        (play configs ms) src cur) in
  isComplete s = false
  /\ currentIndex s = nexts ms
  /\ List.length (problems s) = Nat.max 5 (nexts ms + 3)
  /\ (exists more, problems s = problems s0 ++ more)
  /\ (exists p, getCurrentProblem s = Some p
                /\ nth_error (problems s) (nexts ms) = Some p).
Proof.
  cbv zeta. rewrite andThen_run.
  destruct (startQuiz_fields configs lvl n unlimited now src cur)
    as (Hl & Hm & Hi & _ & Hc & _ & _ & _ & Hlen).
  set (s0 := fst (startQuiz configs lvl n unlimited now src cur)) in *.
  set (c0 := snd (startQuiz configs lvl n unlimited now src cur)).
  assert (G : forall ms s src cur,
            mode s = unlimited -> level s = Some lvl ->
            isComplete s = false ->
            (currentIndex s + 3 <= List.length (problems s))%nat ->
            let s' := fst (play configs ms s src cur) in
            isComplete s' = false
            /\ (currentIndex s' + 3 <= List.length (problems s'))%nat
            /\ currentIndex s' = (currentIndex s + nexts ms)%nat
            /\ (exists more, problems s' = problems s ++ more)
            /\ List.length (problems s')
               = Nat.max (List.length (problems s)) (currentIndex s' + 3)).
  { clear. induction ms as [|m ms IH]; intros s src cur Hm Hl Hc Hb;
      cbv zeta; cbn [play].
    - cbn [ret fst nexts filter List.length]. rewrite Nat.add_0_r.
      repeat split; auto; [exists []; now rewrite app_nil_r | lia].
    - rewrite andThen_run.
      destruct (move_unlimited m s src cur lvl Hm Hl Hc Hb)
        as (Hm1 & Hl1 & Hc1 & Hb1 & Hi1 & (more1 & Hp1) & Hn1).
      destruct (IH _ src (snd (move configs m s src cur)) Hm1 Hl1 Hc1 Hb1)
        as (Hc2 & Hb2 & Hi2 & (more2 & Hp2) & Hn2).
      change (m :: ms) with ([m] ++ ms). rewrite nexts_app.
      split; [exact Hc2|]. split; [exact Hb2|]. split; [lia|]. split.
      + exists (more1 ++ more2). now rewrite Hp2, Hp1, app_assoc.
      + lia. }
  destruct (G ms s0 src c0 Hm Hl Hc ltac:(lia))
    as (Hc' & Hb' & Hi' & Hp' & Hn').
  rewrite Hi in Hi'. cbn [Nat.add] in Hi'.
  set (s := fst (play configs ms s0 src c0)) in *.
  split; [exact Hc'|]. split; [exact Hi'|]. split; [lia|].
  split; [exact Hp'|].
  unfold getCurrentProblem. rewrite Hc'. cbn [orb].
  destruct (List.length (problems s) <=? currentIndex s)%nat eqn:E;
    [apply Nat.leb_le in E; lia|].
  rewrite Hi'.
  destruct (nth_error (problems s) (nexts ms)) as [p|] eqn:F;
    [now exists p|].
  apply nth_error_None in F. lia.
Qed.

(** One move of a standard session that has made [k] calls of
    [nextProblem]. *)
Lemma move_standard m s src cur k :
  mode s = standard ->
  currentIndex s = Nat.min k (List.length (problems s) - 1) ->
  isComplete s = (Nat.max 1 (List.length (problems s)) <=? k)%nat ->
  let s' := fst (move configs m s src cur) in
  let k' := (k + nexts [m])%nat in
  mode s' = standard /\ problems s' = problems s
  /\ currentIndex s' = Nat.min k' (List.length (problems s) - 1)
  /\ isComplete s' = (Nat.max 1 (List.length (problems s)) <=? k')%nat.
Proof.
  intros Hm Hi Hc. destruct m as [ans now|now]; cbn [move]; cbv zeta.
  - cbn [ret fst nexts filter List.length]. rewrite Nat.add_0_r.
    destruct (submitAnswer_cases ans now s) as [[-> _]|(p & _ & ->)];
      cbn [fst mode problems isComplete currentIndex]; auto.
  - unfold nextProblem. rewrite Hm.
    cbn [nexts filter List.length].
    destruct (List.length (problems s) <=? S (currentIndex s))%nat eqn:E;
      cbn [ret fst mode problems isComplete currentIndex];
      (split; [first [exact Hm | reflexivity]|]); (split; [reflexivity|]).
    + apply Nat.leb_le in E. split; [lia|].
      symmetry. apply Nat.leb_le. lia.
    + apply Nat.leb_gt in E. split; [lia|].
      rewrite Hc.
      destruct (Nat.max 1 (List.length (problems s)) <=? k)%nat eqn:F.
      * apply Nat.leb_le in F. lia.
      * symmetry. apply Nat.leb_gt. lia.
Qed.

(** X15: a standard quiz presents its problems in order, one per
    [nextProblem], and completes after the last. After [startQuiz] with
    [N] questions and any sequence of [submitAnswer] and [nextProblem]
    calls, [k] of them [nextProblem]: the [N] problems are unchanged;
    the quiz is complete exactly when [k >= max(1, N)]; and until then
    [getCurrentProblem] is the problem at index [k]. *)
Theorem standard_session_presents_in_order (lvl : QuizLevel) (N : nat)
    (now : Z) (ms : list Move) (src : RandomSource) (cur : nat) :
  let s0 := fst (startQuiz configs lvl N standard now src cur) in
  let s := fst (andThen (startQuiz configs lvl N standard now)
                        (play configs ms) src cur) in
  problems s = problems s0
  /\ List.length (problems s) = N
  /\ isComplete s = (Nat.max 1 N <=? nexts ms)%nat
  /\ currentIndex s = Nat.min (nexts ms) (N - 1)
  /\ getCurrentProblem s
     = if (Nat.max 1 N <=? nexts ms)%nat then None
       else nth_error (problems s0) (nexts ms).
Proof.
  cbv zeta. rewrite andThen_run.
  destruct (startQuiz_fields configs lvl N standard now src cur)
    as (_ & Hm & Hi & _ & Hc & _ & _ & _ & Hlen).
  set (s0 := fst (startQuiz configs lvl N standard now src cur)) in *.
  set (c0 := snd (startQuiz configs lvl N standard now src cur)).
  assert (G : forall ms s src cur k,
            mode s = standard ->
            currentIndex s = Nat.min k (List.length (problems s) - 1) ->
            isComplete s
            = (Nat.max 1 (List.length (problems s)) <=? k)%nat ->
            let s' := fst (play configs ms s src cur) in
            let k' := (k + nexts ms)%nat in
            problems s' = problems s
            /\ currentIndex s' = Nat.min k' (List.length (problems s) - 1)
            /\ isComplete s'
               = (Nat.max 1 (List.length (problems s)) <=? k')%nat).
  { clear. induction ms as [|m ms IH]; intros s src cur k Hm Hi Hc;
      cbv zeta; cbn [play].
    - cbn [ret fst nexts filter List.length]. rewrite Nat.add_0_r. auto.
    - rewrite andThen_run.
      destruct (move_standard m s src cur k Hm Hi Hc)
        as (Hm1 & Hp1 & Hi1 & Hc1).
      rewrite <- Hp1 in Hi1, Hc1.
      destruct (IH _ src (snd (move configs m s src cur)) _ Hm1 Hi1 Hc1)
        as (Hp2 & Hi2 & Hc2).
      change (m :: ms) with ([m] ++ ms). rewrite nexts_app.
      rewrite Hp1 in Hp2, Hi2, Hc2. rewrite Nat.add_assoc. auto. }
  destruct (G ms s0 src c0 0%nat Hm ltac:(rewrite Hi; lia)
              ltac:(rewrite Hc; symmetry; apply Nat.leb_gt; lia))
    as (Hp' & Hi' & Hc').
  cbn [Nat.add] in Hi', Hc'. rewrite Hlen in Hi', Hc'.
  set (s := fst (play configs ms s0 src c0)) in *.
  split; [exact Hp'|]. split; [now rewrite Hp'|].
  split; [exact Hc'|]. split; [exact Hi'|].
  unfold getCurrentProblem. rewrite Hc', Hp', Hi', Hlen.
  destruct (Nat.max 1 N <=? nexts ms)%nat eqn:E; [reflexivity|].
  apply Nat.leb_gt in E. cbn [orb].
  replace (Nat.min (nexts ms) (N - 1)) with (nexts ms) by lia.
  destruct (N <=? nexts ms)%nat eqn:F; [|reflexivity].
  apply Nat.leb_le in F. symmetry. apply nth_error_None. lia.
Qed.

End SessionFacts.

(** ** The quiz page *)

Section PageFacts.
Import QuizStore QuizPage.

Variable configs : QuizLevel -> LevelConfig.















End PageFacts.


(** ** Narration texts and the speech manager *)

Lemma truthy_append_r (a b : string) :
  JS.truthy b = true -> JS.truthy (a ++ b)%string = true.
Proof.
  unfold JS.truthy. destruct a as [|c a]; cbn [append]; [auto|].
  intros _. reflexivity.
Qed.

(** X18: the completion announcement is never empty. For a draw of
    [Math.random()] in [0,1), [getCompletionSpeech] returns one of the
    four celebration sentences when the answer was correct (the index
    never leaves the array) and the sentence naming the answer
    otherwise; in both cases a non-empty text, so the sequencer narrates
    it whenever narration is on. *)
Theorem completion_speech_is_never_empty (draw : Q) (isCorrect : bool)
    (answer : Z) :
  (0 <= draw)%Q -> (draw < 1)%Q ->
  JS.truthy (getCompletionSpeech draw isCorrect answer) = true
  /\ (isCorrect = true ->
      In (getCompletionSpeech draw isCorrect answer)
         [ "Correct! Great job!"; "Yes! You got it right!";
           "Excellent work!"; "Perfect! Well done!" ]%string).
Proof.
  intros H0 H1. unfold getCompletionSpeech. destruct isCorrect.
  - pose proof (floor_scaled_range draw 4 H0 H1 ltac:(lia)) as R.
    cbn [List.length]. change (Z.of_nat 4) with 4.
    destruct (Qfloor (draw * inject_Z 4)) as [|p|p] eqn:E; [| |lia].
    + split; [reflexivity|]. intros _. cbn. auto.
    + assert (Hp : p = 1%positive \/ p = 2%positive \/ p = 3%positive)
        by lia.
      destruct Hp as [-> | [-> | ->]]; (split; [reflexivity|]); intros _;
        cbn; auto.
  - split; [reflexivity | discriminate].
Qed.

Lemma completion_speech_is_never_empty_witness :
  ((0 <= 0.99)%Q /\ (0.99 < 1)%Q)
  /\ JS.truthy (getCompletionSpeech 0.99 true 12) = true.
Proof.
  assert (A : (0 <= 0.99)%Q) by discriminate.
  assert (B : (0.99 < 1)%Q) by reflexivity.
  split; [now split|].
  exact (proj1 (completion_speech_is_never_empty 0.99 true 12 A B)).
Defined.

(** X19: every phase the sequencer narrates has a text. For a column of
    either kind and whatever its numbers, the highlight, calc and carry
    texts are non-empty, as is the write text of a subtraction; a phase
    name outside the four gives the empty text. (The one empty text of
    the four phases is the addition write text of a carrying column.) *)
Theorem phase_texts_are_never_empty (ph placeName : string)
    (op1Digit op2Digit carryIn sum resultDigit carryOut : Z)
    (needsBorrow : bool) (borrowedValue : Z) :
  (In ph ["highlight"; "calc"; "carry"]%string ->
   JS.truthy (getAdditionSpeechText ph placeName op1Digit op2Digit carryIn
                sum resultDigit carryOut) = true)
  /\ (In ph ["highlight"; "calc"; "carry"; "write"]%string ->
      JS.truthy (getSubtractionSpeechText ph placeName op1Digit op2Digit
                   carryIn needsBorrow borrowedValue resultDigit) = true)
  /\ (~ In ph ["highlight"; "calc"; "carry"; "write"]%string ->
      getAdditionSpeechText ph placeName op1Digit op2Digit carryIn sum
        resultDigit carryOut = ""%string
      /\ getSubtractionSpeechText ph placeName op1Digit op2Digit carryIn
           needsBorrow borrowedValue resultDigit = ""%string).
Proof.
  split; [|split].
  - intros [<-|[<-|[<-|[]]]]; unfold getAdditionSpeechText;
      cbn [String.eqb Ascii.eqb Bool.eqb];
      repeat match goal with
             | |- context [if ?b then _ else _] => destruct b
             end;
      repeat first [ reflexivity | apply truthy_append_r ].
  - intros [<-|[<-|[<-|[<-|[]]]]]; unfold getSubtractionSpeechText;
      cbn [String.eqb Ascii.eqb Bool.eqb];
      repeat match goal with
             | |- context [if ?b then _ else _] => destruct b
             end;
      repeat first [ reflexivity | apply truthy_append_r ].
  - intros N. cbn [In] in N.
    unfold getAdditionSpeechText, getSubtractionSpeechText.
    destruct (String.eqb ph "highlight") eqn:E1;
      [apply String.eqb_eq in E1; subst ph; exfalso; apply N; auto 6|].
    destruct (String.eqb ph "calc") eqn:E2;
      [apply String.eqb_eq in E2; subst ph; exfalso; apply N; auto 6|].
    destruct (String.eqb ph "carry") eqn:E3;
      [apply String.eqb_eq in E3; subst ph; exfalso; apply N; auto 6|].
    destruct (String.eqb ph "write") eqn:E4;
      [apply String.eqb_eq in E4; subst ph; exfalso; apply N; auto 6|].
    now split.
Qed.

(** X20: [speak], [isEnabled], [setEnabled] and [stop] agree. [speak]
    hands an utterance to the synthesizer (cancelling the one before)
    and leaves its promise pending exactly when [isEnabled()] is true;
    otherwise it makes no call and its promise is already resolved.
    After [setEnabled(false)], which cancels the speech in flight just as
    [stop] does, [speak] never reaches the synthesizer; after
    [setEnabled(true)] it does if and only if the browser has one. *)
Theorem speak_follows_isEnabled (m : SpeechManager) (text : string)
    (rate now : Q) :
  (isEnabled m = true <-> promise (speak m text rate now) = Pending)
  /\ (isEnabled m = true <->
      speakCalls m text rate = [synthCancel; synthSpeak text rate])
  /\ (isEnabled m = false <->
      promise (speak m text rate now)
        = Resolved (estimatedDuration text rate)
      /\ speakCalls m text rate = [])
  /\ (let off := setEnabled false m in
      isEnabled (fst off) = false /\ snd off = stop m
      /\ speakCalls (fst off) text rate = [])
  /\ (let on := setEnabled true m in
      isEnabled (fst on) = synth m /\ snd on = []).
Proof.
  destruct m as [[|] [|]];
    unfold isEnabled, speak, speakCalls, setEnabled, stop;
    cbn [synth enabled negb orb andb promise resolve fst snd];
    repeat split; try reflexivity; try discriminate;
    intros; try discriminate;
    repeat match goal with H : _ /\ _ |- _ => destruct H end;
    try discriminate; try reflexivity.
Qed.

(** ** The settings store *)

Section SettingsFacts.
Import SettingsStore.

Variable DEFAULT_SETTINGS : Settings.

Lemma step_inSync (act : Action) (a : App) :
  inSync a -> inSync (step DEFAULT_SETTINGS act a).
Proof.
  intros [S1 S2]. unfold inSync.
  destruct act as [| | speed | count | | | [v|v|v|v|v] |];
    cbn [step set setSound setSpeech setEnabled settings sound speech
         soundEnabled speechEnabled fst snd enabled];
    auto.
Qed.

Lemma step_synchronises (act : Action) (a : App) :
  synchronises act = true -> inSync (step DEFAULT_SETTINGS act a).
Proof.
  unfold inSync.
  destruct act as [| | speed | count | | | [v|v|v|v|v] |];
    try discriminate; intros _;
    cbn [step set setSound setSpeech setEnabled settings sound speech
         soundEnabled speechEnabled fst snd enabled];
    auto.
Qed.

Lemma run_inSync (acts : list Action) : forall a,
  inSync a -> inSync (run DEFAULT_SETTINGS acts a).
Proof.
  induction acts as [|act acts IH]; intros a H; [exact H|].
  cbn [run fold_left]. apply IH, step_inSync, H.
Qed.

(** X21: the sound and speech managers follow the settings. Once the
    persisted state has been rehydrated, or the settings reset, the
    flag [enabled] of the speech manager equals the setting
    [speechEnabled] (and that of the sound manager [soundEnabled]), and
    this stays so through every later action of the store: toggles,
    [updateSetting] with any key, speed, question count, reset. *)
Theorem managers_follow_settings (act : Action) (acts : list Action)
    (a : App) :
  synchronises act = true ->
  let a' := run DEFAULT_SETTINGS acts (step DEFAULT_SETTINGS act a) in
  sound a' = soundEnabled (settings a')
  /\ enabled (speech a') = speechEnabled (settings a')
  /\ isEnabled (speech a') = speechEnabled (settings a') && synth (speech a).
Proof.
  intros H. cbv zeta.
  pose proof (run_inSync acts _ (step_synchronises act a H)) as [S1 S2].
  split; [exact S1|]. split; [exact S2|].
  unfold isEnabled. rewrite S2. f_equal.
  assert (K : forall acts a0,
            synth (speech (run DEFAULT_SETTINGS acts a0))
            = synth (speech a0)).
  { clear. induction acts as [|x acts IH]; intros a0; [reflexivity|].
    change (run DEFAULT_SETTINGS (x :: acts) a0)
      with (run DEFAULT_SETTINGS acts (step DEFAULT_SETTINGS x a0)).
    rewrite IH.
    destruct x as [| | speed | count | | | [v|v|v|v|v] |]; reflexivity. }
  rewrite K.
  destruct act as [| | speed | count | | | [v|v|v|v|v] |]; reflexivity.
Qed.

(** X22: [setQuestionsPerQuiz] clamps the count to 5..20 and keeps a
    count already in that range; [updateSetting] with the key
    [questionsPerQuiz] stores its value as given, without the clamp. *)
Theorem setQuestionsPerQuiz_clamps (count : Z) (a : App) :
  let q := questionsPerQuiz
             (settings (step DEFAULT_SETTINGS (setQuestionsPerQuiz count) a)) in
  5 <= q <= 20
  /\ (5 <= count <= 20 -> q = count)
  /\ (count < 5 -> q = 5) /\ (20 < count -> q = 20)
  /\ questionsPerQuiz
       (settings (step DEFAULT_SETTINGS
                    (updateSetting (updQuestionsPerQuiz count)) a))
     = count.
Proof.
  cbn [step set settings questionsPerQuiz]. lia.
Qed.

End SettingsFacts.

Lemma managers_follow_settings_witness :
  SettingsStore.synchronises SettingsStore.rehydrated = true
  /\ enabled
       (SettingsStore.speech
          (SettingsStore.run
             (SettingsStore.mkSettings true true normal 10 true)
             [SettingsStore.toggleSpeech; SettingsStore.setQuestionsPerQuiz 7]
             (SettingsStore.step
                (SettingsStore.mkSettings true true normal 10 true)
                SettingsStore.rehydrated
                (SettingsStore.mkApp
                   (SettingsStore.mkSettings true false fast 5 true)
                   true (mkSpeechManager true true) []))))
     = true.
Proof.
  split; [reflexivity|].
  destruct (managers_follow_settings
              (SettingsStore.mkSettings true true normal 10 true)
              SettingsStore.rehydrated
              [SettingsStore.toggleSpeech; SettingsStore.setQuestionsPerQuiz 7]
              (SettingsStore.mkApp
                 (SettingsStore.mkSettings true false fast 5 true)
                 true (mkSpeechManager true true) [])
              eq_refl) as (_ & H & _).
  rewrite H. reflexivity.
Defined.

(** ** From the generator to the animation *)

Section QuizProblems.

Variable configs : QuizLevel -> LevelConfig.
Variable src : RandomSource.
Variable level : QuizLevel.
Variable P : MathProblem -> Prop.
Hypothesis generated : forall cur, P (fst (generateProblem configs level src cur)).

Lemma uniqueLoop_Forall (count left : nat) : forall problems cur,
  Forall P problems ->
  Forall P (fst (uniqueLoop configs level count left problems src cur)).
Proof.
  induction left as [|left IH]; intros problems cur H; cbn [uniqueLoop];
    [exact H|].
  destruct (List.length problems <? count)%nat; [|exact H].
  rewrite andThen_run. pose proof (generated cur) as G.
  destruct (generateProblem configs level src cur) as [np c1].
  cbn [fst snd] in *.
  match goal with
  | |- context [if ?k then problems ++ [np] else problems] => destruct k
  end; apply IH; [|exact H].
  apply Forall_app. split; [exact H | now constructor].
Qed.

Lemma fillLoop_Forall (missing : nat) : forall problems cur,
  Forall P problems ->
  Forall P (fst (fillLoop configs level missing problems src cur)).
Proof.
  induction missing as [|missing IH]; intros problems cur H; cbn [fillLoop];
    [exact H|].
  rewrite andThen_run. pose proof (generated cur) as G.
  destruct (generateProblem configs level src cur) as [np c1].
  cbn [fst snd] in *. apply IH.
  apply Forall_app. split; [exact H | now constructor].
Qed.

Lemma generateQuiz_Forall (count cur : nat) :
  Forall P (fst (generateQuiz configs level count src cur)).
Proof.
  unfold generateQuiz. rewrite andThen_run.
  apply fillLoop_Forall, uniqueLoop_Forall. constructor.
Qed.

End QuizProblems.

Lemma generateProblem_flag configs level src cur :
  let p := fst (generateProblem configs level src cur) in
  requiresCarry p
  = checkRequiresCarry (operand1 p) (operand2 p) (operation p).
Proof.
  unfold generateProblem, generateAdditionProblem,
    generateSubtractionProblem, getRandomOperation, getRandomInt,
    generateId, andThen, random, ret.
  repeat match goal with
         | |- context [match ?x with _ => _ end] => destruct x
         end; reflexivity.
Qed.

Lemma placeNameOf_named (i : nat) :
  (i < 4)%nat -> In (placeNameOf i) PLACE_NAMES.
Proof.
  intros H. destruct i as [|[|[|[|i]]]]; [| | | |lia]; cbn; auto.
Qed.

(** What the animation of a valid problem with numbers up to 9999
    relies on. *)
Lemma valid_problem_animates (maxN : Z) (p : MathProblem) :
  validProblem maxN p -> maxN <= 9999 ->
  reconstruct (columnDigits (columns (decompose p))) = answer p
  /\ (1 <= maxDigits (decompose p) <= 4)%nat
  /\ (forall i c, columnAt (columns (decompose p)) i = Some c ->
        In (placeNameOfColumn c) PLACE_NAMES
        /\ 0 <= resultDigitOf c <= 9)
  /\ exists c, columnAt (columns (decompose p)) 0 = Some c
               /\ columnCarries c
                  = checkRequiresCarry (operand1 p) (operand2 p)
                      (operation p).
Proof.
  intros V Hmax. destruct (decompose_value maxN p V) as [Hv Hd].
  destruct (decompose_columnList p) as (Hlen & _ & H1).
  destruct (validProblem_nonneg maxN p V) as (N1 & N2 & N3 & _).
  assert (Hw : (maxDigits (decompose p) <= 4)%nat).
  { assert (B : forall x, 0 <= x <= 9999 ->
                (List.length (getDigits x) <= 4)%nat).
    { intros x Hx. change 4%nat with (List.length (getDigits 9999)).
      now apply getDigits_length_mono. }
    unfold validProblem in V.
    assert (B1 : 0 <= operand1 p <= 9999) by lia.
    assert (B2 : 0 <= operand2 p <= 9999) by lia.
    assert (B3 : 0 <= answer p <= 9999) by (destruct (operation p); lia).
    pose proof (B _ B1). pose proof (B _ B2). pose proof (B _ B3).
    unfold decompose. destruct (operation p); cbn [maxDigits]; lia. }
  split; [exact Hv|]. split; [lia|]. split.
  - intros i c E.
    assert (Hi : (i < maxDigits (decompose p))%nat).
    { rewrite <- Hlen. apply nth_error_Some. unfold columnAt in E.
      congruence. }
    rewrite (column_placeName p i c E). split.
    + apply placeNameOf_named. lia.
    + rewrite Forall_forall in Hd. apply Hd. unfold columnDigits.
      apply in_map. unfold columnAt in E. eapply nth_error_In; eauto.
  - unfold columnAt.
    destruct (nth_error (columnList (columns (decompose p))) 0)
      as [c|] eqn:E; [|apply nth_error_None in E; lia].
    exists c. split; [reflexivity|].
    pose proof (first_column p c N1 N2 E) as F.
    pose proof (Z.mod_pos_bound (operand1 p) 10 ltac:(lia)).
    pose proof (Z.mod_pos_bound (operand2 p) 10 ltac:(lia)).
    destruct (operation p), c as [a|b]; try contradiction;
      cbn [columnCarries checkRequiresCarry]; rewrite F;
      [apply carries_from_ten; lia | reflexivity].
Qed.

(** X23: every problem of a generated quiz is one the animation solves
    correctly. For each level of [LEVEL_CONFIGS], any count and any
    draws in [0,1), every problem of [generateQuiz] decomposes into one
    to four columns whose result digits, each in [0..9], read back as
    the problem's answer; every column has a name from [PLACE_NAMES]
    (the fallback [`place ${i}`] is never used); and the problem's
    [requiresCarry] flag is whether its ones column carries or
    borrows. *)
Theorem generated_quiz_is_animated_correctly (level : QuizLevel) (N : nat)
    (src : RandomSource) (cur : nat) :
  (forall i, (0 <= src i)%Q /\ (src i < 1)%Q) ->
  Forall (fun p =>
    reconstruct (columnDigits (columns (decompose p))) = answer p
    /\ (1 <= maxDigits (decompose p) <= 4)%nat
    /\ (forall i c, columnAt (columns (decompose p)) i = Some c ->
          In (placeNameOfColumn c) PLACE_NAMES
          /\ 0 <= resultDigitOf c <= 9)
    /\ exists c, columnAt (columns (decompose p)) 0 = Some c
                 /\ requiresCarry p = columnCarries c)
    (fst (generateQuiz LEVEL_CONFIGS level N src cur)).
Proof.
  intros Hsrc. apply generateQuiz_Forall. intros c0.
  assert (Hmax : 0 <= maxNumber (LEVEL_CONFIGS level) <= 9999)
    by (destruct level; cbn; lia).
  pose proof (generateProblem_valid LEVEL_CONFIGS src Hsrc level c0
                (proj1 Hmax)) as V.
  pose proof (generateProblem_flag LEVEL_CONFIGS level src c0) as F.
  cbv zeta in F.
  destruct (valid_problem_animates _ _ V (proj2 Hmax))
    as (A & B & C & c & D & E).
  split; [exact A|]. split; [exact B|]. split; [exact C|].
  exists c. split; [exact D|]. congruence.
Qed.

Lemma generated_quiz_is_animated_correctly_witness :
  (forall i, (0 <= constantSource 0.5 i)%Q /\ (constantSource 0.5 i < 1)%Q)
  /\ Forall (fun p =>
       reconstruct (columnDigits (columns (decompose p))) = answer p)
       (fst (generateQuiz LEVEL_CONFIGS mixed_100 3 (constantSource 0.5)
                          0%nat)).
Proof.
  assert (H : forall i, (0 <= constantSource 0.5 i)%Q
                        /\ (constantSource 0.5 i < 1)%Q)
    by (intros i; split; reflexivity || discriminate).
  split; [exact H|].
  eapply Forall_impl;
    [|exact (generated_quiz_is_animated_correctly mixed_100 3
               (constantSource 0.5) 0%nat H)].
  intros p (A & _). exact A.
Defined.

(** ** The sequencer: the state a finished run leaves *)

Lemma Holds_final P F tr : forall m, Holds P F m tr -> F (monAfter tr m).
Proof.
  induction tr as [|e tr IH]; intros m; cbn [Holds monAfter fold_left];
    [auto|].
  intros [_ H]. exact (IH _ H).
Qed.

Section FinishedRun.

Variable problem : MathProblem.
Variable isCorrect : bool.
Variable animationSpeed : AnimationSpeed.
Variable onCompleteGiven : bool.
Variable speechEnabled : bool.
Variable draw : Q.

Local Abbreviation cs := (columns (decompose problem)).

(** Every run that reaches its end has set [isDone] with all digits
    written, and has called the callback if there is one. *)
Lemma runAnimation_checked_final :
  checked cs monInit
    (runAnimation problem isCorrect animationSpeed onCompleteGiven
                  speechEnabled draw)
    (fun _ m =>
       isDone (mst m) = true
       /\ writtenDigits (mst m) = columnDigits cs
       /\ currentColumn (mst m)
          = Z.of_nat (List.length (columnList cs)) - 1
       /\ phase (mst m) = write
       /\ completions m = (if onCompleteGiven then 1 else 0)%nat
       /\ cancelSeen m = false).
Proof.
  unfold runAnimation.
  destruct (decompose_columnList problem) as (Hlen & _ & Hpos).
  rewrite <- Hlen.
  apply checked_bind, checked_perform.
  { split; [intros X; discriminate|]. split; reflexivity. }
  cbv beta. apply checked_bind, checked_await_timeout.
  { unfold endOk. cbn. discriminate. }
  intros v m1 R1. pose proof (resumed_endOk _ _ R1) as Hend1.
  destruct R1 as (Hs1 & Hk1 & _ & _). cbn in Hs1, Hk1.
  apply checked_bind, checked_ifCancelledReturn; [exact Hend1|].
  intros Hc1.
  apply checked_bind, checked_animateColumns.
  { unfold betweenColumns. rewrite Hs1. cbn. repeat split; auto.
    intros X. now elim X. }
  { reflexivity. }
  cbn [Nat.add]. intros m2 (Hc2 & Hend2 & Hk2 & Hd2 & Hcur2 & Hwr2 & Hph2).
  assert (Hall : writtenDigits (mst m2) = columnDigits cs).
  { rewrite Hwr2. apply firstn_all2. unfold columnDigits.
    now rewrite length_map. }
  apply checked_bind, checked_perform.
  { split; [side_step|]. split; [exact Hc2|]. cbn [actOk].
    repeat split; auto. apply Hph2. lia. }
  cbv beta. apply checked_bind, checked_speakAndWait;
    [unfold endOk; cbn; discriminate | exact Hc2 |].
  intros m3 R3. pose proof (resumed_endOk _ _ R3) as Hend3.
  destruct R3 as (Hs3 & Hk3 & _ & _). cbn in Hs3, Hk3.
  rewrite Hk2 in Hk3.
  apply checked_bind, checked_ifCancelledReturn; [exact Hend3|].
  intros Hc3. destruct onCompleteGiven.
  - apply checked_perform.
    + split; [side_step|]. split; [exact Hc3|]. cbn [actOk].
      rewrite Hs3. now split.
    + cbn [monStep mst applyEvent applyAction completions cancelSeen].
      rewrite Hs3, Hk3. cbn. repeat split; auto. apply Hph2. lia.
  - apply checked_pure. rewrite Hs3, Hk3. cbn. repeat split; auto.
    apply Hph2. lia.
Qed.

End FinishedRun.

(** X24: a run that reaches its end has solved the problem on screen.
    For a valid problem, in any world, if [runAnimation] runs to its
    end (it is neither cancelled at a check nor left waiting for
    speech), then in the component's final state [isDone] is set, the
    last column is current and in its write phase, [writtenDigits] holds
    exactly one digit per column and these digits, ones first, read as
    [problem.answer]; and the callback, if one was given, has been
    called exactly once. *)
Theorem finished_run_shows_the_answer (maxN : Z) (problem : MathProblem)
    (isCorrect : bool) (animationSpeed : AnimationSpeed)
    (onCompleteGiven speechEnabled : bool) (draw : Q) (w : World)
    (n : nat) (c : bool) :
  validProblem maxN problem ->
  let p := runAnimation problem isCorrect animationSpeed onCompleteGiven
                        speechEnabled draw in
  outcome p w = Finished tt n c ->
  let s := stateAfter (trace p w) initState in
  c = false
  /\ isDone s = true
  /\ phase s = write
  /\ currentColumn s = Z.of_nat (maxDigits (decompose problem)) - 1
  /\ List.length (writtenDigits s) = maxDigits (decompose problem)
  /\ reconstruct (writtenDigits s) = answer problem
  /\ countComplete (trace p w) = (if onCompleteGiven then 1 else 0)%nat.
Proof.
  intros V p O s.
  pose proof (runAnimation_checked_final problem isCorrect animationSpeed
                onCompleteGiven speechEnabled draw w 0%nat) as H.
  apply Holds_final in H. cbn [cancelSeen monInit] in H.
  unfold outcome in O. fold p in H. rewrite O in H.
  destruct H as (Hc & Hd & Hw & Hcur & Hph & Hk & Hcs).
  rewrite mst_monAfter in Hd, Hw, Hcur, Hph. cbn [mst monInit] in *.
  change (fst (run p w 0 false)) with (trace p w) in *. fold s in Hd, Hw, Hcur, Hph.
  destruct (decompose_columnList problem) as (Hlen & _).
  destruct (decompose_value maxN problem V) as [Hv _].
  rewrite completions_monAfter in Hk. cbn [completions monInit Nat.add] in Hk.
  split; [congruence|]. split; [exact Hd|]. split; [exact Hph|].
  split; [now rewrite Hcur, Hlen|]. split.
  - rewrite Hw. unfold columnDigits. now rewrite length_map.
  - split; [now rewrite Hw | exact Hk].
Qed.

Lemma finished_run_shows_the_answer_witness :
  (validProblem 20 problem_7_plus_5
   /\ outcome (sampleRun false) silentWorld = Finished tt 9 false)
  /\ reconstruct
       (writtenDigits
          (stateAfter (trace (sampleRun false) silentWorld) initState))
     = 12.
Proof.
  assert (V : validProblem 20 problem_7_plus_5)
    by (unfold validProblem; cbn; lia).
  assert (O : outcome (sampleRun false) silentWorld = Finished tt 9 false)
    by (vm_compute; reflexivity).
  split; [now split|].
  destruct (finished_run_shows_the_answer 20 problem_7_plus_5 true normal
              true false 0 silentWorld 9 false V O)
    as (_ & _ & _ & _ & _ & R & _).
  exact R.
Defined.

(** ** Times on the results page *)

(** X25: [formatTime] splits a non-negative time into whole minutes and
    seconds below 60: for [s = floor(ms / 1000)] it shows
    [`${m}m ${r}s`] with [s = 60 * m + r] and [0 <= r < 60] from one
    minute on, and [`${s}s`], with [s < 60], below one minute. *)
Theorem formatTime_minutes_and_seconds (ms : Z) :
  0 <= ms ->
  exists m r,
    ms / 1000 = 60 * m + r /\ 0 <= r < 60 /\ 0 <= m
    /\ formatTime ms
       = if 0 <? m
         then (JS.show m ++ "m " ++ JS.show r ++ "s")%string
         else (JS.show r ++ "s")%string.
Proof.
  intros H. unfold formatTime. cbv zeta.
  assert (Hs : 0 <= ms / 1000) by (apply Z.div_pos; lia).
  rewrite Z.rem_mod_nonneg by lia.
  pose proof (Z.div_mod (ms / 1000) 60 ltac:(lia)) as D.
  pose proof (Z.mod_pos_bound (ms / 1000) 60 ltac:(lia)) as B.
  assert (Hm : 0 <= ms / 1000 / 60) by (apply Z.div_pos; lia).
  exists (ms / 1000 / 60), ((ms / 1000) mod 60).
  split; [exact D|]. split; [exact B|]. split; [exact Hm|].
  destruct (0 <? ms / 1000 / 60) eqn:E; [reflexivity|].
  apply Z.ltb_ge in E.
  replace ((ms / 1000) mod 60) with (ms / 1000) by lia. reflexivity.
Qed.

Lemma formatTime_minutes_and_seconds_witness :
  0 <= 125000
  /\ exists m r,
       125000 / 1000 = 60 * m + r /\ 0 <= r < 60 /\ 0 <= m
       /\ formatTime 125000
          = if 0 <? m
            then (JS.show m ++ "m " ++ JS.show r ++ "s")%string
            else (JS.show r ++ "s")%string.
Proof.
  split; [lia|]. apply (formatTime_minutes_and_seconds 125000). lia.
Defined.

(** ** The number pad *)

Section PadFacts.
Import NumberPad.

Lemma show_digit (d : Z) :
  0 <= d <= 9 ->
  exists ch, JS.show d = String ch EmptyString
             /\ isDigit ch = true /\ digitValue ch = d.
Proof.
  intros H.
  assert (C : d = 0 \/ d = 1 \/ d = 2 \/ d = 3 \/ d = 4 \/ d = 5 \/ d = 6
              \/ d = 7 \/ d = 8 \/ d = 9) by lia.
  repeat (destruct C as [-> | C]; [eexists; repeat split; reflexivity|]).
  subst. eexists; repeat split; reflexivity.
Qed.

Lemma padButtons_digits (num : Z) : In num padButtons -> 0 <= num <= 9.
Proof. unfold padButtons. cbn [In]. lia. Qed.

Lemma digitValue_range (c : ascii) :
  isDigit c = true -> 0 <= digitValue c <= 9.
Proof.
  unfold isDigit, digitValue. intros H. apply andb_prop in H.
  destruct H as [A B]. apply Nat.leb_le in A. apply Nat.leb_le in B. lia.
Qed.

Lemma allDigits_app (a b : string) :
  allDigits (a ++ b) = allDigits a && allDigits b.
Proof.
  induction a as [|c a IH]; cbn [append allDigits]; [reflexivity|].
  now rewrite IH, andb_assoc.
Qed.

Lemma length_append (a b : string) :
  String.length (a ++ b) = (String.length a + String.length b)%nat.
Proof.
  induction a as [|c a IH]; cbn [append String.length]; [reflexivity|].
  now rewrite IH.
Qed.

Lemma parseDigits_app (a b : string) : forall acc,
  allDigits a = true ->
  parseDigits (a ++ b) acc = parseDigits b (parseDigits a acc).
Proof.
  induction a as [|c a IH]; intros acc H; cbn [append parseDigits];
    [reflexivity|].
  cbn [allDigits] in H. apply andb_prop in H. destruct H as [Hc Ha].
  rewrite Hc. now apply IH.
Qed.

Lemma parseDigits_range (s : string) : forall acc,
  allDigits s = true -> 0 <= acc ->
  10 ^ Z.of_nat (String.length s) * acc <= parseDigits s acc
  < 10 ^ Z.of_nat (String.length s) * (acc + 1).
Proof.
  induction s as [|c s IH]; intros acc H Hacc;
    cbn [parseDigits String.length].
  - change (Z.of_nat 0) with 0. rewrite Z.pow_0_r. lia.
  - cbn [allDigits] in H. apply andb_prop in H. destruct H as [Hc Hs].
    rewrite Hc. pose proof (digitValue_range c Hc) as R.
    specialize (IH (10 * acc + digitValue c) Hs ltac:(lia)).
    rewrite Nat2Z.inj_succ, Z.pow_succ_r by lia.
    assert (0 < 10 ^ Z.of_nat (String.length s))
      by (apply Z.pow_pos_nonneg; lia).
    nia.
Qed.

Lemma allDigits_dropLast (s : string) :
  allDigits s = true -> allDigits (dropLast s) = true.
Proof.
  induction s as [|c s IH]; [reflexivity|]. cbn [allDigits dropLast].
  intros H. apply andb_prop in H. destruct H as [Hc Hs].
  destruct s as [|c' s']; [reflexivity|].
  cbn [allDigits]. rewrite Hc. exact (IH Hs).
Qed.

Lemma length_dropLast (s : string) :
  (String.length (dropLast s) <= String.length s)%nat.
Proof.
  induction s as [|c s IH]; [cbn; lia|]. cbn [dropLast].
  destruct s as [|c' s']; cbn [String.length] in *; lia.
Qed.

Lemma numeral_empty : numeral EmptyString.
Proof. split; [reflexivity | discriminate]. Qed.

Lemma numeral_dropLast (v : string) : numeral v -> numeral (dropLast v).
Proof.
  intros [Hd Hz]. split; [now apply allDigits_dropLast|].
  intros rest E. destruct v as [|c [|c' r]]; cbn [dropLast] in E;
    try discriminate.
  injection E as -> _. discriminate (Hz _ eq_refl).
Qed.

(** What [handleNumberPress] hands to [onChange]. *)
Lemma press_keeps_numeral (m : nat) (disabled : bool) (num : Z)
    (v v' : string) :
  0 <= num <= 9 -> numeral v ->
  handleNumberPress v m disabled num = onChange v' ->
  numeral v' /\ (String.length v' <= m)%nat /\ v' <> EmptyString.
Proof.
  intros Hn [Hd Hz]. unfold handleNumberPress.
  destruct disabled; [discriminate|].
  destruct (m <=? String.length v)%nat eqn:Hm; [discriminate|].
  apply Nat.leb_gt in Hm.
  destruct (show_digit num Hn) as (ch & -> & Hch & _).
  destruct (String.eqb v "0") eqn:E0; cbn [andb].
  - destruct (num =? 0); [discriminate|]. cbn [negb].
    intros X. injection X as <-. apply String.eqb_eq in E0. subst v.
    cbn [String.length] in Hm. split; [split|].
    + cbn [allDigits]. now rewrite Hch.
    + intros rest E. now injection E as _ <-.
    + cbn [String.length]. split; [lia | discriminate].
  - intros X. injection X as <-. split; [split|].
    + rewrite allDigits_app, Hd. cbn [allDigits]. now rewrite Hch.
    + intros rest E. destruct v as [|c v0]; cbn [append] in E.
      * now injection E as _ <-.
      * injection E as -> _. rewrite (Hz _ eq_refl) in E0. discriminate.
    + rewrite length_append. cbn [String.length]. split; [lia|].
      destruct v; discriminate.
Qed.

Lemma handle_disabled (m : nat) (e : PadEvent) (v : string) :
  handle m true e v = nothing.
Proof. destruct e; reflexivity. Qed.

(** What [onChange] receives is again a numeral that fits. *)
Lemma handle_keeps_numeral (m : nat) (disabled : bool) (e : PadEvent)
    (v v' : string) :
  fromPad e -> numeral v -> (String.length v <= m)%nat ->
  handle m disabled e v = onChange v' ->
  numeral v' /\ (String.length v' <= m)%nat.
Proof.
  intros He Hv Hl.
  destruct disabled; [rewrite handle_disabled; discriminate|].
  assert (Back : handleBackspace v false = onChange v' ->
                 numeral v' /\ (String.length v' <= m)%nat).
  { unfold handleBackspace.
    destruct (String.length v =? 0)%nat; [discriminate|].
    intros X. injection X as <-. split; [now apply numeral_dropLast|].
    pose proof (length_dropLast v). lia. }
  assert (Clear : handleClear false = onChange v' ->
                  numeral v' /\ (String.length v' <= m)%nat).
  { unfold handleClear.
    intros X. injection X as <-. split; [apply numeral_empty|cbn; lia]. }
  destruct e as [num| | | |key]; cbn [handle fromPad] in *.
  - intros E.
    destruct (press_keeps_numeral m false num v v'
                (padButtons_digits num He) Hv E) as (A & B & _).
    now split.
  - exact Clear.
  - exact Back.
  - unfold handleSubmit.
    destruct (String.length v =? 0)%nat; discriminate.
  - unfold handleKeyDown.
    destruct key as [|c [|c' r]].
    + cbn. discriminate.
    + destruct (isDigit c) eqn:Hc; [|discriminate].
      unfold parseInt. rewrite Hc. cbn [parseDigits]. rewrite Hc.
      cbn [parseDigits]. intros E.
      pose proof (digitValue_range c Hc) as R.
      apply press_keeps_numeral in E; [|lia|exact Hv].
      destruct E as (A & B & _). now split.
    + set (k := String c (String c' r)).
      destruct (String.eqb k "Backspace"); [exact Back|].
      destruct (String.eqb k "Enter").
      * unfold handleSubmit.
        destruct (String.length v =? 0)%nat; discriminate.
      * destruct (String.eqb k "Escape"); [exact Clear | discriminate].
Qed.

Lemma handle_onSubmit (m : nat) (disabled : bool) (e : PadEvent)
    (v : string) :
  handle m disabled e v = onSubmit -> (1 <= String.length v)%nat.
Proof.
  destruct disabled; [rewrite handle_disabled; discriminate|].
  assert (S : handleSubmit v false = onSubmit ->
              (1 <= String.length v)%nat).
  { unfold handleSubmit.
    destruct (String.length v =? 0)%nat eqn:E; [discriminate|].
    apply Nat.eqb_neq in E. lia. }
  assert (Press : forall num,
            handleNumberPress v m false num <> onSubmit).
  { intros num. unfold handleNumberPress.
    repeat match goal with
           | |- context [if ?b then _ else _] => destruct b
           end; discriminate. }
  destruct e as [num| | | |key]; cbn [handle].
  - intros X. now elim (Press num).
  - discriminate.
  - unfold handleBackspace.
    destruct (String.length v =? 0)%nat; discriminate.
  - exact S.
  - unfold handleKeyDown.
    destruct key as [|c [|c' r]].
    + cbn. discriminate.
    + destruct (isDigit c); [|discriminate].
      destruct (parseInt _) as [num|]; [|discriminate].
      intros X. now elim (Press num).
    + set (k := String c (String c' r)).
      destruct (String.eqb k "Backspace").
      * unfold handleBackspace.
        destruct (String.length v =? 0)%nat; discriminate.
      * destruct (String.eqb k "Enter"); [exact S|].
        destruct (String.eqb k "Escape"); discriminate.
Qed.

Lemma numeral_submittable (m : nat) (s : string) :
  numeral s -> (1 <= String.length s <= m)%nat -> submittable m s.
Proof.
  intros N L. split; [exact N|]. split; [exact L|].
  destruct N as [Hd _]. destruct s as [|c r]; [cbn in L; lia|].
  pose proof Hd as Hd'. cbn [allDigits] in Hd'. apply andb_prop in Hd'.
  destruct Hd' as [Hc _]. unfold parseInt. rewrite Hc.
  eexists. split; [reflexivity|].
  pose proof (parseDigits_range (String c r) 0 Hd ltac:(lia)) as R.
  assert (10 ^ Z.of_nat (String.length (String c r)) <= 10 ^ Z.of_nat m)
    by (apply Z.pow_le_mono_r; lia).
  lia.
Qed.

Lemma typing_keeps (m : nat) (es : list (PadEvent * bool)) :
  forall v subs,
  Forall (fun e => fromPad (fst e)) es ->
  numeral v -> (String.length v <= m)%nat ->
  Forall (submittable m) subs ->
  numeral (fst (typing m es v subs))
  /\ (String.length (fst (typing m es v subs)) <= m)%nat
  /\ Forall (submittable m) (snd (typing m es v subs)).
Proof.
  induction es as [|[e d] es IH]; intros v subs Hes Hv Hl Hs;
    cbn [typing]; [cbn [fst snd]; auto|].
  inversion Hes as [|? ? He Hes']; subst. cbn [fst] in He.
  destruct (handle m d e v) as [v'| |] eqn:E.
  - destruct (handle_keeps_numeral m d e v v' He Hv Hl E) as [Hv' Hl'].
    now apply IH.
  - apply IH; auto. apply Forall_app. split; [exact Hs|].
    constructor; [|constructor].
    apply numeral_submittable; [exact Hv|].
    pose proof (handle_onSubmit m d e v E). lia.
  - now apply IH.
Qed.

Lemma typing_app (m : nat) (es1 : list (PadEvent * bool)) :
  forall es2 v subs,
  typing m (es1 ++ es2) v subs
  = typing m es2 (fst (typing m es1 v subs)) (snd (typing m es1 v subs)).
Proof.
  induction es1 as [|[e d] es1 IH]; intros es2 v subs; cbn [app typing];
    [reflexivity|].
  destruct (handle m d e v); apply IH.
Qed.

(** The number the keys typed so far spell, most significant first. *)
Lemma typing_digits (m : nat) (ks : list Z) : forall v subs,
  Forall (fun d => 0 <= d <= 9) ks -> allDigits v = true ->
  (String.length v + List.length ks <= m)%nat ->
  let r := typing m (map (fun d => (NumberButton d, false)) ks) v subs in
  allDigits (fst r) = true
  /\ parseDigits (fst r) 0
     = fold_left (fun a d => 10 * a + d) ks (parseDigits v 0)
  /\ snd r = subs
  /\ (v <> EmptyString \/ ks <> [] -> fst r <> EmptyString).
Proof.
  induction ks as [|d ks IH]; intros v subs Hk Hv Hl; cbv zeta;
    cbn [map typing fold_left fst snd].
  - repeat split; auto. intros [X|X]; [exact X | congruence].
  - inversion Hk as [|? ? Hd Hk']; subst.
    cbn [List.length] in Hl. cbn [handle]. unfold handleNumberPress.
    destruct (m <=? String.length v)%nat eqn:Hm;
      [apply Nat.leb_le in Hm; lia|].
    destruct (show_digit d Hd) as (ch & Hsh & Hch & Hval).
    destruct (String.eqb v "0") eqn:E0; cbn [andb].
    + apply String.eqb_eq in E0. subst v.
      destruct (d =? 0) eqn:Ed; cbn [negb].
      * apply Z.eqb_eq in Ed.
        destruct (IH "0"%string subs Hk' Hv ltac:(lia)) as (A & B & C & D).
        split; [exact A|]. split; [|split; [exact C|]].
        -- rewrite B. f_equal. rewrite Ed. reflexivity.
        -- intros _. apply D. left. discriminate.
      * rewrite Hsh.
        destruct (IH (String ch EmptyString) subs Hk'
                    ltac:(cbn [allDigits]; now rewrite Hch)
                    ltac:(cbn [String.length] in *; lia))
          as (A & B & C & D).
        split; [exact A|]. split.
        -- rewrite B. cbn [parseDigits]. rewrite Hch. cbn [parseDigits].
           rewrite Hval. reflexivity.
        -- split; [exact C|]. intros _. apply D. left. discriminate.
    + rewrite Hsh.
      destruct (IH (v ++ String ch EmptyString)%string subs Hk'
                  ltac:(rewrite allDigits_app, Hv; cbn [allDigits];
                        now rewrite Hch)
                  ltac:(rewrite length_append; cbn [String.length]; lia))
        as (A & B & C & D).
      split; [exact A|]. split.
      * rewrite B, parseDigits_app by exact Hv.
        cbn [parseDigits]. rewrite Hch. cbn [parseDigits].
        now rewrite Hval.
      * split; [exact C|]. intros _. apply D. left.
        destruct v; discriminate.
Qed.

Lemma fold_rev_reconstruct (ds : list Z) :
  fold_left (fun a d => 10 * a + d) (rev ds) 0 = reconstruct ds.
Proof.
  induction ds as [|d ds IH]; [reflexivity|].
  cbn [rev reconstruct]. rewrite fold_left_app, IH. cbn [fold_left]. lia.
Qed.

Lemma getDigits_digits (n : Z) :
  0 <= n ->
  reconstruct (getDigits n) = n
  /\ Forall (fun d => 0 <= d <= 9) (getDigits n).
Proof.
  intros H. unfold getDigits. destruct (n =? 0) eqn:E.
  - apply Z.eqb_eq in E. subst. cbn. split; [reflexivity|].
    repeat constructor; lia.
  - cbv zeta. rewrite Z.abs_eq by lia.
    destruct (getDigits_loop_value (Z.to_nat n) n H ltac:(lia))
      as (V & R & _).
    now split.
Qed.

(** X26: the number pad only ever holds and submits numerals. Starting
    from the empty input, after any sequence of button presses and key
    strokes (whatever the [disabled] prop is at each), the value is a
    string of at most [maxDigits] decimal digits without a leading zero
    (other than ["0"] itself); and every value [onSubmit] is called
    with is such a numeral, non-empty, which [parseInt] reads as a
    number from 0 to [10 ^ maxDigits - 1] (never [NaN]). *)
Theorem pad_submits_only_numerals (maxDigits : nat)
    (es : list (PadEvent * bool)) :
  Forall (fun e => fromPad (fst e)) es ->
  let r := typing maxDigits es EmptyString [] in
  numeral (fst r)
  /\ (String.length (fst r) <= maxDigits)%nat
  /\ Forall (fun s =>
       numeral s /\ (1 <= String.length s <= maxDigits)%nat
       /\ exists n, parseInt s = Some n
                    /\ 0 <= n < 10 ^ Z.of_nat maxDigits)
       (snd r).
Proof.
  intros H. cbv zeta.
  exact (typing_keeps maxDigits es EmptyString [] H numeral_empty
           ltac:(cbn; lia) (Forall_nil _)).
Qed.

(** X27: every answer of the level can be entered. For a valid problem
    of a level of [LEVEL_CONFIGS], with the [maxDigits] the quiz page
    gives the pad for that level, pressing the digits of the answer
    from the most significant on and then submit calls [onSubmit] once,
    with a value that [parseInt] reads as the problem's answer, which
    [validateAnswer] accepts. *)
Theorem answer_can_be_entered (level : QuizLevel) (p : MathProblem) :
  validProblem (maxNumber (LEVEL_CONFIGS level)) p ->
  let m := maxDigitsFor (maxNumber (LEVEL_CONFIGS level)) in
  let keys := map (fun d => (NumberButton d, false))
                  (rev (getDigits (answer p)))
              ++ [(SubmitButton, false)] in
  Forall (fun e => fromPad (fst e)) keys
  /\ exists v,
       typing m keys EmptyString [] = (v, [v])
       /\ parseInt v = Some (answer p)
       /\ validateAnswer p (answer p) = true.
Proof.
  intros V. cbv zeta.
  destruct (validProblem_nonneg _ _ V) as (_ & _ & H3 & _).
  destruct (getDigits_digits (answer p) H3) as [Hv Hd].
  assert (Hlen : (List.length (getDigits (answer p))
                  <= maxDigitsFor (maxNumber (LEVEL_CONFIGS level)))%nat).
  { assert (Hle : answer p <= maxNumber (LEVEL_CONFIGS level))
      by (unfold validProblem in V; destruct (operation p); lia).
    pose proof (getDigits_length_mono _ _ (conj H3 Hle)) as M.
    assert (X : (List.length (getDigits (maxNumber (LEVEL_CONFIGS level)))
                 <= maxDigitsFor (maxNumber (LEVEL_CONFIGS level)))%nat)
      by (destruct level; vm_compute; lia).
    lia. }
  split.
  - apply Forall_app. split; [|repeat constructor].
    apply Forall_map, Forall_rev. eapply Forall_impl; [|exact Hd].
    intros d Hr. cbv beta in Hr |- *. cbn [fst fromPad]. unfold padButtons.
    cbn [In]. assert (C : d = 0 \/ d = 1 \/ d = 2 \/ d = 3 \/ d = 4
                          \/ d = 5 \/ d = 6 \/ d = 7 \/ d = 8 \/ d = 9)
      by lia.
    intuition congruence.
  - rewrite typing_app.
    destruct (typing_digits (maxDigitsFor (maxNumber (LEVEL_CONFIGS level)))
                (rev (getDigits (answer p))) EmptyString []
                (Forall_rev Hd) eq_refl
                ltac:(rewrite length_rev; cbn [String.length]; lia))
      as (A & B & C & D).
    set (r := typing _ (map _ (rev (getDigits (answer p)))) _ _) in *.
    rewrite C.
    assert (Hne : fst r <> EmptyString).
    { apply D. right. intros X. apply (f_equal (@List.length Z)) in X.
      rewrite length_rev in X. pose proof (getDigits_nonempty (answer p)).
      cbn in X. lia. }
    exists (fst r). split; [|split].
    + cbn [typing handle]. unfold handleSubmit.
      destruct (fst r) as [|c s] eqn:F; [congruence|]. reflexivity.
    + cbn [parseDigits] in B. rewrite fold_rev_reconstruct, Hv in B.
      unfold parseInt. destruct (fst r) as [|c s] eqn:F; [congruence|].
      pose proof A as A'. cbn [allDigits] in A'.
      apply andb_prop in A'. destruct A' as [Hc _]. rewrite Hc.
      now rewrite B.
    + unfold validateAnswer. apply Z.eqb_refl.
Qed.

End PadFacts.

Lemma pad_submits_only_numerals_witness :
  Forall (fun e => NumberPad.fromPad (fst e))
    [(NumberPad.NumberButton 0, false); (NumberPad.NumberButton 7, false);
     (NumberPad.Key "3", false); (NumberPad.NumberButton 5, false);
     (NumberPad.Key "Enter", false)]
  /\ Forall (fun s => exists n, NumberPad.parseInt s = Some n
                                /\ 0 <= n < 10 ^ Z.of_nat 2)
       (snd (NumberPad.typing 2
               [(NumberPad.NumberButton 0, false);
                (NumberPad.NumberButton 7, false);
                (NumberPad.Key "3", false);
                (NumberPad.NumberButton 5, false);
                (NumberPad.Key "Enter", false)] EmptyString [])).
Proof.
  assert (H : Forall (fun e => NumberPad.fromPad (fst e))
    [(NumberPad.NumberButton 0, false); (NumberPad.NumberButton 7, false);
     (NumberPad.Key "3", false); (NumberPad.NumberButton 5, false);
     (NumberPad.Key "Enter", false)]).
  { repeat constructor; cbn; first [exact I | lia]. }
  split; [exact H|].
  destruct (pad_submits_only_numerals 2 _ H) as (_ & _ & S).
  eapply Forall_impl; [|exact S].
  intros s (_ & _ & P). exact P.
Defined.

Lemma answer_can_be_entered_witness :
  validProblem (maxNumber (LEVEL_CONFIGS add_sub_20)) problem_7_plus_5
  /\ exists v,
       NumberPad.typing 2
         [(NumberPad.NumberButton 1, false);
          (NumberPad.NumberButton 2, false);
          (NumberPad.SubmitButton, false)] EmptyString [] = (v, [v])
       /\ NumberPad.parseInt v = Some 12.
Proof.
  assert (V : validProblem (maxNumber (LEVEL_CONFIGS add_sub_20))
                problem_7_plus_5)
    by (unfold validProblem; cbn; lia).
  split; [exact V|].
  destruct (answer_can_be_entered add_sub_20 problem_7_plus_5 V)
    as (_ & v & T & P & _).
  exists v. split; [exact T | exact P].
Defined.
